(** * The channel core of cdipipe: connections, streams and the router

    A shallow embedding of [Channel.cpp] and [Connection.cpp].  Objects held
    through [std::shared_ptr] live in the vector that owns them
    ([connections_], [streams_]) and are referred to by their position in it;
    both vectors only ever grow at the back, so a position is a stable
    reference.  Transport operations ([async_connect], [async_receive], ...)
    are initiations: they are recorded in a trace and their completions are
    delivered later, as calls of [connection_handler], [read_complete] and
    [write_complete]. *)

From stdpp Require Import gmap strings list fin_maps.
From Stdlib Require Import ZArith.

Local Open Scope Z_scope.

(** ** Enumerations

    The headers that declare them are not part of the sources; the
    enumerators are the ones the code names. *)

Module ConnectionType.
(** [Other] stands for any enumerator value that [get_connection] sends to
    its [default:] branch. *)
Inductive t := Cdi | Tcp | Other.
#[global] Instance eq_dec : EqDecision t.
Proof. solve_decision. Defined.
End ConnectionType.

Module ConnectionMode.
(** [open_connections] dials for [Client] and accepts for any other mode. *)
Inductive t := Client | Server.
#[global] Instance eq_dec : EqDecision t.
Proof. solve_decision. Defined.
End ConnectionMode.

Module ConnectionDirection.
(** [Both] is the wildcard of [get_stream_connections]. *)
Inductive t := In | Out | Both.
#[global] Instance eq_dec : EqDecision t.
Proof. solve_decision. Defined.
End ConnectionDirection.

Module ConnectionStatus.
(** Modelled from the spec: the code names [Closed] and [Open];
    status ∈ {Closed, Connecting, Open, Faulted}. *)
Inductive t := Closed | Connecting | Open | Faulted.
#[global] Instance eq_dec : EqDecision t.
Proof. solve_decision. Defined.
End ConnectionStatus.

Module PayloadType.
(** [Other] stands for any value that [Connection::add_stream] sends to its
    [default:] branch. *)
Inductive t := Video | Audio | Ancillary | Other.
#[global] Instance eq_dec : EqDecision t.
Proof. solve_decision. Defined.
End PayloadType.

(** [std::error_code]: the value 0 is success, [if (ec)] tests [ec <> 0]. *)
Definition error_code := Z.

Definition failed (ec : error_code) : bool := negb (ec =? 0).

(** ** Payloads *)

Record Payload := mkPayload {
  stream_identifier : Z;
  sequence : Z;
  get_size : nat
}.

#[global] Instance Payload_eq_dec : EqDecision Payload.
Proof. solve_decision. Defined.

(** ** PayloadBuffer *)

Module PayloadBuffer.

Record t := mk {
  capacity : nat;
  buffer_ : list Payload
}.

(** [PayloadBuffer(buffer_capacity)] *)
Definition make (buffer_capacity : nat) : t :=
  {| capacity := buffer_capacity; buffer_ := [] |}.

Definition size (b : t) : nat := length (buffer_ b).

(** Modelled from the spec: the bodies of [is_full], [is_empty],
    [enqueue], [front], [pop_front] and [clear] (PayloadBuffer.cpp) are
    missing; the buffer is a bounded FIFO over a circular buffer, full when
    it holds [capacity] payloads. *)
Definition is_full (b : t) : bool := bool_decide (size b = capacity b).

(** Modelled from the spec: [is_empty()] of the bounded FIFO. *)
Definition is_empty (b : t) : bool := bool_decide (size b = 0%nat).

(** Modelled from the spec: [enqueue(p)] pushes [p] at the tail if
    [!is_full()], else discards [p] and returns false. *)
Definition enqueue (item : Payload) (b : t) : bool * t :=
  if is_full b then (false, b)
  else (true, {| capacity := capacity b; buffer_ := buffer_ b ++ [item] |}).

(** Modelled from the spec: [front()] returns the head element and is
    undefined on an empty buffer. *)
Definition front (b : t) : option Payload := head (buffer_ b).

(** Modelled from the spec: [pop_front()] removes the head. *)
Definition pop_front (b : t) : t :=
  {| capacity := capacity b; buffer_ := tail (buffer_ b) |}.

(** Modelled from the spec: [clear()] drops all held payloads. *)
Definition clear (b : t) : t :=
  {| capacity := capacity b; buffer_ := [] |}.

End PayloadBuffer.

(** ** Stream descriptors *)

Module Stream.

Record t := mk {
  id : Z;
  payload_type : PayloadType.t;
  payloads_received : Z;
  payloads_transmitted : Z;
  payload_errors : Z
}.

Definition make (stream_identifier : Z) (type : PayloadType.t) : t :=
  {| id := stream_identifier; payload_type := type;
     payloads_received := 0; payloads_transmitted := 0;
     payload_errors := 0 |}.

(** Modelled from the spec: the counter methods of Stream (Stream.cpp is
    missing) each increment their counter and return the new value. *)
Definition received_payload (s : t) : Z * t :=
  (payloads_received s + 1,
   {| id := id s; payload_type := payload_type s;
      payloads_received := payloads_received s + 1;
      payloads_transmitted := payloads_transmitted s;
      payload_errors := payload_errors s |}).

(** Modelled from the spec: [transmitted_payload()] increments and returns
    the new value. *)
Definition transmitted_payload (s : t) : Z * t :=
  (payloads_transmitted s + 1,
   {| id := id s; payload_type := payload_type s;
      payloads_received := payloads_received s;
      payloads_transmitted := payloads_transmitted s + 1;
      payload_errors := payload_errors s |}).

(** Modelled from the spec: [payload_error()] increments and returns the
    new value. *)
Definition payload_error (s : t) : Z * t :=
  (payload_errors s + 1,
   {| id := id s; payload_type := payload_type s;
      payloads_received := payloads_received s;
      payloads_transmitted := payloads_transmitted s;
      payload_errors := payload_errors s + 1 |}).

End Stream.

(** ** Failures *)

(** The reasons for which the code throws [InvalidConfigurationException],
  one per message. *)
Inductive ConfigurationError :=
| UnknownConnection (connection_name : string)
| AlreadyAssigned (stream_identifier : Z) (assigned connection_name : string)
| UnrecognizedStream (stream_identifier : Z)
| MappedToUnknownConnection (stream_identifier : Z) (connection_name : string)
| MappedToUnknownStream (connection_name : string) (stream_identifier : Z)
| NoStreamAssigned (connection_name : string)
| UnsupportedPayloadType
| UnsupportedConnectionType.

(** How a call can fail to return: by the exception, by a failed [assert],
  or by undefined behaviour (dereferencing [begin()] of an empty vector or
  a reference to no object). *)
Inductive Failure :=
| InvalidConfigurationException (why : ConfigurationError)
| AssertionFailed
| Undefined.

Inductive result (A : Type) :=
| Ok (a : A)
| Fail (e : Failure).
Arguments Ok {A} a.
Arguments Fail {A} e.

(** ** Connection *)

Module Connection.

Record t := mk {
  name_ : string;
  host_name_ : string;
  port_number_ : Z;
  mode_ : ConnectionMode.t;
  direction_ : ConnectionDirection.t;
  type_ : ConnectionType.t;
  status_ : ConnectionStatus.t;
  (** the bound streams, as references into the vector that owns them *)
  streams_ : list nat;
  payloads_received_ : Z;
  payloads_transmitted_ : Z;
  payload_errors_ : Z
}.

(** The accessors of the connection. *)
Definition get_name := name_.
Definition get_mode := mode_.
Definition get_direction := direction_.
Definition get_type := type_.
Definition get_status := status_.

Definition set_status (status : ConnectionStatus.t) (c : t) : t :=
  {| name_ := name_ c; host_name_ := host_name_ c;
     port_number_ := port_number_ c; mode_ := mode_ c;
     direction_ := direction_ c; type_ := type_ c; status_ := status;
     streams_ := streams_ c;
     payloads_received_ := payloads_received_ c;
     payloads_transmitted_ := payloads_transmitted_ c;
     payload_errors_ := payload_errors_ c |}.

Definition set_streams (streams : list nat) (c : t) : t :=
  {| name_ := name_ c; host_name_ := host_name_ c;
     port_number_ := port_number_ c; mode_ := mode_ c;
     direction_ := direction_ c; type_ := type_ c; status_ := status_ c;
     streams_ := streams;
     payloads_received_ := payloads_received_ c;
     payloads_transmitted_ := payloads_transmitted_ c;
     payload_errors_ := payload_errors_ c |}.

(** The constructor: counters at 0, status [Closed], no stream bound. *)
Definition make (connection_type : ConnectionType.t) (name host_name : string)
    (port_number : Z) (connection_mode : ConnectionMode.t)
    (connection_direction : ConnectionDirection.t) : t :=
  {| name_ := name; host_name_ := host_name; port_number_ := port_number;
     mode_ := connection_mode; direction_ := connection_direction;
     type_ := connection_type; status_ := ConnectionStatus.Closed;
     streams_ := [];
     payloads_received_ := 0; payloads_transmitted_ := 0;
     payload_errors_ := 0 |}.

(** [Connection::get_connection]: a [CdiConnection] or a [TcpConnection],
    and the exception for any other type. *)
Definition get_connection (connection_type : ConnectionType.t)
    (name host_name : string) (port_number : Z)
    (connection_mode : ConnectionMode.t)
    (connection_direction : ConnectionDirection.t) : result t :=
  match connection_type with
  | ConnectionType.Cdi | ConnectionType.Tcp =>
      Ok (make connection_type name host_name port_number connection_mode
            connection_direction)
  | ConnectionType.Other =>
      Fail (InvalidConfigurationException UnsupportedConnectionType)
  end.

Section WithStreams.
  (** The stream objects the references of [streams_] point to. *)
Variable heap : list Stream.t.

  (** [Connection::add_stream] *)
Definition add_stream (stream : nat) (c : t) : result t :=
    match heap !! stream with
    | None => Fail Undefined
    | Some s =>
        match Stream.payload_type s with
        | PayloadType.Video | PayloadType.Audio | PayloadType.Ancillary =>
            Ok (set_streams (streams_ c ++ [stream]) c)
        | PayloadType.Other =>
            Fail (InvalidConfigurationException UnsupportedPayloadType)
        end
    end.

  (** The predicate of the [find_if] in [get_stream]: the stream behind the
      reference has the identifier looked for. *)
Definition has_id (stream_identifier : Z) (stream : nat) : Prop :=
    Stream.id <$> heap !! stream = Some stream_identifier.

#[local] Instance has_id_dec i r : Decision (has_id i r).
Proof. unfold has_id. apply _. Defined.

  (** [Connection::get_stream]: identifier 0 means the default stream. *)
Definition get_stream (stream_identifier : Z) (c : t) : result nat :=
    let first :=
      match streams_ c with
      | [] => Fail Undefined
      | stream :: _ => Ok stream
      end in
    if decide (stream_identifier ≠ 0) then
      match list_find (has_id stream_identifier) (streams_ c) with
      | Some (_, stream) => Ok stream
      | None => first
      end
    else first.

End WithStreams.

(** [Connection::disconnect] *)
Definition disconnect (c : t) : t := set_status ConnectionStatus.Closed c.

End Connection.


(** ** What the channel does to the outside

    Log lines (with their severity), initiated transport operations, tasks
    posted to the executor and calls of the user's [ChannelHandler]. *)

Inductive LogLevel := Trace | Debug | Info | Warning | Error.

Inductive Message :=
| ConnectionEstablished (connection_name : string)
| ConnectionFailed (connection_name : string) (ec : error_code)
| OpeningConnection (connection_name : string)
| ConnectionNotReady (connection_name : string)
| ErrorReceiving (ec : error_code)
| ErrorTransmitting (ec : error_code)
| ReceivedPayload (stream_identifier count : Z) (queue_length queue_size : nat)
| TransmittingPayload (stream_identifier count : Z) (queue_length queue_size : nat)
| TransmittedPayload (stream_identifier count : Z) (queue_length queue_size : nat)
| ReceiveBufferFull (connection_name : string) (capacity : nat).

Inductive Event :=
| Log (level : LogLevel) (message : Message)
| AsyncConnect (connection : nat)
| AsyncAccept (connection : nat)
| AsyncReceive (connection : nat)
| AsyncTransmit (connection : nat) (payload : Payload) (stream : nat)
| PostAsyncWrite (connection : nat) (ec : error_code)
| Handler (ec : error_code).

#[global] Instance LogLevel_eq_dec : EqDecision LogLevel.
Proof. solve_decision. Defined.
#[global] Instance Message_eq_dec : EqDecision Message.
Proof. solve_decision. Defined.
#[global] Instance Event_eq_dec : EqDecision Event.
Proof. solve_decision. Defined.

(** ** Channel *)

Module Channel.

(** The members of the channel that the member functions use.
    Modelled from the spec: their declaration (Channel.h) is missing; the
    channel map is a many-to-many relation between connection names and
    stream identifiers, queryable in both directions, and every connection
    name has a buffer with its overflow latch. *)
Record t := mk {
  connections_ : list Connection.t;
  streams_ : list Stream.t;
  (** the bimap, as the pairs (connection name, stream identifier) in the
      order of their insertion *)
  channel_map_ : list (string * Z);
  (** connection name to (buffer, overflow latch) *)
  connection_buffers_ : gmap string (PayloadBuffer.t * bool);
  (** whether the [active_] work sentinel is present *)
  active_ : bool;
  trace : list Event
}.

(** A channel as its constructor leaves it. *)
Definition make : t :=
  {| connections_ := []; streams_ := []; channel_map_ := [];
     connection_buffers_ := ∅; active_ := false; trace := [] |}.

Definition set_connections (v : list Connection.t) (st : t) : t :=
  {| connections_ := v; streams_ := streams_ st;
     channel_map_ := channel_map_ st;
     connection_buffers_ := connection_buffers_ st;
     active_ := active_ st; trace := trace st |}.

Definition set_streams (v : list Stream.t) (st : t) : t :=
  {| connections_ := connections_ st; streams_ := v;
     channel_map_ := channel_map_ st;
     connection_buffers_ := connection_buffers_ st;
     active_ := active_ st; trace := trace st |}.

Definition set_channel_map (v : list (string * Z)) (st : t) : t :=
  {| connections_ := connections_ st; streams_ := streams_ st;
     channel_map_ := v;
     connection_buffers_ := connection_buffers_ st;
     active_ := active_ st; trace := trace st |}.

Definition set_connection_buffers
    (v : gmap string (PayloadBuffer.t * bool)) (st : t) : t :=
  {| connections_ := connections_ st; streams_ := streams_ st;
     channel_map_ := channel_map_ st;
     connection_buffers_ := v;
     active_ := active_ st; trace := trace st |}.

Definition set_active (v : bool) (st : t) : t :=
  {| connections_ := connections_ st; streams_ := streams_ st;
     channel_map_ := channel_map_ st;
     connection_buffers_ := connection_buffers_ st;
     active_ := v; trace := trace st |}.

Definition set_trace (v : list Event) (st : t) : t :=
  {| connections_ := connections_ st; streams_ := streams_ st;
     channel_map_ := channel_map_ st;
     connection_buffers_ := connection_buffers_ st;
     active_ := active_ st; trace := v |}.

(** *** The monad of member functions

    A member function runs on the channel and either returns or fails; in
    both cases the channel is left as the call modified it so far (a C++
    exception undoes nothing). *)

Inductive outcome (A : Type) :=
| Returns (a : A) (st : t)
| Raises (e : Failure) (st : t).
Arguments Returns {A} a st.
Arguments Raises {A} e st.

Definition state_of {A} (o : outcome A) : t :=
  match o with Returns _ st => st | Raises _ st => st end.

Definition action (A : Type) : Type := t → outcome A.

#[global] Instance action_ret : MRet action := λ A a st, Returns a st.

#[global] Instance action_bind : MBind action := λ A B f m st,
  match m st with
  | Returns a st' => f a st'
  | Raises e st' => Raises e st'
  end.

Definition get : action t := λ st, Returns st st.
Definition modify (f : t → t) : action unit := λ st, Returns () (f st).
Definition raise {A} (e : Failure) : action A := λ st, Raises e st.

Definition lift {A} (r : result A) : action A :=
  match r with Ok a => mret a | Fail e => raise e end.

Definition emit (e : Event) : action unit :=
  modify (λ st, set_trace (trace st ++ [e]) st).

Definition log (level : LogLevel) (message : Message) : action unit :=
  emit (Log level message).

(** A range-based [for] over a vector computed before the loop. *)
Fixpoint for_each {A} (l : list A) (body : A → action unit) : action unit :=
  match l with
  | [] => mret ()
  | x :: l' => body x ;; for_each l' body
  end.

(** *** Objects behind references *)

Definition connection_at (connection : nat) : action Connection.t :=
  st ← get;
  match connections_ st !! connection with
  | Some c => mret c
  | None => raise Undefined
  end.

Definition stream_at (stream : nat) : action Stream.t :=
  st ← get;
  match streams_ st !! stream with
  | Some s => mret s
  | None => raise Undefined
  end.

(** A counter method of [Stream] called through a reference. *)
Definition on_stream (stream : nat) (method : Stream.t → Z * Stream.t) : action Z :=
  s ← stream_at stream;
  modify (λ st, set_streams (<[stream := (method s).2]> (streams_ st)) st) ;;
  mret (method s).1.

Definition received_payload (stream : nat) : action Z :=
  on_stream stream Stream.received_payload.
Definition transmitted_payload (stream : nat) : action Z :=
  on_stream stream Stream.transmitted_payload.
Definition payload_error (stream : nat) : action Z :=
  on_stream stream Stream.payload_error.

(** *** Lookups *)

(** The [find_if] over [connections_] by name: the first connection of that
    name and its position. *)
Definition find_connection (connection_name : string) (st : t)
    : option (nat * Connection.t) :=
  list_find (λ c, Connection.get_name c = connection_name) (connections_ st).

(** The [find_if] over [streams_] by identifier. *)
Definition find_stream (stream_identifier : Z) (st : t)
    : option (nat * Stream.t) :=
  list_find (λ s, Stream.id s = stream_identifier) (streams_ st).

(** [Channel::get_stream] *)
Definition get_stream (stream_identifier : Z) : action nat :=
  st ← get;
  match find_stream stream_identifier st with
  | Some (stream, _) => mret stream
  | None =>
      raise (InvalidConfigurationException (UnrecognizedStream stream_identifier))
  end.

(** [channel_map_.right.equal_range(stream_identifier)] and
    [channel_map_.left.equal_range(connection_name)] *)
Definition right_equal_range (stream_identifier : Z) (st : t) : list (string * Z) :=
  filter (λ e, e.2 = stream_identifier) (channel_map_ st).

Definition left_equal_range (connection_name : string) (st : t) : list (string * Z) :=
  filter (λ e, e.1 = connection_name) (channel_map_ st).

(** The loop of [get_stream_connections] over the entries of the range. *)
Fixpoint stream_connections (st : t) (stream_identifier : Z)
    (direction : ConnectionDirection.t) (entries : list (string * Z))
    : result (list nat) :=
  match entries with
  | [] => Ok []
  | map_entry :: entries' =>
      match find_connection map_entry.1 st with
      | None =>
          Fail (InvalidConfigurationException
                  (MappedToUnknownConnection stream_identifier map_entry.1))
      | Some (connection, c) =>
          match stream_connections st stream_identifier direction entries' with
          | Fail e => Fail e
          | Ok rest =>
              if bool_decide (ConnectionDirection.Both = direction
                              ∨ Connection.get_direction c = direction)
              then Ok (connection :: rest) else Ok rest
          end
      end
  end.

(** [Channel::get_stream_connections] *)
Definition get_stream_connections (stream_identifier : Z)
    (direction : ConnectionDirection.t) : action (list nat) :=
  st ← get;
  lift (stream_connections st stream_identifier direction
          (right_equal_range stream_identifier st)).

(** The loop of [get_connection_streams]. *)
Fixpoint connection_streams (st : t) (connection_name : string)
    (entries : list (string * Z)) : result (list nat) :=
  match entries with
  | [] => Ok []
  | map_entry :: entries' =>
      match find_stream map_entry.2 st with
      | None =>
          Fail (InvalidConfigurationException
                  (MappedToUnknownStream connection_name map_entry.2))
      | Some (stream, _) =>
          match connection_streams st connection_name entries' with
          | Fail e => Fail e
          | Ok rest => Ok (stream :: rest)
          end
      end
  end.

(** [Channel::get_connection_streams] *)
Definition get_connection_streams (connection_name : string) : action (list nat) :=
  st ← get;
  lift (connection_streams st connection_name
          (left_equal_range connection_name st)).

(** *** Configuration *)

(** [connection_buffers_.try_emplace(name, buffer_size, false)]: a buffer is
    created only if the name has none yet. *)
Definition try_emplace (name : string) (buffer_size : nat)
    (buffers : gmap string (PayloadBuffer.t * bool))
    : gmap string (PayloadBuffer.t * bool) :=
  match buffers !! name with
  | Some _ => buffers
  | None => <[name := (PayloadBuffer.make buffer_size, false)]> buffers
  end.

Definition add_connection (connection_direction : ConnectionDirection.t)
    (connection_type : ConnectionType.t) (name host_name : string)
    (port_number : Z) (connection_mode : ConnectionMode.t)
    (buffer_size : nat) : action nat :=
  connection ← lift (Connection.get_connection connection_type name host_name
                       port_number connection_mode connection_direction);
  modify (λ st, set_connection_buffers
                  (try_emplace name buffer_size (connection_buffers_ st)) st) ;;
  st ← get;
  modify (set_connections (connections_ st ++ [connection])) ;;
  mret (length (connections_ st)).

(** [Channel::add_input] and [Channel::add_output] *)
Definition add_input := add_connection ConnectionDirection.In.
Definition add_output := add_connection ConnectionDirection.Out.

(** [streams_.push_back(stream)]; the result is the reference to the new
    stream. *)
Definition push_stream (stream : Stream.t) : action nat :=
  st ← get;
  modify (set_streams (streams_ st ++ [stream])) ;;
  mret (length (streams_ st)).

(** [Channel::add_video_stream], [add_audio_stream], [add_ancillary_stream].
    The descriptive arguments (geometry, sampling, language) go to the
    stream object and are never read by the channel.
    Modelled from the spec: the stream classes (VideoStream.h and the like)
    are missing; each variant carries its own payload type tag. *)
Definition add_video_stream (stream_identifier : Z)
    (frame_width frame_height bytes_per_pixel
     frame_rate_numerator frame_rate_denominator : Z) : action nat :=
  push_stream (Stream.make stream_identifier PayloadType.Video).

Definition add_audio_stream (stream_identifier : Z)
    (channel_grouping audio_sampling_rate bytes_per_sample : Z)
    (language : string) : action nat :=
  push_stream (Stream.make stream_identifier PayloadType.Audio).

Definition add_ancillary_stream (stream_identifier : Z) : action nat :=
  push_stream (Stream.make stream_identifier PayloadType.Ancillary).

(** [add_stream(stream)] called on the connection behind a reference. *)
Definition connection_add_stream (connection stream : nat) : action unit :=
  c ← connection_at connection;
  st ← get;
  c' ← lift (Connection.add_stream (streams_ st) stream c);
  modify (set_connections (<[connection := c']> (connections_ st))).

(** [Channel::map_stream] *)
Definition map_stream (stream_identifier : Z) (connection_name : string)
    : action unit :=
  st ← get;
  match find_connection connection_name st with
  | None =>
      raise (InvalidConfigurationException (UnknownConnection connection_name))
  | Some (connection, c) =>
      (if decide (Connection.get_direction c = ConnectionDirection.In) then
         stream_connections ←
           get_stream_connections stream_identifier ConnectionDirection.In;
         match stream_connections with
         | [] => mret ()
         | first :: _ =>
             assigned ← connection_at first;
             raise (InvalidConfigurationException
                      (AlreadyAssigned stream_identifier
                         (Connection.get_name assigned) connection_name))
         end
       else mret ()) ;;
      stream ← get_stream stream_identifier;
      connection_add_stream connection stream ;;
      modify (λ st, set_channel_map
                      (channel_map_ st ++ [(connection_name, stream_identifier)]) st)
  end.

(** [Channel::validate_configuration] *)
Definition validate_configuration : action unit :=
  st ← get;
  for_each (connections_ st) (λ connection,
    match left_equal_range (Connection.get_name connection) st with
    | [] =>
        raise (InvalidConfigurationException
                 (NoStreamAssigned (Connection.get_name connection)))
    | _ :: _ => mret ()
    end).

(** *** The overflow latch *)

(** [static_cast<size_t>(buffer_capacity * 0.8)].  The product is formed in
    double precision and truncated; for every capacity below 2^50 that is
    the integer quotient of [4 * buffer_capacity] by 5. *)
Definition low_water_mark (buffer_capacity : nat) : nat :=
  (buffer_capacity * 4 / 5)%nat.

(** [Channel::get_connection_buffer].  The reference it returns is the entry
    of [connection_name]; callers go on with [buffer_of] and [on_buffer]. *)
Definition get_connection_buffer (connection_name : string) : action unit :=
  st ← get;
  match connection_buffers_ st !! connection_name with
  | None => raise AssertionFailed
  | Some (buffer, latched) =>
      let buffer_size := PayloadBuffer.size buffer in
      latched ←
        (if PayloadBuffer.is_full buffer then
           if negb latched then
             log Warning (ReceiveBufferFull connection_name
                            (PayloadBuffer.capacity buffer)) ;;
             mret true
           else mret latched
         else mret latched);
      let latched :=
        if (latched : bool) then
          bool_decide (low_water_mark (PayloadBuffer.capacity buffer)
                       < buffer_size)%nat
        else latched in
      modify (λ st, set_connection_buffers
                      (<[connection_name := (buffer, latched)]>
                         (connection_buffers_ st)) st)
  end.

(** Reading the buffer behind the reference. *)
Definition buffer_of (connection_name : string) : action PayloadBuffer.t :=
  st ← get;
  match connection_buffers_ st !! connection_name with
  | None => raise Undefined
  | Some (buffer, _) => mret buffer
  end.

(** A mutating method of the buffer behind the reference. *)
Definition on_buffer (connection_name : string)
    (method : PayloadBuffer.t → PayloadBuffer.t) : action unit :=
  modify (λ st, set_connection_buffers
                  (alter (λ entry, (method entry.1, entry.2)) connection_name
                     (connection_buffers_ st)) st).

(** *** The router *)

(** Modelled from the spec: [is_active()] (declared in the missing
    Channel.h) holds while the [active] sentinel is present. *)
Definition is_active : action bool :=
  st ← get; mret (active_ st).

Section Router.

(** The status in which a transport leaves its connection when a dial or an
    accept is initiated on it (the transports themselves are not part of the
    channel). *)
Variable initiated : Connection.t → ConnectionStatus.t.

Definition initiate (connection : nat) : action unit :=
  c ← connection_at connection;
  modify (λ st, set_connections
                  (<[connection := Connection.set_status (initiated c) c]>
                     (connections_ st)) st).

Definition async_connect (connection : nat) : action unit :=
  emit (AsyncConnect connection) ;; initiate connection.

Definition async_accept (connection : nat) : action unit :=
  emit (AsyncAccept connection) ;; initiate connection.

Definition async_receive (connection : nat) : action unit :=
  emit (AsyncReceive connection).

Definition async_transmit (connection : nat) (payload : Payload) (stream : nat)
    : action unit :=
  emit (AsyncTransmit connection payload stream).

(** The body of the loop of [open_connections], lines 90 to 98. *)
Definition open_connection (connection : nat) : action unit :=
  c ← connection_at connection;
  if decide (Connection.get_status c = ConnectionStatus.Closed) then
    log Debug (OpeningConnection (Connection.get_name c)) ;;
    if decide (Connection.get_mode c = ConnectionMode.Client) then
      async_connect connection
    else
      async_accept connection
  else mret ().

(** [Channel::open_connections]; the completion it binds is
    [connection_handler] below. *)
Definition open_connections : action unit :=
  st ← get;
  for_each (seq 0 (length (connections_ st))) open_connection.

(** [Channel::async_read] *)
Definition async_read (connection : nat) (ec : error_code) : action unit :=
  active ← is_active;
  if negb active then mret () else
  c ← connection_at connection;
  if failed ec && bool_decide (Connection.get_status c ≠ ConnectionStatus.Open)
  then
    log Warning (ConnectionNotReady (Connection.get_name c)) ;;
    open_connections
  else
    (if failed ec then log Warning (ErrorReceiving ec) else mret ()) ;;
    async_receive connection.

(** [Channel::async_write] *)
Definition async_write (connection : nat) (ec : error_code) : action unit :=
  active ← is_active;
  if negb active then mret () else
  c ← connection_at connection;
  if failed ec && bool_decide (Connection.get_status c ≠ ConnectionStatus.Open)
  then
    log Warning (ConnectionNotReady (Connection.get_name c)) ;;
    open_connections
  else
    (if failed ec then log Warning (ErrorTransmitting ec) else mret ()) ;;
    get_connection_buffer (Connection.get_name c) ;;
    connection_buffer ← buffer_of (Connection.get_name c);
    if PayloadBuffer.is_empty connection_buffer then
      emit (PostAsyncWrite connection ec)
    else
      match PayloadBuffer.front connection_buffer with
      | None => raise Undefined
      | Some payload =>
          stream ← get_stream (stream_identifier payload);
          s ← stream_at stream;
          log Trace (TransmittingPayload (stream_identifier payload)
                       (Stream.payloads_transmitted s + 1)
                       (PayloadBuffer.size connection_buffer)
                       (PayloadBuffer.capacity connection_buffer)) ;;
          async_transmit connection payload stream
      end.

(** [Channel::write_complete] *)
Definition write_complete (connection stream : nat) (ec : error_code)
    : action unit :=
  payloads_transmitted ← transmitted_payload stream;
  (if failed ec then payload_error stream ;; mret () else mret ()) ;;
  c ← connection_at connection;
  get_connection_buffer (Connection.get_name c) ;;
  on_buffer (Connection.get_name c) PayloadBuffer.pop_front ;;
  (if negb (failed ec) then
     s ← stream_at stream;
     connection_buffer ← buffer_of (Connection.get_name c);
     log Debug (TransmittedPayload (Stream.id s) payloads_transmitted
                  (PayloadBuffer.size connection_buffer)
                  (PayloadBuffer.capacity connection_buffer))
   else mret ()) ;;
  async_write connection ec.

(** The body of the loop of [read_complete], lines 140 to 160: one output
    connection of the payload's stream. *)
Definition queue_payload (stream : nat) (payload : Payload)
    (payloads_received : Z) (output_connection : nat) : action unit :=
  o ← connection_at output_connection;
  if decide (ConnectionStatus.Open ≠ Connection.get_status o) then
    open_connections
  else
    let connection_name := Connection.get_name o in
    get_connection_buffer connection_name ;;
    connection_buffer ← buffer_of connection_name;
    (if PayloadBuffer.is_full connection_buffer then
       payload_error stream ;; mret ()
     else mret ()) ;;
    on_buffer connection_name (λ b, (PayloadBuffer.enqueue payload b).2) ;;
    connection_buffer ← buffer_of connection_name;
    log Debug (ReceivedPayload (stream_identifier payload) payloads_received
                 (PayloadBuffer.size connection_buffer)
                 (PayloadBuffer.capacity connection_buffer)).

(** [Channel::read_complete] *)
Definition read_complete (connection : nat) (ec : error_code)
    (payload : Payload) : action unit :=
  stream ← get_stream (stream_identifier payload);
  payloads_received ← received_payload stream;
  (if failed ec then payload_error stream ;; mret () else mret ()) ;;
  (if negb (failed ec) then
     connections ←
       get_stream_connections (stream_identifier payload) ConnectionDirection.Out;
     for_each connections (queue_payload stream payload payloads_received)
   else mret ()) ;;
  c ← connection_at connection;
  if decide (Connection.get_type c ≠ ConnectionType.Cdi) then
    async_read connection ec
  else mret ().

(** The completion of a dial or an accept, lines 58 to 88. *)
Definition connection_handler (connection : nat) (ec : error_code)
    : action unit :=
  c ← connection_at connection;
  if negb (failed ec) then
    log Info (ConnectionEstablished (Connection.get_name c)) ;;
    active ← is_active;
    if active && bool_decide (ConnectionDirection.In = Connection.get_direction c)
    then
      (if decide (Connection.get_type c ≠ ConnectionType.Cdi) then
         async_read connection 0
       else
         async_receive connection) ;;
      streams ← get_connection_streams (Connection.get_name c);
      for_each streams (λ stream,
        s ← stream_at stream;
        outputs ← get_stream_connections (Stream.id s) ConnectionDirection.Out;
        for_each outputs (λ output,
          o ← connection_at output;
          get_connection_buffer (Connection.get_name o) ;;
          on_buffer (Connection.get_name o) PayloadBuffer.clear))
    else
      async_write connection 0
  else
    log Error (ConnectionFailed (Connection.get_name c) ec) ;;
    emit (Handler ec).

End Router.

(** *** Shutdown *)

(** What [shutdown] logs and asks of the executor, in the order of the
    code.  These lines are the result of the action. *)
Inductive ShutdownStep :=
| ShuttingDown
| ConnectionNotClosed (connection_name : string) (ec : error_code)
| ConnectionClosed (connection_name : string)
| IoStop.

Section Shutdown.

(** The error code that the disconnection of a connection reports;
    [Connection::disconnect] itself reports none. *)
Variable disconnect_error : Connection.t → error_code.

(** [connection->disconnect(ec)] on the connection behind a reference. *)
Definition disconnect (connection : nat) : action error_code :=
  c ← connection_at connection;
  modify (λ st, set_connections
                  (<[connection := Connection.disconnect c]> (connections_ st))
                  st) ;;
  mret (disconnect_error c).

(** The loop of [shutdown], lines 276 to 285. *)
Fixpoint disconnect_all (connections : list nat) : action (list ShutdownStep) :=
  match connections with
  | [] => mret []
  | connection :: connections' =>
      c ← connection_at connection;
      ec ← disconnect connection;
      steps ← disconnect_all connections';
      mret ((if failed ec
             then ConnectionNotClosed (Connection.get_name c) ec
             else ConnectionClosed (Connection.get_name c)) :: steps)
  end.

(** [Channel::shutdown] *)
Definition shutdown : action (list ShutdownStep) :=
  st ← get;
  if negb (active_ st) then mret [] else
  modify (set_active false) ;;
  steps ← disconnect_all (seq 0 (length (connections_ st)));
  mret (ShuttingDown :: steps ++ [IoStop]).

End Shutdown.

End Channel.

(** * Auxiliary definitions for the statements

    The effect of [open_connections], connection by connection. *)

Import Channel.

Section Opening.
Variable initiated : Connection.t → ConnectionStatus.t.

(** What the loop body does to one connection, and what it emits for it. *)
Definition opened (c : Connection.t) : Connection.t :=
  if decide (Connection.get_status c = ConnectionStatus.Closed)
  then Connection.set_status (initiated c) c else c.

Definition opening (connection : nat) (c : Connection.t) : list Event :=
  if decide (Connection.get_status c = ConnectionStatus.Closed) then
    [Log Debug (OpeningConnection (Connection.get_name c));
     if decide (Connection.get_mode c = ConnectionMode.Client)
     then AsyncConnect connection else AsyncAccept connection]
  else [].

Fixpoint openings (connection : nat) (cs : list Connection.t) : list Event :=
  match cs with
  | [] => []
  | c :: cs' => opening connection c ++ openings (S connection) cs'
  end.

End Opening.

(** The names of the connections, in the order of [connections_]. *)
Definition names (st : t) : list string :=
  Connection.get_name <$> connections_ st.

(** The latch that [get_connection_buffer] leaves for a buffer found with
    the latch [latched], lines 250 to 263, and the warning it logs. *)
Definition latched_after (buffer : PayloadBuffer.t) (latched : bool) : bool :=
  let latched :=
    if PayloadBuffer.is_full buffer then
      if negb latched then true else latched
    else latched in
  if latched then
    bool_decide (low_water_mark (PayloadBuffer.capacity buffer)
                 < PayloadBuffer.size buffer)%nat
  else latched.

Definition overflow_warning (connection_name : string)
    (buffer : PayloadBuffer.t) (latched : bool) : list Event :=
  if PayloadBuffer.is_full buffer && negb latched then
    [Log Warning (ReceiveBufferFull connection_name
                    (PayloadBuffer.capacity buffer))]
  else [].

(** The warnings of a trace, and its initiated receives. *)
Definition is_warning (e : Event) : bool :=
  match e with Log Warning _ => true | _ => false end.

Definition is_receive (e : Event) : bool :=
  match e with AsyncReceive _ => true | _ => false end.

Definition warnings (events : list Event) : list Event :=
  filter (λ e, is_warning e) events.

Definition receives (events : list Event) : list Event :=
  filter (λ e, is_receive e) events.

(** A channel in which every connection has its buffer and every name of
    the channel map is the name of a connection, as the member functions of
    the configuration leave it. *)
Definition well_formed (st : t) : Prop :=
  (∀ c, c ∈ connections_ st →
        is_Some (connection_buffers_ st !! Connection.get_name c))
  ∧ (∀ n sid, (n, sid) ∈ channel_map_ st → is_Some (find_connection n st)).

(** What the handling of a completion leaves of the channel [st0], apart
    from buffers, counters, statuses and the events that are no receive. *)
Definition steady (st0 st : t) : Prop :=
  receives (trace st) = receives (trace st0)
  ∧ active_ st = active_ st0
  ∧ names st = names st0
  ∧ Connection.get_type <$> connections_ st
    = Connection.get_type <$> connections_ st0
  ∧ length (streams_ st) = length (streams_ st0)
  ∧ dom (connection_buffers_ st) = dom (connection_buffers_ st0)
  ∧ channel_map_ st = channel_map_ st0.

(** The stream objects are the given ones. *)
Definition same_streams (streams : list Stream.t) (st : t) : Prop :=
  streams_ st = streams.

(** A property of the channel that a call keeps, whether it returns or
    fails. *)
Definition invariant {A} (I : t → Prop) (m : action A) : Prop :=
  ∀ st, I st → I (state_of (m st)).

(** The channels that the member functions of the configuration build from
    a new channel.  A call that throws leaves the channel as it was and
    adds nothing. *)
Inductive Configured : t → Prop :=
| Configured_make : Configured make
| Configured_add_input type name host port mode size st i st' :
    Configured st →
    add_input type name host port mode size st = Returns i st' →
    Configured st'
| Configured_add_output type name host port mode size st i st' :
    Configured st →
    add_output type name host port mode size st = Returns i st' →
    Configured st'
| Configured_add_video_stream sid w h b n d st r st' :
    Configured st →
    add_video_stream sid w h b n d st = Returns r st' →
    Configured st'
| Configured_add_audio_stream sid g a b l st r st' :
    Configured st →
    add_audio_stream sid g a b l st = Returns r st' →
    Configured st'
| Configured_add_ancillary_stream sid st r st' :
    Configured st →
    add_ancillary_stream sid st = Returns r st' →
    Configured st'
| Configured_map_stream sid name st st' :
    Configured st →
    map_stream sid name st = Returns () st' →
    Configured st'.

(** The payloads queued for a connection name. *)
Definition queued (st : t) (name : string) : option (list Payload) :=
  (PayloadBuffer.buffer_ ∘ fst) <$> connection_buffers_ st !! name.

(** The names whose buffers the completion of the opening of the input [c]
    clears, lines 73 to 78: the names mapped to a stream that is mapped to
    [c] and which designate a connection of direction Out. *)
Definition cleared_by (st : t) (c : Connection.t) (name : string) : Prop :=
  ∃ sid j o,
    (Connection.get_name c, sid) ∈ channel_map_ st
    ∧ (name, sid) ∈ channel_map_ st
    ∧ find_connection name st = Some (j, o)
    ∧ Connection.get_direction o = ConnectionDirection.Out.

(** What clearing the buffers of the names [cleared] leaves of the channel
    [st0]: these buffers are empty, the others hold what they held, and
    apart from the overflow latches and the lines logged nothing else
    differs. *)
Definition clears (st0 : t) (cleared : list string) (st : t) : Prop :=
  connections_ st = connections_ st0
  ∧ streams_ st = streams_ st0
  ∧ channel_map_ st = channel_map_ st0
  ∧ active_ st = active_ st0
  ∧ receives (trace st) = receives (trace st0)
  ∧ ∀ name,
      queued st name
      = if bool_decide (name ∈ cleared)
        then (λ _, []) <$> queued st0 name
        else queued st0 name.

(** What a call leaves of the channel [st0] when it neither queues nor
    dequeues a payload, counts nothing and configures nothing: only the
    trace, the overflow latches and the statuses of the connections may
    differ. *)
Definition keeps_data (st0 st : t) : Prop :=
  (∀ name, fst <$> connection_buffers_ st !! name
           = fst <$> connection_buffers_ st0 !! name)
  ∧ streams_ st = streams_ st0
  ∧ channel_map_ st = channel_map_ st0
  ∧ active_ st = active_ st0
  ∧ Connection.set_status ConnectionStatus.Closed <$> connections_ st
    = Connection.set_status ConnectionStatus.Closed <$> connections_ st0.

(** The transmissions initiated and the write tasks posted in a trace. *)
Definition is_transmit (e : Event) : bool :=
  match e with AsyncTransmit _ _ _ => true | _ => false end.

Definition is_post (e : Event) : bool :=
  match e with PostAsyncWrite _ _ => true | _ => false end.

Definition transmits (events : list Event) : list Event :=
  filter (λ e, is_transmit e) events.

Definition posts (events : list Event) : list Event :=
  filter (λ e, is_post e) events.

(** The invocations of the channel handler in a trace. *)
Definition is_handler (e : Event) : bool :=
  match e with Handler _ => true | _ => false end.

Definition handled (events : list Event) : list Event :=
  filter (λ e, is_handler e) events.

(** The handler has been invoked in [st] as it had in [st0]. *)
Definition same_handled (st0 st : t) : Prop :=
  handled (trace st) = handled (trace st0).

(** The line that [shutdown] logs for a connection, given the error code
    that its disconnection reports. *)
Definition closing (disconnect_error : Connection.t → error_code)
    (c : Connection.t) : ShutdownStep :=
  if failed (disconnect_error c)
  then ConnectionNotClosed (Connection.get_name c) (disconnect_error c)
  else ConnectionClosed (Connection.get_name c).

(** ** The fan-out of [read_complete] *)

(** [m] successive calls of [enqueue(payload)] on a buffer: the buffer that
    they leave, and how many of them find the buffer full. *)
Fixpoint enqueues (payload : Payload) (m : nat) (b : PayloadBuffer.t)
    : PayloadBuffer.t :=
  match m with
  | O => b
  | S m' => enqueues payload m' (PayloadBuffer.enqueue payload b).2
  end.

Fixpoint drops (payload : Payload) (m : nat) (b : PayloadBuffer.t) : nat :=
  match m with
  | O => O
  | S m' =>
      (if PayloadBuffer.is_full b then 1 else 0)
      + drops payload m' (PayloadBuffer.enqueue payload b).2
  end.

(** The name designates an Open output: the connection found under the name
    has direction Out and status Open. *)
Definition is_open_output (st : t) (name : string) : bool :=
  match find_connection name st with
  | Some (_, c) =>
      bool_decide (Connection.get_direction c = ConnectionDirection.Out
                   ∧ Connection.get_status c = ConnectionStatus.Open)
  | None => false
  end.

(** The names of the entries of the channel map that designate an Open
    output, in the order of the entries and as often as they occur. *)
Definition deliveries_of (st : t) (entries : list (string * Z)) : list string :=
  filter (λ name, is_open_output st name = true) (fst <$> entries).

(** The Open outputs of a stream: one name for each entry that relates the
    stream to a name that designates an Open output. *)
Definition deliveries (st : t) (stream_identifier : Z) : list string :=
  deliveries_of st (right_equal_range stream_identifier st).

(** How often a name occurs among the deliveries. *)
Definition delivered (names : list string) (name : string) : nat :=
  length (filter (λ n, n = name) names).

(** How many of the deliveries of a payload find their buffer full, when
    nothing is taken from the buffers in between: for each name, the drops
    among as many enqueues as the name occurs. *)
Definition dropped (st : t) (payload : Payload) (names : list string) : nat :=
  sum_list_with
    (λ name, match connection_buffers_ st !! name with
             | Some (buffer, _) => drops payload (delivered names name) buffer
             | None => O
             end)
    (remove_dups names).

(** The stream with [n] more payload errors. *)
Definition with_errors (n : Z) (s : Stream.t) : Stream.t :=
  {| Stream.id := Stream.id s;
     Stream.payload_type := Stream.payload_type s;
     Stream.payloads_received := Stream.payloads_received s;
     Stream.payloads_transmitted := Stream.payloads_transmitted s;
     Stream.payload_errors := Stream.payload_errors s + n |}.

(** * Example channels *)

Module Example.

(** A transport that reports [Connecting] while a dial or accept is pending. *)
Definition pending (c : Connection.t) : ConnectionStatus.t :=
  ConnectionStatus.Connecting.

Definition run {A} (m : action A) (st : t) : t := state_of (m st).

(** One TCP input and two TCP outputs, a video stream 100 mapped to all
    three and an audio stream 7 known to the channel and mapped nowhere. *)
Definition configured : t :=
  run (add_input ConnectionType.Tcp "in0" "localhost" 2000
         ConnectionMode.Server 4 ;;
       add_output ConnectionType.Tcp "out0" "localhost" 3000
         ConnectionMode.Client 4 ;;
       add_output ConnectionType.Tcp "out1" "localhost" 3001
         ConnectionMode.Server 10 ;;
       add_video_stream 100 1920 1080 4 60 1 ;;
       add_audio_stream 7 0 48000 3 "en" ;;
       map_stream 100 "in0" ;;
       map_stream 100 "out0" ;;
       map_stream 100 "out1") make.

(** The same channel with every connection in a given status. *)
Definition with_status (status : ConnectionStatus.t) (st : t) : t :=
  set_connections (Connection.set_status status <$> connections_ st) st.

Definition all_open : t := set_active true (with_status ConnectionStatus.Open configured).

(** A CDI input and a TCP output for the video stream 100, both open, on a
    running channel. *)
Definition cdi_open : t :=
  set_active true
    (with_status ConnectionStatus.Open
       (run (add_input ConnectionType.Cdi "cdi0" "localhost" 2000
               ConnectionMode.Server 4 ;;
             add_output ConnectionType.Tcp "out0" "localhost" 3000
               ConnectionMode.Client 4 ;;
             add_video_stream 100 1920 1080 4 60 1 ;;
             map_stream 100 "cdi0" ;;
             map_stream 100 "out0") make)).

(** The example channel running, its input and first output open and its
    second output closed. *)
Definition second_output_closed : t :=
  set_connections
    (<[2%nat := Connection.set_status ConnectionStatus.Closed
                  (Connection.set_streams [0%nat]
                     (Connection.make ConnectionType.Tcp "out1" "localhost"
                        3001 ConnectionMode.Server ConnectionDirection.Out))]>
       (connections_ all_open))
    all_open.

(** The payloads of stream 100, numbered. *)
Definition video (sequence : Z) : Payload :=
  {| stream_identifier := 100; sequence := sequence; get_size := 1024 |}.

(** The first output with one payload queued and handed to the transport. *)
Definition transmitting : t :=
  set_connection_buffers
    (<["out0" := ({| PayloadBuffer.capacity := 4;
                     PayloadBuffer.buffer_ := [video 1] |}, false)]>
       (connection_buffers_ all_open))
    all_open.

(** The second output holding eight payloads of its capacity of ten, with
    the overflow latch set: it was seen full and two payloads have been
    transmitted since. *)
Definition draining : t :=
  set_connection_buffers
    (<["out1" := ({| PayloadBuffer.capacity := 10;
                     PayloadBuffer.buffer_ := video <$> [3; 4; 5; 6; 7; 8; 9; 10] |},
                  true)]> (connection_buffers_ all_open))
    all_open.

End Example.

Module ExampleConnection.

(** Two streams, 100 and 7, both bound to one input connection. *)
Definition heap : list Stream.t :=
  [Stream.make 100 PayloadType.Video; Stream.make 7 PayloadType.Audio].

Definition input : Connection.t :=
  Connection.set_streams [0%nat; 1%nat]
    (Connection.make ConnectionType.Tcp "in0" "localhost" 2000
       ConnectionMode.Server ConnectionDirection.In).

End ExampleConnection.

(** * Reasoning about member functions *)

Section Laws.
Context {A B : Type}.

Lemma bind_run (m : action A) (f : A → action B) st :
  (m ≫= f) st =
  match m st with
  | Returns a st' => f a st'
  | Raises e st' => Raises e st'
  end.
Proof. reflexivity. Qed.

Lemma bind_Returns (m : action A) (f : A → action B) st a st' :
  m st = Returns a st' → (m ≫= f) st = f a st'.
Proof. intros H. unfold mbind, action_bind. by rewrite H. Qed.

Lemma bind_Raises (m : action A) (f : A → action B) st e st' :
  m st = Raises e st' → (m ≫= f) st = Raises e st'.
Proof. intros H. unfold mbind, action_bind. by rewrite H. Qed.

Lemma bind_inv_Returns (m : action A) (f : A → action B) st b st2 :
  (m ≫= f) st = Returns b st2 →
  ∃ a st1, m st = Returns a st1 ∧ f a st1 = Returns b st2.
Proof.
  unfold mbind, action_bind. destruct (m st) as [a st1|e st1]; [eauto|done].
Qed.

Lemma bind_inv_Raises (m : action A) (f : A → action B) st e st2 :
  (m ≫= f) st = Raises e st2 →
  m st = Raises e st2 ∨ ∃ a st1, m st = Returns a st1 ∧ f a st1 = Raises e st2.
Proof.
  unfold mbind, action_bind. destruct (m st) as [a st1|e1 st1]; [eauto|].
  intros [= -> ->]. by left.
Qed.

End Laws.

(** ** Invariants: properties of the channel that a call keeps, whether it
    returns or fails *)

Section Invariants.
Context (I : t → Prop).

Lemma invariant_ret {A} (a : A) : invariant I (mret a).
Proof. by intros st. Qed.

Lemma invariant_raise {A} e : invariant I (raise e : action A).
Proof. by intros st. Qed.

Lemma invariant_get : invariant I get.
Proof. by intros st. Qed.

Lemma invariant_lift {A} (r : result A) : invariant I (lift r).
Proof. destruct r; [apply invariant_ret | apply invariant_raise]. Qed.

Lemma invariant_bind {A B} (m : action A) (f : A → action B) :
  invariant I m → (∀ a, invariant I (f a)) → invariant I (m ≫= f).
Proof.
  intros Hm Hf st Hst. specialize (Hm st Hst). rewrite bind_run.
  destruct (m st) as [a st1|e st1]; simpl in *; [by apply Hf | done].
Qed.

Lemma invariant_for_each {A} (l : list A) (body : A → action unit) :
  (∀ x, invariant I (body x)) → invariant I (for_each l body).
Proof.
  intros Hbody. induction l as [|x l IHl]; simpl.
  - apply invariant_ret.
  - apply invariant_bind; [apply Hbody | intros _; exact IHl].
Qed.

Lemma invariant_modify (f : t → t) :
  (∀ st, I st → I (f st)) → invariant I (modify f).
Proof. intros Hf st. apply Hf. Qed.

Lemma invariant_is_active : invariant I is_active.
Proof. by intros st. Qed.

Lemma invariant_connection_at i : invariant I (connection_at i).
Proof.
  apply invariant_bind; [apply invariant_get|]. intros st.
  destruct (connections_ st !! i); [apply invariant_ret | apply invariant_raise].
Qed.

Lemma invariant_stream_at i : invariant I (stream_at i).
Proof.
  apply invariant_bind; [apply invariant_get|]. intros st.
  destruct (streams_ st !! i); [apply invariant_ret | apply invariant_raise].
Qed.

Lemma invariant_buffer_of name : invariant I (buffer_of name).
Proof.
  apply invariant_bind; [apply invariant_get|]. intros st.
  destruct (connection_buffers_ st !! name) as [[]|];
    [apply invariant_ret | apply invariant_raise].
Qed.

Lemma invariant_get_stream sid : invariant I (Channel.get_stream sid).
Proof.
  apply invariant_bind; [apply invariant_get|]. intros st.
  destruct (find_stream sid st) as [[]|];
    [apply invariant_ret | apply invariant_raise].
Qed.

Lemma invariant_get_stream_connections sid d :
  invariant I (get_stream_connections sid d).
Proof.
  apply invariant_bind; [apply invariant_get|]. intros st. apply invariant_lift.
Qed.

Lemma invariant_get_connection_streams name :
  invariant I (get_connection_streams name).
Proof.
  apply invariant_bind; [apply invariant_get|]. intros st. apply invariant_lift.
Qed.

End Invariants.

Create HintDb invariant discriminated.

#[export] Hint Resolve invariant_ret invariant_raise invariant_get
  invariant_lift invariant_is_active invariant_connection_at
  invariant_stream_at invariant_buffer_of invariant_get_stream
  invariant_get_stream_connections invariant_get_connection_streams
  : invariant.

(** One step of a proof that a call keeps an invariant: through a bind, a
    loop or a case distinction, or by a lemma of the hint database. *)
Ltac invariant_step :=
  match goal with
  | |- invariant _ (_ ≫= _) => apply invariant_bind; [|intros ?]
  | |- invariant _ (for_each _ _) => apply invariant_for_each; intros ?
  | |- invariant _ (if ?b then _ else _) => destruct b
  | |- invariant _ (match ?x with _ => _ end) => destruct x
  | |- invariant _ _ => solve [eauto with invariant]
  end.

(** * [open_connections] *)

Section OpenConnections.
Variable initiated : Connection.t → ConnectionStatus.t.
Local Abbreviation opened := (opened initiated).

Lemma list_insert_middle {X} (l1 l2 : list X) x y :
  <[length l1 := y]> (l1 ++ x :: l2) = l1 ++ y :: l2.
Proof. by rewrite insert_app_r_alt, Nat.sub_diag. Qed.

Lemma open_connection_at st pre c post :
  connections_ st = pre ++ c :: post →
  open_connection initiated (length pre) st =
    Returns () (set_trace (trace st ++ opening (length pre) c)
                  (set_connections (pre ++ opened c :: post) st)).
Proof.
  intros Hcs. unfold open_connection, connection_at, opening, opened.
  unfold mbind, action_bind, get; simpl.
  rewrite Hcs, list_lookup_middle by done. simpl.
  destruct st as [cs ss cm bs ac tr]; simpl in *; subst cs.
  case_decide as Hst; simpl.
  - case_decide as Hmode; unfold async_connect, async_accept, initiate,
      connection_at, log, emit, modify, mbind, action_bind, get; simpl;
      rewrite list_lookup_middle by done; simpl;
      rewrite list_insert_middle; unfold set_trace, set_connections; simpl;
      by rewrite <- (assoc_L (++)).
  - unfold set_trace, set_connections; simpl. by rewrite (right_id_L [] (++)).
Qed.

Lemma open_loop post : ∀ pre st,
  connections_ st = pre ++ post →
  for_each (seq (length pre) (length post)) (open_connection initiated) st =
    Returns () (set_trace (trace st ++ openings (length pre) post)
                  (set_connections (pre ++ (opened <$> post)) st)).
Proof.
  induction post as [|c post IHl]; intros pre st Hcs; simpl.
  - destruct st; unfold set_trace, set_connections; simpl in *.
    by rewrite !(right_id_L [] (++)), Hcs, (right_id_L [] (++)).
  - erewrite bind_Returns by (by apply open_connection_at).
    specialize (IHl (pre ++ [opened c])). rewrite length_app in IHl. simpl in IHl.
    rewrite Nat.add_1_r in IHl. rewrite IHl.
    + destruct st; unfold set_trace, set_connections; simpl.
      by rewrite <- !(assoc_L (++)).
    + simpl. by rewrite <- (assoc_L (++)).
Qed.

Lemma open_connections_spec st :
  open_connections initiated st =
    Returns () (set_trace (trace st ++ openings 0 (connections_ st))
                  (set_connections (opened <$> connections_ st) st)).
Proof.
  exact (open_loop (connections_ st) [] st eq_refl).
Qed.

Lemma openings_connect cs : ∀ k i,
  AsyncConnect i ∈ openings k cs ↔
  ∃ c, (k ≤ i)%nat ∧ cs !! (i - k)%nat = Some c
       ∧ Connection.get_status c = ConnectionStatus.Closed
       ∧ Connection.get_mode c = ConnectionMode.Client.
Proof.
  induction cs as [|c cs IHl]; intros k i; simpl.
  - split; [by intros ?%elem_of_nil | by intros (? & ? & ? & ?)].
  - rewrite elem_of_app, IHl. unfold opening. split.
    + intros [Hin | (c' & Hle & Hc' & ?)].
      * repeat case_decide; set_unfold; destruct_or?; simplify_eq; try done.
        exists c. by rewrite Nat.sub_diag.
      * exists c'. split; [lia|]. split; [|done].
        by replace (i - k)%nat with (S (i - S k)) by lia.
    + intros (c' & Hle & Hc' & Hst & Hmode).
      destruct (decide (i = k)) as [->|Hne].
      * rewrite Nat.sub_diag in Hc'. injection Hc' as ->. left.
        rewrite !decide_True by done. set_unfold; auto.
      * right. exists c'. split; [lia|]. split; [|done].
        by replace (i - k)%nat with (S (i - S k)) in Hc' by lia.
Qed.

Lemma openings_accept cs : ∀ k i,
  AsyncAccept i ∈ openings k cs ↔
  ∃ c, (k ≤ i)%nat ∧ cs !! (i - k)%nat = Some c
       ∧ Connection.get_status c = ConnectionStatus.Closed
       ∧ Connection.get_mode c ≠ ConnectionMode.Client.
Proof.
  induction cs as [|c cs IHl]; intros k i; simpl.
  - split; [by intros ?%elem_of_nil | by intros (? & ? & ? & ?)].
  - rewrite elem_of_app, IHl. unfold opening. split.
    + intros [Hin | (c' & Hle & Hc' & ?)].
      * repeat case_decide; set_unfold; destruct_or?; simplify_eq; try done.
        exists c. by rewrite Nat.sub_diag.
      * exists c'. split; [lia|]. split; [|done].
        by replace (i - k)%nat with (S (i - S k)) by lia.
    + intros (c' & Hle & Hc' & Hst & Hmode).
      destruct (decide (i = k)) as [->|Hne].
      * rewrite Nat.sub_diag in Hc'. injection Hc' as ->. left.
        rewrite decide_True, decide_False by done. set_unfold; auto.
      * right. exists c'. split; [lia|]. split; [|done].
        by replace (i - k)%nat with (S (i - S k)) in Hc' by lia.
Qed.

Lemma openings_none cs : ∀ k,
  (∀ c, c ∈ cs → Connection.get_status c ≠ ConnectionStatus.Closed) →
  openings k cs = [] ∧ opened <$> cs = cs.
Proof.
  induction cs as [|c cs IHl]; intros k Hcs; [done|].
  rewrite fmap_cons. cbn [openings].
  destruct (IHl (S k)) as [-> ->]; [intros; apply Hcs; set_unfold; auto|].
  unfold opening, opened. rewrite !decide_False; [done|..]; apply Hcs; set_unfold; auto.
Qed.

End OpenConnections.

(** * The primitive steps, run *)

Lemma get_stream_connections_run sid d st :
  get_stream_connections sid d st =
  match stream_connections st sid d (right_equal_range sid st) with
  | Ok l => Returns l st
  | Fail e => Raises e st
  end.
Proof.
  unfold get_stream_connections. rewrite (bind_Returns get _ st st st eq_refl).
  by destruct (stream_connections _ _ _ _).
Qed.

Lemma get_connection_streams_run name st :
  get_connection_streams name st =
  match connection_streams st name (left_equal_range name st) with
  | Ok l => Returns l st
  | Fail e => Raises e st
  end.
Proof.
  unfold get_connection_streams. rewrite (bind_Returns get _ st st st eq_refl).
  by destruct (connection_streams _ _ _).
Qed.

Lemma get_stream_run sid st :
  Channel.get_stream sid st =
  match find_stream sid st with
  | Some (r, _) => Returns r st
  | None => Raises (InvalidConfigurationException (UnrecognizedStream sid)) st
  end.
Proof.
  unfold Channel.get_stream. rewrite (bind_Returns get _ st st st eq_refl).
  by destruct (find_stream sid st) as [[]|].
Qed.

Lemma connection_at_run i st :
  connection_at i st =
  match connections_ st !! i with
  | Some c => Returns c st
  | None => Raises Undefined st
  end.
Proof.
  unfold connection_at. rewrite (bind_Returns get _ st st st eq_refl).
  by destruct (connections_ st !! i).
Qed.

Lemma stream_at_run i st :
  stream_at i st =
  match streams_ st !! i with
  | Some s => Returns s st
  | None => Raises Undefined st
  end.
Proof.
  unfold stream_at. rewrite (bind_Returns get _ st st st eq_refl).
  by destruct (streams_ st !! i).
Qed.

Lemma buffer_of_run name st :
  buffer_of name st =
  match connection_buffers_ st !! name with
  | Some (buffer, _) => Returns buffer st
  | None => Raises Undefined st
  end.
Proof.
  unfold buffer_of. rewrite (bind_Returns get _ st st st eq_refl).
  by destruct (connection_buffers_ st !! name) as [[]|].
Qed.

Lemma set_trace_nil st : set_trace (trace st ++ []) st = st.
Proof. destruct st. unfold set_trace. simpl. by rewrite (right_id_L [] (++)). Qed.

Lemma initiate_run initiated i st :
  initiate initiated i st =
  match connections_ st !! i with
  | Some c =>
      Returns () (set_connections
                    (<[i := Connection.set_status (initiated c) c]>
                       (connections_ st)) st)
  | None => Raises Undefined st
  end.
Proof.
  unfold initiate. rewrite bind_run, connection_at_run.
  by destruct (connections_ st !! i).
Qed.

Lemma on_stream_run stream method st :
  on_stream stream method st =
  match streams_ st !! stream with
  | Some s =>
      Returns (method s).1
        (set_streams (<[stream := (method s).2]> (streams_ st)) st)
  | None => Raises Undefined st
  end.
Proof.
  unfold on_stream. rewrite bind_run, stream_at_run.
  by destruct (streams_ st !! stream).
Qed.

Lemma get_connection_buffer_run name st :
  get_connection_buffer name st =
  match connection_buffers_ st !! name with
  | Some (buffer, latched) =>
      Returns ()
        (set_connection_buffers
           (<[name := (buffer, latched_after buffer latched)]>
              (connection_buffers_ st))
           (set_trace (trace st ++ overflow_warning name buffer latched) st))
  | None => Raises AssertionFailed st
  end.
Proof.
  unfold get_connection_buffer. rewrite (bind_Returns get _ st st st eq_refl).
  destruct (connection_buffers_ st !! name) as [[buffer latched]|]; [|done].
  unfold latched_after, overflow_warning.
  destruct (PayloadBuffer.is_full buffer), latched; simpl;
    try rewrite set_trace_nil; done.
Qed.

(** * Invariants of the router

    What an invariant has to admit for a router function to keep it: the
    events the function emits, the latch and buffer updates, the counter
    updates, the status changes of a pending dial or accept. *)

Section RouterInvariants.
Context (I : t → Prop).
Variable initiated : Connection.t → ConnectionStatus.t.
Variable allowed : Event → Prop.

Hypothesis I_emit : ∀ st e,
  allowed e → I st → I (set_trace (trace st ++ [e]) st).
Hypothesis I_latch : ∀ st name buffer latched latched',
  connection_buffers_ st !! name = Some (buffer, latched) → I st →
  I (set_connection_buffers
       (<[name := (buffer, latched')]> (connection_buffers_ st)) st).
Hypothesis I_buffer : ∀ st name method,
  I st →
  I (set_connection_buffers
       (alter (λ entry : PayloadBuffer.t * bool, (method entry.1, entry.2))
          name (connection_buffers_ st)) st).
Hypothesis I_counter : ∀ st stream s s',
  streams_ st !! stream = Some s → Stream.id s' = Stream.id s →
  Stream.payload_type s' = Stream.payload_type s → I st →
  I (set_streams (<[stream := s']> (streams_ st)) st).
Hypothesis I_status : ∀ st connection c status,
  connections_ st !! connection = Some c → I st →
  I (set_connections
       (<[connection := Connection.set_status status c]> (connections_ st)) st).

Hypothesis allowed_Log : ∀ level message, allowed (Log level message).
Hypothesis allowed_AsyncConnect : ∀ i, allowed (AsyncConnect i).
Hypothesis allowed_AsyncAccept : ∀ i, allowed (AsyncAccept i).
Hypothesis allowed_AsyncReceive : ∀ i, allowed (AsyncReceive i).
Hypothesis allowed_AsyncTransmit : ∀ i p s, allowed (AsyncTransmit i p s).
Hypothesis allowed_PostAsyncWrite : ∀ i ec, allowed (PostAsyncWrite i ec).

Lemma invariant_emit e : allowed e → invariant I (emit e).
Proof. intros He. apply invariant_modify. intros st. by apply I_emit. Qed.

Lemma invariant_log level message : invariant I (log level message).
Proof. apply invariant_emit, allowed_Log. Qed.

Lemma invariant_get_connection_buffer name :
  invariant I (get_connection_buffer name).
Proof.
  intros st Hst. rewrite get_connection_buffer_run.
  destruct (connection_buffers_ st !! name) as [[buffer latched]|] eqn:Hname;
    [|done].
  simpl.
  apply (I_latch (set_trace (trace st ++ overflow_warning name buffer latched) st)
           name buffer latched); [done|].
  unfold overflow_warning. destruct (_ && _).
  - by apply I_emit.
  - by rewrite set_trace_nil.
Qed.

Lemma invariant_on_buffer name method : invariant I (on_buffer name method).
Proof. apply invariant_modify. intros st. apply I_buffer. Qed.

Lemma invariant_on_stream stream method :
  (∀ s, Stream.id (method s).2 = Stream.id s
        ∧ Stream.payload_type (method s).2 = Stream.payload_type s) →
  invariant I (on_stream stream method).
Proof.
  intros Hmethod st Hst. rewrite on_stream_run.
  destruct (streams_ st !! stream) as [s|] eqn:Hs; [|done].
  simpl. destruct (Hmethod s). by eapply I_counter.
Qed.

Lemma invariant_received_payload stream : invariant I (received_payload stream).
Proof. by apply invariant_on_stream. Qed.

Lemma invariant_transmitted_payload stream :
  invariant I (transmitted_payload stream).
Proof. by apply invariant_on_stream. Qed.

Lemma invariant_payload_error stream : invariant I (payload_error stream).
Proof. by apply invariant_on_stream. Qed.

Lemma invariant_initiate i : invariant I (initiate initiated i).
Proof.
  intros st Hst. rewrite initiate_run.
  destruct (connections_ st !! i) as [c|] eqn:Hi; [|done].
  simpl. by apply I_status.
Qed.

#[local] Hint Resolve invariant_emit invariant_log
  invariant_get_connection_buffer invariant_on_buffer
  invariant_received_payload invariant_transmitted_payload
  invariant_payload_error invariant_initiate : invariant.

Lemma invariant_open_connection i :
  invariant I (open_connection initiated i).
Proof.
  unfold open_connection, async_connect, async_accept.
  repeat invariant_step.
Qed.

Lemma invariant_open_connections : invariant I (open_connections initiated).
Proof.
  unfold open_connections. invariant_step; [apply invariant_get|].
  invariant_step. apply invariant_open_connection.
Qed.

#[local] Hint Resolve invariant_open_connections : invariant.

Lemma invariant_queue_payload stream payload received output :
  invariant I (queue_payload initiated stream payload received output).
Proof. unfold queue_payload. repeat invariant_step. Qed.

Lemma invariant_async_read connection ec :
  invariant I (async_read initiated connection ec).
Proof. unfold async_read, async_receive. repeat invariant_step. Qed.

Lemma invariant_async_write connection ec :
  invariant I (async_write initiated connection ec).
Proof. unfold async_write, async_transmit. repeat invariant_step. Qed.

#[local] Hint Resolve invariant_queue_payload invariant_async_read
  invariant_async_write : invariant.

Lemma invariant_write_complete connection stream ec :
  invariant I (write_complete initiated connection stream ec).
Proof. unfold write_complete. repeat invariant_step. Qed.

(** [read_complete] keeps an invariant that the resumption of the read loop,
    lines 163 to 166, keeps. *)
Lemma invariant_read_complete_resume connection ec payload :
  invariant I
    (c ← connection_at connection;
     if decide (Connection.get_type c ≠ ConnectionType.Cdi)
     then async_read initiated connection ec else mret ()) →
  invariant I (read_complete initiated connection ec payload).
Proof.
  intros Hresume. unfold read_complete.
  apply invariant_bind; [eauto with invariant|intros stream].
  apply invariant_bind; [eauto with invariant|intros received].
  apply invariant_bind; [repeat invariant_step|intros _].
  apply invariant_bind; [repeat invariant_step|intros _].
  exact Hresume.
Qed.

Lemma invariant_read_complete connection ec payload :
  invariant I (read_complete initiated connection ec payload).
Proof. apply invariant_read_complete_resume. repeat invariant_step. Qed.

End RouterInvariants.

(** * [validate_configuration] *)

Lemma left_equal_range_nil name st :
  left_equal_range name st = [] ↔ ∀ sid, (name, sid) ∉ channel_map_ st.
Proof.
  unfold left_equal_range. split.
  - intros Hnil sid. by eapply filter_nil_not_elem_of.
  - intros Hnone. destruct (filter _ _) as [|[n sid] l] eqn:Hfilter; [done|].
    assert ((n, sid) ∈ filter (λ e : string * Z, e.1 = name) (channel_map_ st))
      as [Hname Hin]%list_elem_of_filter by (rewrite Hfilter; left).
    simpl in Hname. subst n. by destruct (Hnone sid).
Qed.

(** The loop of [validate_configuration] over any part of the connections:
    it stops at the first connection with an empty range. *)
Lemma validate_loop st0 cs st :
  (for_each cs (λ connection,
     match left_equal_range (Connection.get_name connection) st0 with
     | [] => raise (InvalidConfigurationException
                      (NoStreamAssigned (Connection.get_name connection)))
     | _ :: _ => mret ()
     end) st = Returns () st
   ∧ ∀ c, c ∈ cs → ∃ sid, (Connection.get_name c, sid) ∈ channel_map_ st0)
  ∨ ∃ c, c ∈ cs
         ∧ (∀ sid, (Connection.get_name c, sid) ∉ channel_map_ st0)
         ∧ for_each cs (λ connection,
             match left_equal_range (Connection.get_name connection) st0 with
             | [] => raise (InvalidConfigurationException
                              (NoStreamAssigned (Connection.get_name connection)))
             | _ :: _ => mret ()
             end) st
           = Raises (InvalidConfigurationException
                       (NoStreamAssigned (Connection.get_name c))) st.
Proof.
  induction cs as [|c cs IHcs]; simpl.
  - left. split; [done|]. by intros c ?%elem_of_nil.
  - destruct (left_equal_range (Connection.get_name c) st0) as [|[n sid] l]
      eqn:Hrange.
    + right. exists c. split; [by left|]. split; [|done].
      by apply left_equal_range_nil.
    + assert ((n, sid) ∈ left_equal_range (Connection.get_name c) st0)
        as [Hname Hin]%list_elem_of_filter by (rewrite Hrange; left).
      simpl in Hname. subst n.
      destruct IHcs as [[Hrun Hall]|(c' & Hc' & Hnone & Hrun)].
      * left. split; [done|]. intros c' [->|Hc']%elem_of_cons; eauto.
      * right. exists c'. split; [by right|]. done.
Qed.

Lemma validate_configuration_cases st :
  (validate_configuration st = Returns () st
   ∧ ∀ c, c ∈ connections_ st →
          ∃ sid, (Connection.get_name c, sid) ∈ channel_map_ st)
  ∨ ∃ c, c ∈ connections_ st
         ∧ (∀ sid, (Connection.get_name c, sid) ∉ channel_map_ st)
         ∧ validate_configuration st
           = Raises (InvalidConfigurationException
                       (NoStreamAssigned (Connection.get_name c))) st.
Proof. exact (validate_loop st (connections_ st) st). Qed.

(** C6. [validate_configuration] raises [InvalidConfiguration] if and only
    if some connection of the channel has no stream mapped to it in the
    channel map; it returns normally, leaving the channel as it was, if and
    only if every connection has at least one mapped stream. *)
Theorem validate_configuration_iff (st : t) :
  ((∃ why st', validate_configuration st
               = Raises (InvalidConfigurationException why) st')
   ↔ ∃ c, c ∈ connections_ st
          ∧ ∀ sid, (Connection.get_name c, sid) ∉ channel_map_ st)
  ∧ (validate_configuration st = Returns () st
     ↔ ∀ c, c ∈ connections_ st →
            ∃ sid, (Connection.get_name c, sid) ∈ channel_map_ st)
  ∧ (∀ e st', validate_configuration st = Raises e st' →
       st' = st
       ∧ ∃ c, c ∈ connections_ st
              ∧ e = InvalidConfigurationException
                      (NoStreamAssigned (Connection.get_name c)))
  ∧ (∀ st', validate_configuration st = Returns () st' → st' = st).
Proof.
  destruct (validate_configuration_cases st)
    as [[Hrun Hall]|(c & Hc & Hnone & Hrun)]; rewrite Hrun.
  - split; [|split; [|split]].
    + split; [by intros (? & ? & ?)|].
      intros (c & Hc & Hnone). destruct (Hall c Hc) as [sid Hsid].
      by destruct (Hnone sid).
    + done.
    + done.
    + by intros st' [= ->].
  - split; [|split; [|split]].
    + split; [|by eauto]. intros _. eauto.
    + split; [done|]. intros Hall. destruct (Hall c Hc) as [sid Hsid].
      by destruct (Hnone sid).
    + intros e st' [= <- <-]. eauto.
    + done.
Qed.

Lemma validate_configuration_iff_witness :
  validate_configuration Example.configured = Returns () Example.configured.
Proof.
  apply (validate_configuration_iff Example.configured).
  intros c Hc. vm_compute in Hc.
  repeat (apply elem_of_cons in Hc as [->|Hc];
          [exists 100; vm_compute;
           repeat (first [apply list_elem_of_here | apply list_elem_of_further])|]).
  by apply elem_of_nil in Hc.
Defined.

(** * Lookups by name and by identifier *)

Lemma find_connection_Some name st i c :
  find_connection name st = Some (i, c) →
  connections_ st !! i = Some c ∧ Connection.get_name c = name.
Proof. intros (? & ? & _)%list_find_Some. done. Qed.

Lemma find_connection_by_names name st :
  fst <$> find_connection name st = fst <$> list_find (λ n, n = name) (names st).
Proof.
  unfold names, find_connection. rewrite list_find_fmap.
  by destruct (list_find _ _) as [[]|].
Qed.

Lemma find_connection_same_names name st st' i c :
  names st' = names st →
  find_connection name st = Some (i, c) →
  ∃ c', find_connection name st' = Some (i, c').
Proof.
  intros Hnames Hfind.
  pose proof (find_connection_by_names name st') as H'.
  rewrite Hnames, <- find_connection_by_names, Hfind in H'.
  destruct (find_connection name st') as [[j c']|]; [|done].
  simpl in H'. injection H' as ->. eauto.
Qed.

(** ** [get_stream_connections] *)

Lemma stream_connections_Fail st sid d entries e :
  stream_connections st sid d entries = Fail e →
  ∃ name, e = InvalidConfigurationException (MappedToUnknownConnection sid name).
Proof.
  induction entries as [|[n s] entries IHentries]; simpl; [done|].
  destruct (find_connection n st) as [[j c]|]; [|intros [= <-]; eauto].
  destruct (stream_connections st sid d entries); [|intros [= <-]; eauto].
  by case_bool_decide.
Qed.

Lemma stream_connections_Ok st sid d entries l :
  stream_connections st sid d entries = Ok l →
  (∀ n s, (n, s) ∈ entries →
     ∃ j c, find_connection n st = Some (j, c)
            ∧ (ConnectionDirection.Both = d ∨ Connection.get_direction c = d →
               j ∈ l))
  ∧ (∀ j, j ∈ l →
       ∃ n s c, (n, s) ∈ entries ∧ find_connection n st = Some (j, c)
                ∧ (ConnectionDirection.Both = d
                   ∨ Connection.get_direction c = d)).
Proof.
  revert l. induction entries as [|[n s] entries IHentries]; simpl; intros l.
  - intros [= <-]. split; [by intros ?? ?%elem_of_nil | by intros ? ?%elem_of_nil].
  - destruct (find_connection n st) as [[j c]|] eqn:Hfind; [|done].
    destruct (stream_connections st sid d entries) as [rest|]; [|done].
    destruct (IHentries rest eq_refl) as [Hall Honly].
    case_bool_decide as Hd; intros [= <-]; split.
    + intros n' s' [[= -> ->]|Hin]%elem_of_cons.
      * exists j, c. split; [done|]. intros _. by left.
      * destruct (Hall n' s' Hin) as (j' & c' & ? & ?).
        exists j', c'. split; [done|]. intros. right. auto.
    + intros j' [->|Hin]%elem_of_cons.
      * exists n, s, c. split; [by left|]. done.
      * destruct (Honly j' Hin) as (n' & s' & c' & ? & ? & ?).
        exists n', s', c'. split; [by right|]. done.
    + intros n' s' [[= -> ->]|Hin]%elem_of_cons.
      * exists j, c. split; [done|]. intros. done.
      * exact (Hall n' s' Hin).
    + intros j' Hin.
      destruct (Honly j' Hin) as (n' & s' & c' & ? & ? & ?).
      exists n', s', c'. split; [by right|]. done.
Qed.

(** ** [map_stream], case by case *)

Lemma map_stream_rest sid name st i c :
  connections_ st !! i = Some c →
  (stream ← Channel.get_stream sid;
   connection_add_stream i stream ;;
   modify (λ st, set_channel_map (channel_map_ st ++ [(name, sid)]) st)) st =
  match find_stream sid st with
  | None => Raises (InvalidConfigurationException (UnrecognizedStream sid)) st
  | Some (r, _) =>
      match Connection.add_stream (streams_ st) r c with
      | Fail e => Raises e st
      | Ok c' =>
          Returns () (set_channel_map (channel_map_ st ++ [(name, sid)])
                        (set_connections (<[i := c']> (connections_ st)) st))
      end
  end.
Proof.
  intros Hi. unfold Channel.get_stream, connection_add_stream, connection_at.
  unfold mbind, action_bind, get. simpl.
  destruct (find_stream sid st) as [[r s]|]; [|done]. simpl. rewrite Hi. simpl.
  destruct (Connection.add_stream (streams_ st) r c); done.
Qed.

Lemma map_stream_unfold sid name st :
  map_stream sid name st =
  match find_connection name st with
  | None => Raises (InvalidConfigurationException (UnknownConnection name)) st
  | Some (i, c) =>
      match (if decide (Connection.get_direction c = ConnectionDirection.In)
             then stream_connections st sid ConnectionDirection.In
                    (right_equal_range sid st)
             else Ok []) with
      | Fail e => Raises e st
      | Ok (first :: _) =>
          match connections_ st !! first with
          | Some assigned =>
              Raises (InvalidConfigurationException
                        (AlreadyAssigned sid (Connection.get_name assigned) name)) st
          | None => Raises Undefined st
          end
      | Ok [] =>
          match find_stream sid st with
          | None => Raises (InvalidConfigurationException (UnrecognizedStream sid)) st
          | Some (r, _) =>
              match Connection.add_stream (streams_ st) r c with
              | Fail e => Raises e st
              | Ok c' =>
                  Returns () (set_channel_map (channel_map_ st ++ [(name, sid)])
                                (set_connections (<[i := c']> (connections_ st)) st))
              end
          end
      end
  end.
Proof.
  unfold map_stream. rewrite (bind_Returns get _ st st st eq_refl).
  destruct (find_connection name st) as [[i c]|] eqn:Hfind; [|done].
  apply find_connection_Some in Hfind as [Hi _].
  case_decide as Hdir.
  - rewrite bind_run, bind_run, get_stream_connections_run.
    destruct (stream_connections st sid ConnectionDirection.In _)
      as [[|first rest]|e] eqn:Hcs; [by apply map_stream_rest| |done].
    rewrite bind_run, connection_at_run.
    by destruct (connections_ st !! first).
  - rewrite bind_run. by apply map_stream_rest.
Qed.

Lemma add_stream_Ok heap r c c' :
  Connection.add_stream heap r c = Ok c' →
  c' = Connection.set_streams (Connection.streams_ c ++ [r]) c.
Proof.
  unfold Connection.add_stream. destruct (heap !! r) as [s|]; [|done].
  by destruct (Stream.payload_type s); intros [= <-].
Qed.

Lemma add_stream_supported heap r s c :
  heap !! r = Some s → Stream.payload_type s ≠ PayloadType.Other →
  Connection.add_stream heap r c
  = Ok (Connection.set_streams (Connection.streams_ c ++ [r]) c).
Proof.
  intros Hr Htype. unfold Connection.add_stream. rewrite Hr.
  by destruct (Stream.payload_type s).
Qed.

(** A second input for a stream is refused: whatever is already mapped to
    the stream through an input connection makes the check fail. *)
Lemma map_stream_input_taken st sid name i c n j c' :
  find_connection name st = Some (i, c) →
  Connection.get_direction c = ConnectionDirection.In →
  (n, sid) ∈ channel_map_ st →
  find_connection n st = Some (j, c') →
  Connection.get_direction c' = ConnectionDirection.In →
  ∃ why, map_stream sid name st = Raises (InvalidConfigurationException why) st.
Proof.
  intros Hfind Hdir Hin Hn Hdir'. rewrite map_stream_unfold, Hfind.
  rewrite decide_True by done.
  destruct (stream_connections st sid ConnectionDirection.In _)
    as [l|e] eqn:Hcs.
  - apply stream_connections_Ok in Hcs as [Hall Honly].
    destruct (Hall n sid) as (j' & c'' & Hn' & Hj').
    { apply list_elem_of_filter. done. }
    rewrite Hn in Hn'. simplify_eq. specialize (Hj' (or_intror Hdir')).
    destruct l as [|first rest]; [by apply elem_of_nil in Hj'|].
    destruct (Honly first) as (n' & s' & a & _ & [Ha _]%find_connection_Some & _);
      [by left|].
    rewrite Ha. eauto.
  - apply stream_connections_Fail in Hcs as [n' ->]. eauto.
Qed.

Lemma map_stream_Returns st sid name st' :
  map_stream sid name st = Returns () st' →
  ∃ i c r s,
    find_connection name st = Some (i, c)
    ∧ find_stream sid st = Some (r, s)
    ∧ st' = set_channel_map (channel_map_ st ++ [(name, sid)])
              (set_connections
                 (<[i := Connection.set_streams (Connection.streams_ c ++ [r]) c]>
                    (connections_ st)) st).
Proof.
  rewrite map_stream_unfold.
  destruct (find_connection name st) as [[i c]|]; [|done].
  destruct (if decide _ then _ else _) as [[|first rest]|e]; [| |done].
  - destruct (find_stream sid st) as [[r s]|]; [|done].
    destruct (Connection.add_stream _ _ _) as [c'|] eqn:Hadd; [|done].
    apply add_stream_Ok in Hadd as ->. intros [= <-]. by exists i, c, r, s.
  - by destruct (connections_ st !! first).
Qed.

Lemma map_stream_Raises st sid name e st' :
  map_stream sid name st = Raises e st' → st' = st.
Proof.
  rewrite map_stream_unfold.
  destruct (find_connection name st) as [[i c]|]; [|by intros [= _ <-]].
  destruct (if decide _ then _ else _) as [[|first rest]|e'];
    [| |by intros [= _ <-]].
  - destruct (find_stream sid st) as [[r s]|]; [|by intros [= _ <-]].
    by destruct (Connection.add_stream _ _ _); [|intros [= _ <-]].
  - by destruct (connections_ st !! first); intros [= _ <-].
Qed.

Lemma names_insert_same st i c c' :
  connections_ st !! i = Some c →
  Connection.get_name c' = Connection.get_name c →
  Connection.get_name <$> <[i := c']> (connections_ st) = names st.
Proof.
  intros Hi Hname. unfold names. rewrite list_fmap_insert, Hname.
  apply list_insert_id. by rewrite list_lookup_fmap, Hi.
Qed.

(** * Well-formed channels

    The constructor gives a well-formed channel and the member functions of
    the configuration keep it well formed. *)

Lemma well_formed_make : well_formed make.
Proof. split; [by intros c ?%elem_of_nil | by intros n sid ?%elem_of_nil]. Qed.

Lemma find_connection_app_is_Some name v (c : Connection.t) st :
  is_Some (find_connection name st) →
  is_Some (find_connection name (set_connections (connections_ st ++ [c]) v)).
Proof.
  unfold find_connection. simpl. intros [[i x] Hfind].
  exists (i, x). by apply list_find_app_l.
Qed.

Lemma well_formed_add_connection direction type name host port mode size st i st' :
  add_connection direction type name host port mode size st = Returns i st' →
  well_formed st → well_formed st'.
Proof.
  unfold add_connection. rewrite bind_run.
  destruct (Connection.get_connection _ _ _ _ _ _) as [c|] eqn:Hc; [|done].
  simpl. intros [= <- <-] [Hbuffers Hknown].
  assert (Connection.get_name c = name) as Hname.
  { unfold Connection.get_connection in Hc. by destruct type; simplify_eq. }
  split; simpl.
  - intros c' [Hc' | ->%list_elem_of_singleton]%elem_of_app.
    + unfold try_emplace.
      destruct (connection_buffers_ st !! name) eqn:Hn; [by apply Hbuffers|].
      apply lookup_insert_is_Some'. right. by apply Hbuffers.
    + rewrite Hname. unfold try_emplace.
      destruct (connection_buffers_ st !! name) eqn:Hn; [by rewrite Hn|].
      by rewrite lookup_insert_eq.
  - intros n sid Hin.
    apply (find_connection_app_is_Some n _ c st). by eapply Hknown.
Qed.

Lemma well_formed_push_stream stream st i st' :
  push_stream stream st = Returns i st' → well_formed st → well_formed st'.
Proof. by intros [= <- <-]. Qed.

Lemma well_formed_map_stream sid name st st' :
  map_stream sid name st = Returns () st' → well_formed st → well_formed st'.
Proof.
  intros (i & c & r & s & Hfind & _ & ->)%map_stream_Returns [Hbuffers Hknown].
  pose proof (find_connection_Some _ _ _ _ Hfind) as [Hi Hname].
  set (st' := set_channel_map _ _).
  assert (names st' = names st) as Hnames by (by eapply names_insert_same).
  split.
  - intros c' Hc'. simpl in *.
    apply list_elem_of_lookup in Hc' as [j Hj].
    destruct (decide (j = i)) as [->|Hne].
    + rewrite list_lookup_insert_eq in Hj by (by eapply lookup_lt_Some).
      injection Hj as <-. simpl. apply Hbuffers.
      by eapply list_elem_of_lookup_2.
    + rewrite list_lookup_insert_ne in Hj by done. apply Hbuffers.
      by eapply list_elem_of_lookup_2.
  - intros n sid' [Hin | [= -> ->]%list_elem_of_singleton]%elem_of_app.
    + destruct (Hknown n sid' Hin) as [[j c'] Hn].
      destruct (find_connection_same_names n st st' j c' Hnames Hn) as [c'' ->].
      done.
    + destruct (find_connection_same_names name st st' i c Hnames Hfind)
        as [c'' ->].
      done.
Qed.

(** * [map_stream]: atomicity and the single input *)

(** C10. [map_stream] is atomic on error: whenever it raises, the channel
    (its map and every connection's list of bound streams included) is left
    as it was; the pair (connection name, stream identifier) enters the
    channel map only when every check has passed, together with the stream
    entering the connection's list. *)
Theorem map_stream_atomic (st : t) (sid : Z) (name : string) :
  (∀ e st', map_stream sid name st = Raises e st' → st' = st)
  ∧ (∀ st', map_stream sid name st = Returns () st' →
       channel_map_ st' = channel_map_ st ++ [(name, sid)]
       ∧ ∃ i c r s,
           find_connection name st = Some (i, c)
           ∧ find_stream sid st = Some (r, s)
           ∧ Stream.payload_type s ≠ PayloadType.Other
           ∧ connections_ st'
             = <[i := Connection.set_streams (Connection.streams_ c ++ [r]) c]>
                 (connections_ st)).
Proof.
  split.
  - intros e st'. apply map_stream_Raises.
  - intros st' Hrun.
    destruct (map_stream_Returns _ _ _ _ Hrun) as (i & c & r & s & Hc & Hs & ->).
    split; [done|]. exists i, c, r, s. split; [done|]. split; [done|].
    split; [|done]. intros Htype.
    rewrite map_stream_unfold, Hc in Hrun.
    destruct (if decide _ then _ else _) as [[|first rest]|e]; [| |done].
    + rewrite Hs in Hrun. unfold Connection.add_stream in Hrun.
      apply list_find_Some in Hs as (Hr & _). rewrite Hr, Htype in Hrun. done.
    + by destruct (connections_ st !! first).
Qed.

Lemma map_stream_atomic_witness :
  state_of (map_stream 100 "in0" Example.configured) = Example.configured.
Proof.
  apply (proj1 (map_stream_atomic Example.configured 100 "in0")
           (InvalidConfigurationException (AlreadyAssigned 100 "in0" "in0"))).
  vm_compute. reflexivity.
Defined.

(** The four causes named by C10, each on the example channel. *)
Example map_stream_unknown_connection :
  map_stream 100 "nowhere" Example.configured
  = Raises (InvalidConfigurationException (UnknownConnection "nowhere"))
      Example.configured.
Proof. vm_compute. reflexivity. Qed.

Example map_stream_already_assigned :
  map_stream 100 "in0" Example.configured
  = Raises (InvalidConfigurationException (AlreadyAssigned 100 "in0" "in0"))
      Example.configured.
Proof. vm_compute. reflexivity. Qed.

Example map_stream_unknown_stream :
  map_stream 42 "out0" Example.configured
  = Raises (InvalidConfigurationException (UnrecognizedStream 42))
      Example.configured.
Proof. vm_compute. reflexivity. Qed.

Example map_stream_unsupported_payload_type :
  let st := set_streams (streams_ Example.configured
                         ++ [Stream.make 9 PayloadType.Other])
              Example.configured in
  map_stream 9 "out0" st
  = Raises (InvalidConfigurationException UnsupportedPayloadType) st.
Proof. vm_compute. reflexivity. Qed.

(** C1. Once a stream is mapped to an input connection, [map_stream] of
    that stream to a connection of direction In raises
    [InvalidConfiguration] and changes nothing; this holds in particular
    after a [map_stream] of the stream to an input connection has returned.
    Mapping the stream to an output connection is subject to no such limit:
    it succeeds whatever is already mapped to the stream. *)
Theorem map_stream_single_input
    (st : t) (sid : Z) (name : string) (i : nat) (c : Connection.t) :
  find_connection name st = Some (i, c) →
  (Connection.get_direction c = ConnectionDirection.In →
   (∃ n j c', (n, sid) ∈ channel_map_ st
              ∧ find_connection n st = Some (j, c')
              ∧ Connection.get_direction c' = ConnectionDirection.In) →
   ∃ why, map_stream sid name st
          = Raises (InvalidConfigurationException why) st)
  ∧ (Connection.get_direction c = ConnectionDirection.In →
     ∀ st', map_stream sid name st = Returns () st' →
     ∀ name2 i2 c2,
       find_connection name2 st' = Some (i2, c2) →
       Connection.get_direction c2 = ConnectionDirection.In →
       ∃ why, map_stream sid name2 st'
              = Raises (InvalidConfigurationException why) st')
  ∧ (Connection.get_direction c = ConnectionDirection.Out →
     ∀ r s, find_stream sid st = Some (r, s) →
            Stream.payload_type s ≠ PayloadType.Other →
     map_stream sid name st
     = Returns ()
         (set_channel_map (channel_map_ st ++ [(name, sid)])
            (set_connections
               (<[i := Connection.set_streams (Connection.streams_ c ++ [r]) c]>
                  (connections_ st)) st))).
Proof.
  intros Hfind. split; [|split].
  - intros Hdir (n & j & c' & Hin & Hn & Hdir').
    by eapply map_stream_input_taken.
  - intros Hdir st' Hrun name2 i2 c2 Hfind2 Hdir2.
    destruct (map_stream_Returns _ _ _ _ Hrun)
      as (i' & c' & r & s & Hc & Hs & ->).
    rewrite Hfind in Hc. simplify_eq.
    pose proof (find_connection_Some _ _ _ _ Hfind) as [Hi Hname].
    destruct (find_connection_same_names name st
                (set_channel_map (channel_map_ st ++ [(name, sid)])
                   (set_connections
                      (<[i' := Connection.set_streams
                                 (Connection.streams_ c' ++ [r]) c']>
                         (connections_ st)) st)) i' c') as [c'' Hc''];
      [by eapply names_insert_same | done |].
    eapply map_stream_input_taken; [exact Hfind2 | exact Hdir2 | | exact Hc'' |].
    + simpl. apply elem_of_app. right. by left.
    + apply find_connection_Some in Hc'' as [Hc'' _]. simpl in Hc''.
      rewrite list_lookup_insert_eq in Hc'' by (by eapply lookup_lt_Some).
      by simplify_eq.
  - intros Hdir r s Hs Htype. rewrite map_stream_unfold, Hfind.
    rewrite decide_False by (by rewrite Hdir). rewrite Hs.
    apply list_find_Some in Hs as (Hr & _).
    by erewrite add_stream_supported.
Qed.

Lemma map_stream_single_input_witness :
  ∃ why, map_stream 100 "in0" Example.configured
         = Raises (InvalidConfigurationException why) Example.configured.
Proof.
  refine (proj1 (map_stream_single_input Example.configured 100 "in0" 0
                   (Connection.set_streams [0%nat]
                      (Connection.make ConnectionType.Tcp "in0" "localhost" 2000
                         ConnectionMode.Server ConnectionDirection.In)) _) _ _).
  - vm_compute. reflexivity.
  - reflexivity.
  - eexists "in0", 0%nat, _. split; [|split].
    + left.
    + vm_compute. reflexivity.
    + reflexivity.
Defined.

(** * What [open_connections] initiates *)

(** C7. [open_connections] initiates [async_connect] (mode Client) or
    [async_accept] (mode Server) for exactly the connections whose status is
    Closed and for no other; when every connection is Open it initiates
    nothing and leaves the channel as it was. *)
Theorem open_connections_only_closed
    (initiated : Connection.t → ConnectionStatus.t) (st : t) :
  ∃ events st',
    open_connections initiated st = Returns () st'
    ∧ trace st' = trace st ++ events
    ∧ (∀ i, AsyncConnect i ∈ events ↔
         ∃ c, connections_ st !! i = Some c
              ∧ Connection.get_status c = ConnectionStatus.Closed
              ∧ Connection.get_mode c = ConnectionMode.Client)
    ∧ (∀ i, AsyncAccept i ∈ events ↔
         ∃ c, connections_ st !! i = Some c
              ∧ Connection.get_status c = ConnectionStatus.Closed
              ∧ Connection.get_mode c = ConnectionMode.Server)
    ∧ ((∀ c, c ∈ connections_ st →
          Connection.get_status c = ConnectionStatus.Open) →
       events = [] ∧ st' = st).
Proof.
  eexists _, _. split; [apply open_connections_spec|].
  split; [done|]. split; [|split].
  - intros i. rewrite openings_connect, Nat.sub_0_r.
    split; intros (c & H); exists c; intuition lia.
  - intros i. rewrite openings_accept, Nat.sub_0_r.
    split; intros (c & H); exists c; intuition (try lia);
      by destruct (Connection.get_mode c).
  - intros Hopen.
    destruct (openings_none initiated (connections_ st) 0) as [-> ->].
    { intros c Hc. rewrite (Hopen c Hc). done. }
    split; [done|]. destruct st; unfold set_trace, set_connections; simpl.
    by rewrite (right_id_L [] (++)).
Qed.

Lemma open_connections_all_open_witness :
  open_connections Example.pending Example.all_open
  = Returns () Example.all_open.
Proof.
  destruct (open_connections_only_closed Example.pending Example.all_open)
    as (events & st' & Hrun & _ & _ & _ & Hnoop).
  rewrite Hrun. f_equal. apply Hnoop.
  intros c Hc. vm_compute in Hc.
  repeat (apply elem_of_cons in Hc as [->|Hc]; [reflexivity|]).
  by apply elem_of_nil in Hc.
Defined.

(** * [Connection::get_stream] *)

(** C9. On a connection with at least one bound stream,
    [Connection::get_stream] returns a bound stream and never fails: the
    first bound stream whose identifier matches when the identifier is not 0
    and some bound stream matches, and the first bound stream otherwise.  On
    a connection with no bound stream the result is undefined. *)
Theorem connection_get_stream_bound
    (heap : list Stream.t) (c : Connection.t) (stream_identifier : Z) :
  match Connection.streams_ c with
  | [] => Connection.get_stream heap stream_identifier c = Fail Undefined
  | first :: _ =>
      ∃ stream,
        Connection.get_stream heap stream_identifier c = Ok stream
        ∧ stream ∈ Connection.streams_ c
        ∧ ((stream_identifier ≠ 0
            ∧ ∃ r, r ∈ Connection.streams_ c
                   ∧ Connection.has_id heap stream_identifier r) →
           Connection.has_id heap stream_identifier stream
           ∧ ∃ i, Connection.streams_ c !! i = Some stream
                  ∧ ∀ j r, Connection.streams_ c !! j = Some r → (j < i)%nat →
                           ¬ Connection.has_id heap stream_identifier r)
        ∧ ((stream_identifier = 0
            ∨ ∀ r, r ∈ Connection.streams_ c →
                   ¬ Connection.has_id heap stream_identifier r) →
           stream = first)
  end.
Proof.
  unfold Connection.get_stream.
  destruct (Connection.streams_ c) as [|first rest] eqn:Hstreams.
  - by case_decide.
  - case_decide as Hid.
    + destruct (list_find _ _) as [[i stream]|] eqn:Hfind.
      * apply list_find_Some in Hfind as (Hi & Hmatch & Hfirst).
        exists stream. split; [done|].
        split; [by eapply list_elem_of_lookup_2|]. split.
        -- intros _. split; [done|]. by exists i.
        -- intros [->|Hnone]; [done|].
           destruct (Hnone stream); [by eapply list_elem_of_lookup_2 | done].
      * apply list_find_None in Hfind. rewrite Forall_forall in Hfind.
        exists first. split; [done|]. split; [by left|]. split; [|done].
        intros (_ & r & Hr & Hmatch). by destruct (Hfind r).
    + exists first. split; [done|]. split; [by left|]. split; [|done].
      intros [Hne _]. destruct Hid. done.
Qed.

Lemma connection_get_stream_bound_witness :
  ∃ stream,
    Connection.get_stream ExampleConnection.heap 7 ExampleConnection.input
    = Ok stream
    ∧ Connection.has_id ExampleConnection.heap 7 stream.
Proof.
  destruct (connection_get_stream_bound
              ExampleConnection.heap ExampleConnection.input 7)
    as (stream & Hget & _ & Hmatch & _).
  exists stream. split; [exact Hget|].
  apply Hmatch. split; [done|]. exists 1%nat. split; [|reflexivity].
  right. left.
Defined.

(** * Stream registration *)

Lemma push_stream_run stream st :
  push_stream stream st
  = Returns (length (streams_ st)) (set_streams (streams_ st ++ [stream]) st).
Proof. reflexivity. Qed.

(** Whatever is registered, [add_video_stream] registers one more stream
    under the identifier it is given (and so do the other two). *)
Lemma add_video_stream_appends st sid w h b n d :
  add_video_stream sid w h b n d st
  = Returns (length (streams_ st))
      (set_streams (streams_ st ++ [Stream.make sid PayloadType.Video]) st).
Proof. reflexivity. Qed.

(** C8, on the code.  Registering a video stream and then an audio stream
    under the identifier 7 leaves two streams with the identifier 7 in the
    channel: the identifiers are not unique. *)
Theorem add_stream_duplicate_identifier :
  let st := Example.run (add_video_stream 7 1920 1080 4 60 1 ;;
                         add_audio_stream 7 0 48000 3 "en") make in
  Stream.id <$> streams_ st = [7; 7]
  ∧ ¬ NoDup (Stream.id <$> streams_ st).
Proof.
  split; [reflexivity|].
  intros Hnodup. apply NoDup_cons in Hnodup as [Hnotin _].
  apply Hnotin. left.
Qed.

(** * The overflow latch *)

Lemma is_full_size buffer :
  PayloadBuffer.is_full buffer = true →
  PayloadBuffer.size buffer = PayloadBuffer.capacity buffer.
Proof. unfold PayloadBuffer.is_full. by intros ?%bool_decide_eq_true. Qed.

Lemma low_water_mark_le size capacity :
  (size ≤ low_water_mark capacity ↔ 5 * size ≤ 4 * capacity)%nat.
Proof.
  unfold low_water_mark. split; intros H.
  - pose proof (Nat.Div0.mul_div_le (capacity * 4) 5). lia.
  - apply Nat.div_le_lower_bound; lia.
Qed.

Lemma low_water_mark_lt capacity :
  (0 < capacity → low_water_mark capacity < capacity)%nat.
Proof.
  intros Hpos. unfold low_water_mark. apply Nat.Div0.div_lt_upper_bound. lia.
Qed.

(** C3, as the code has it.  [get_connection_buffer] logs exactly one
    warning when it finds the buffer full with the latch clear, and sets the
    latch, which is still set on return when the capacity is not 0; found
    set, the latch is cleared exactly when the observed size is at most 80%
    of the capacity (at most the integer part of 0.8 times the capacity),
    and no warning is logged; found clear on a buffer that is not full, it
    stays clear and no warning is logged. *)
Theorem overflow_latch_hysteresis
    (st : t) (name : string) (buffer : PayloadBuffer.t) (latched : bool) :
  connection_buffers_ st !! name = Some (buffer, latched) →
  ∃ warnings latched',
    get_connection_buffer name st
    = Returns ()
        (set_connection_buffers
           (<[name := (buffer, latched')]> (connection_buffers_ st))
           (set_trace (trace st ++ warnings) st))
    ∧ (PayloadBuffer.is_full buffer = true → latched = false →
       warnings = [Log Warning (ReceiveBufferFull name
                                  (PayloadBuffer.capacity buffer))]
       ∧ ((0 < PayloadBuffer.capacity buffer)%nat → latched' = true))
    ∧ (latched = true →
       warnings = []
       ∧ (latched' = false ↔
          (5 * PayloadBuffer.size buffer
           ≤ 4 * PayloadBuffer.capacity buffer)%nat))
    ∧ (PayloadBuffer.is_full buffer = false → latched = false →
       warnings = [] ∧ latched' = false).
Proof.
  intros Hname. exists (overflow_warning name buffer latched),
    (latched_after buffer latched).
  split; [by rewrite get_connection_buffer_run, Hname|].
  unfold overflow_warning, latched_after. split; [|split].
  - intros Hfull ->. rewrite Hfull. simpl. split; [done|].
    intros Hpos. apply bool_decide_eq_true.
    rewrite (is_full_size _ Hfull). by apply low_water_mark_lt.
  - intros ->. rewrite andb_false_r. split; [done|]. simpl.
    assert ((if PayloadBuffer.is_full buffer then true else true) = true) as ->
      by (by destruct (PayloadBuffer.is_full buffer)).
    rewrite bool_decide_eq_false. pose proof (low_water_mark_le
      (PayloadBuffer.size buffer) (PayloadBuffer.capacity buffer)). lia.
  - by intros -> ->.
Qed.

Lemma overflow_latch_hysteresis_witness :
  ∃ warnings latched',
    get_connection_buffer "out1" Example.draining
    = Returns ()
        (set_connection_buffers
           (<["out1" := ({| PayloadBuffer.capacity := 10;
                            PayloadBuffer.buffer_ :=
                              Example.video <$> [3; 4; 5; 6; 7; 8; 9; 10] |},
                         latched')]>
              (connection_buffers_ Example.draining))
           (set_trace (trace Example.draining ++ warnings) Example.draining))
    ∧ warnings = [] ∧ latched' = false.
Proof.
  destruct (overflow_latch_hysteresis Example.draining "out1"
              {| PayloadBuffer.capacity := 10;
                 PayloadBuffer.buffer_ :=
                   Example.video <$> [3; 4; 5; 6; 7; 8; 9; 10] |} true)
    as (warnings & latched' & Hrun & _ & Hset & _).
  { vm_compute. reflexivity. }
  exists warnings, latched'. split; [exact Hrun|].
  destruct (Hset eq_refl) as [Hwarn Hclear]. split; [exact Hwarn|].
  apply Hclear. simpl. lia.
Defined.

(** C3, as the claim has it, fails: with eight payloads in a buffer of
    capacity ten and the latch set, the level is not below 80% of the
    capacity and yet [get_connection_buffer] clears the latch. *)
Lemma overflow_latch_cleared_at_80_percent :
  let buffer := {| PayloadBuffer.capacity := 10;
                   PayloadBuffer.buffer_ :=
                     Example.video <$> [3; 4; 5; 6; 7; 8; 9; 10] |} in
  connection_buffers_ Example.draining !! "out1" = Some (buffer, true)
  ∧ connection_buffers_
      (state_of (get_connection_buffer "out1" Example.draining)) !! "out1"
    = Some (buffer, false)
  ∧ ¬ (5 * PayloadBuffer.size buffer < 4 * PayloadBuffer.capacity buffer)%nat.
Proof.
  split; [vm_compute; reflexivity|]. split; [vm_compute; reflexivity|].
  simpl. lia.
Qed.

(** * [write_complete] *)

Section SameStreams.
Variable initiated : Connection.t → ConnectionStatus.t.
Variable streams : list Stream.t.

(** Calls that leave every stream object as it is. *)
Local Abbreviation same_streams := (same_streams streams).

Lemma same_streams_get_connection_buffer name :
  invariant same_streams (get_connection_buffer name).
Proof. by apply (invariant_get_connection_buffer _ (λ _, True)). Qed.

Lemma same_streams_on_buffer name method :
  invariant same_streams (on_buffer name method).
Proof. by apply invariant_on_buffer. Qed.

Lemma same_streams_log level message :
  invariant same_streams (log level message).
Proof. by apply (invariant_log _ (λ _, True)). Qed.

Lemma same_streams_open_connections :
  invariant same_streams (open_connections initiated).
Proof. by apply (invariant_open_connections _ _ (λ _, True)). Qed.

Lemma same_streams_async_write connection ec :
  invariant same_streams (async_write initiated connection ec).
Proof. by apply (invariant_async_write _ _ (λ _, True)). Qed.

End SameStreams.

Section WriteComplete.
Variable initiated : Connection.t → ConnectionStatus.t.

(** After the counters, nothing in [write_complete] touches a stream. *)
Lemma write_complete_streams connection stream ec st s :
  streams_ st !! stream = Some s →
  streams_ (state_of (write_complete initiated connection stream ec st))
  = <[stream := if failed ec
                then (Stream.payload_error (Stream.transmitted_payload s).2).2
                else (Stream.transmitted_payload s).2]> (streams_ st).
Proof.
  intros Hs. unfold write_complete, transmitted_payload.
  rewrite bind_run, on_stream_run, Hs.
  assert (∀ st2 c,
    invariant (same_streams (streams_ st2))
      (get_connection_buffer (Connection.get_name c) ;;
       on_buffer (Connection.get_name c) PayloadBuffer.pop_front ;;
       (if negb (failed ec) then
          s0 ← stream_at stream;
          connection_buffer ← buffer_of (Connection.get_name c);
          log Debug (TransmittedPayload (Stream.id s0)
                       (Stream.transmitted_payload s).1
                       (PayloadBuffer.size connection_buffer)
                       (PayloadBuffer.capacity connection_buffer))
        else mret ()) ;;
       async_write initiated connection ec)) as Htail.
  { intros st2 c.
    repeat invariant_step;
      eauto using same_streams_get_connection_buffer, same_streams_on_buffer,
        same_streams_log, same_streams_async_write. }
  rewrite bind_run. destruct (failed ec).
  - unfold payload_error. rewrite bind_run, on_stream_run. simpl.
    rewrite list_lookup_insert_eq by (by eapply lookup_lt_Some). simpl.
    rewrite list_insert_insert_eq.
    set (st2 := set_streams _ _).
    change (<[stream := _]> (streams_ st)) with (streams_ st2).
    apply (invariant_bind (same_streams (streams_ st2)));
      [apply invariant_connection_at | intros c; apply Htail | done].
  - simpl. set (st2 := set_streams _ _).
    change (<[stream := _]> (streams_ st)) with (streams_ st2).
    apply (invariant_bind (same_streams (streams_ st2)));
      [apply invariant_connection_at | intros c; apply Htail | done].
Qed.

End WriteComplete.

(** C2, as the code has it.  [write_complete] increments the transmitted
    counter of the stream on every completion, with or without an error,
    and increments the error counter as well when the completion carries an
    error; the received counter and the other streams are left alone. *)
Theorem write_complete_counters
    (initiated : Connection.t → ConnectionStatus.t) (st : t)
    (connection stream : nat) (ec : error_code) (s : Stream.t) :
  streams_ st !! stream = Some s →
  ∃ s',
    streams_ (state_of (write_complete initiated connection stream ec st))
      !! stream = Some s'
    ∧ Stream.payloads_transmitted s' = Stream.payloads_transmitted s + 1
    ∧ Stream.payload_errors s'
      = Stream.payload_errors s + (if failed ec then 1 else 0)
    ∧ Stream.payloads_received s' = Stream.payloads_received s
    ∧ Stream.id s' = Stream.id s
    ∧ ∀ other, other ≠ stream →
        streams_ (state_of (write_complete initiated connection stream ec st))
          !! other = streams_ st !! other.
Proof.
  intros Hs. rewrite (write_complete_streams _ _ _ _ _ _ Hs).
  eexists. split; [apply list_lookup_insert_eq; by eapply lookup_lt_Some|].
  split; [|split; [|split; [|split]]].
  - by destruct (failed ec).
  - destruct (failed ec); simpl; lia.
  - by destruct (failed ec).
  - by destruct (failed ec).
  - intros other Hother. by apply list_lookup_insert_ne.
Qed.

Lemma write_complete_counters_witness :
  ∃ s',
    streams_ (state_of (write_complete Example.pending 1 0 5
                          Example.transmitting)) !! 0%nat = Some s'
    ∧ Stream.payloads_transmitted s' = 1
    ∧ Stream.payload_errors s' = 1.
Proof.
  destruct (write_complete_counters Example.pending Example.transmitting
              1 0 5 (Stream.make 100 PayloadType.Video))
    as (s' & Hs' & Htransmitted & Herrors & _).
  { reflexivity. }
  exists s'. split; [exact Hs'|]. split; [exact Htransmitted | exact Herrors].
Defined.

(** C2, as the claim has it, fails: on a completion that carries the error
    5 the transmitted counter of the stream goes from 0 to 1, and so does
    the error counter. *)
Lemma write_complete_counts_failed_transmit :
  let st' := state_of (write_complete Example.pending 1 0 5
                         Example.transmitting) in
  failed 5 = true
  ∧ Stream.payloads_transmitted <$> streams_ Example.transmitting !! 0%nat
    = Some 0
  ∧ Stream.payloads_transmitted <$> streams_ st' !! 0%nat = Some 1
  ∧ Stream.payload_errors <$> streams_ st' !! 0%nat = Some 1.
Proof. vm_compute. done. Qed.

(** * [read_complete]: the fan-out to the outputs *)

Lemma stream_connections_set_streams v st sid d entries :
  stream_connections (set_streams v st) sid d entries
  = stream_connections st sid d entries.
Proof.
  induction entries as [|[n s] entries IHentries]; simpl; [done|].
  change (find_connection n (set_streams v st)) with (find_connection n st).
  by rewrite IHentries.
Qed.

Lemma enqueue_capacity payload buffer :
  PayloadBuffer.capacity (PayloadBuffer.enqueue payload buffer).2
  = PayloadBuffer.capacity buffer.
Proof. unfold PayloadBuffer.enqueue. by destruct (PayloadBuffer.is_full buffer). Qed.

Section FanOut.
Variable initiated : Connection.t → ConnectionStatus.t.

Lemma queue_payload_not_open stream payload received output st c :
  connections_ st !! output = Some c →
  Connection.get_status c ≠ ConnectionStatus.Open →
  queue_payload initiated stream payload received output st
  = open_connections initiated st.
Proof.
  intros Ho Hstatus. unfold queue_payload.
  rewrite bind_run, connection_at_run, Ho.
  by rewrite decide_True.
Qed.

Lemma queue_payload_open stream payload received output st c buffer latched s :
  connections_ st !! output = Some c →
  Connection.get_status c = ConnectionStatus.Open →
  connection_buffers_ st !! Connection.get_name c = Some (buffer, latched) →
  streams_ st !! stream = Some s →
  queue_payload initiated stream payload received output st
  = Returns ()
      (set_trace
         (trace st ++ overflow_warning (Connection.get_name c) buffer latched
          ++ [Log Debug
                (ReceivedPayload (stream_identifier payload) received
                   (PayloadBuffer.size (PayloadBuffer.enqueue payload buffer).2)
                   (PayloadBuffer.capacity buffer))])
         (set_connection_buffers
            (<[Connection.get_name c :=
                 ((PayloadBuffer.enqueue payload buffer).2,
                  latched_after buffer latched)]> (connection_buffers_ st))
            (set_streams
               (if PayloadBuffer.is_full buffer
                then <[stream := (Stream.payload_error s).2]> (streams_ st)
                else streams_ st) st))).
Proof.
  intros Ho Hstatus Hbuffer Hs. unfold queue_payload.
  rewrite bind_run, connection_at_run, Ho.
  rewrite decide_False by (by rewrite Hstatus; intros []).
  rewrite bind_run, get_connection_buffer_run, Hbuffer.
  rewrite bind_run, buffer_of_run. simpl. rewrite lookup_insert_eq.
  assert (∀ st1,
    connection_buffers_ st1
    = <[Connection.get_name c := (buffer, latched_after buffer latched)]>
        (connection_buffers_ st) →
    (on_buffer (Connection.get_name c)
       (λ b, (PayloadBuffer.enqueue payload b).2) ;;
     connection_buffer ← buffer_of (Connection.get_name c);
     log Debug (ReceivedPayload (stream_identifier payload) received
                  (PayloadBuffer.size connection_buffer)
                  (PayloadBuffer.capacity connection_buffer))) st1
    = Returns ()
        (set_trace
           (trace st1
            ++ [Log Debug
                  (ReceivedPayload (stream_identifier payload) received
                     (PayloadBuffer.size (PayloadBuffer.enqueue payload buffer).2)
                     (PayloadBuffer.capacity buffer))])
           (set_connection_buffers
              (<[Connection.get_name c :=
                   ((PayloadBuffer.enqueue payload buffer).2,
                    latched_after buffer latched)]> (connection_buffers_ st))
              st1))) as Htail.
  { intros st1 Hst1. rewrite bind_run. unfold on_buffer, modify.
    rewrite bind_run, buffer_of_run. simpl.
    rewrite Hst1, alter_insert_eq, lookup_insert_eq. simpl.
    by rewrite enqueue_capacity. }
  rewrite bind_run. destruct (PayloadBuffer.is_full buffer).
  - unfold payload_error. rewrite bind_run, on_stream_run. simpl. rewrite Hs.
    simpl. rewrite Htail by done. simpl.
    destruct st. unfold set_trace, set_connection_buffers, set_streams. simpl.
    by rewrite (assoc_L (++)).
  - simpl. rewrite Htail by done. simpl.
    destruct st. unfold set_trace, set_connection_buffers, set_streams. simpl.
    by rewrite (assoc_L (++)).
Qed.

(** A completion without error: the received counter, then the loop over
    the outputs of the stream, then the resumption of the read loop. *)
Lemma read_complete_no_error connection payload st stream s outs :
  find_stream (stream_identifier payload) st = Some (stream, s) →
  stream_connections st (stream_identifier payload) ConnectionDirection.Out
    (right_equal_range (stream_identifier payload) st) = Ok outs →
  read_complete initiated connection 0 payload st
  = (for_each outs
       (queue_payload initiated stream payload (Stream.payloads_received s + 1)) ;;
     c ← connection_at connection;
     if decide (Connection.get_type c ≠ ConnectionType.Cdi)
     then async_read initiated connection 0 else mret ())
      (set_streams (<[stream := (Stream.received_payload s).2]> (streams_ st)) st).
Proof.
  intros Hfind Houts. unfold read_complete.
  rewrite bind_run, get_stream_run, Hfind.
  apply list_find_Some in Hfind as (Hs & _).
  unfold received_payload. rewrite bind_run, on_stream_run, Hs.
  change (failed 0) with false. cbn [negb].
  rewrite bind_run. cbn [mret action_ret].
  rewrite bind_run, (bind_run (get_stream_connections _ _)).
  rewrite get_stream_connections_run.
  change (right_equal_range (stream_identifier payload) (set_streams _ st))
    with (right_equal_range (stream_identifier payload) st).
  rewrite stream_connections_set_streams, Houts.
  by rewrite <- bind_run.
Qed.

End FanOut.

(** The second scenario of the specification: eight payloads of stream 100
    arrive while nothing is transmitted.  The output of capacity 4 keeps the
    first four, the stream counts four errors, and one warning is logged. *)
Example eight_payloads_into_four_slots :
  let st := Example.run
              (for_each (Example.video <$> [1; 2; 3; 4; 5; 6; 7; 8])
                 (read_complete Example.pending 0 0))
              Example.all_open in
  fst <$> connection_buffers_ st !! "out0"
  = Some {| PayloadBuffer.capacity := 4;
            PayloadBuffer.buffer_ := Example.video <$> [1; 2; 3; 4] |}
  ∧ Stream.payload_errors <$> streams_ st !! 0%nat = Some 4
  ∧ Stream.payloads_received <$> streams_ st !! 0%nat = Some 8
  ∧ warnings (trace st)
    = [Log Warning (ReceiveBufferFull "out0" 4)].
Proof. vm_compute. done. Qed.

(** A payload arriving while the second output is closed: the first output
    receives it, the second does not and is reopened instead. *)
Example payload_skips_closed_output :
  let st := Example.run (read_complete Example.pending 0 0 (Example.video 1))
              Example.second_output_closed in
  (PayloadBuffer.buffer_ ∘ fst) <$> connection_buffers_ st !! "out0"
  = Some [Example.video 1]
  ∧ (PayloadBuffer.buffer_ ∘ fst) <$> connection_buffers_ st !! "out1" = Some []
  ∧ trace st = [Log Debug (ReceivedPayload 100 1 1 4);
                Log Debug (OpeningConnection "out1"); AsyncAccept 2;
                AsyncReceive 0].
Proof. vm_compute. done. Qed.

(** * Receives: who arms them *)

Lemma receives_app l1 l2 : receives (l1 ++ l2) = receives l1 ++ receives l2.
Proof. apply filter_app. Qed.

Lemma receives_quiet l e :
  is_receive e = false → receives (l ++ [e]) = receives l.
Proof.
  intros He. rewrite receives_app. unfold receives at 2.
  rewrite filter_cons_False by (simpl; rewrite He; intros []).
  rewrite filter_nil. apply (right_id_L [] (++)).
Qed.

Section Steady.
Variable st0 : t.

Lemma steady_refl : steady st0 st0.
Proof. by repeat split. Qed.

Lemma steady_emit st e :
  is_receive e = false → steady st0 st →
  steady st0 (set_trace (trace st ++ [e]) st).
Proof.
  intros He (Hrec & ? & ? & ? & ? & ? & ?). repeat split; try done.
  simpl. by rewrite receives_quiet.
Qed.

Lemma steady_latch st name buffer latched latched' :
  connection_buffers_ st !! name = Some (buffer, latched) → steady st0 st →
  steady st0 (set_connection_buffers
                (<[name := (buffer, latched')]> (connection_buffers_ st)) st).
Proof.
  intros Hname (? & ? & ? & ? & ? & Hdom & ?). repeat split; try done.
  simpl. by rewrite dom_insert_lookup_L.
Qed.

Lemma steady_buffer st name method :
  steady st0 st →
  steady st0 (set_connection_buffers
                (alter (λ entry : PayloadBuffer.t * bool,
                          (method entry.1, entry.2))
                   name (connection_buffers_ st)) st).
Proof.
  intros (? & ? & ? & ? & ? & Hdom & ?). repeat split; try done.
  simpl. by rewrite dom_alter_L.
Qed.

Lemma steady_counter st stream (s s' : Stream.t) :
  streams_ st !! stream = Some s → Stream.id s' = Stream.id s →
  Stream.payload_type s' = Stream.payload_type s → steady st0 st →
  steady st0 (set_streams (<[stream := s']> (streams_ st)) st).
Proof.
  intros _ _ _ (? & ? & ? & ? & Hlen & ? & ?). repeat split; try done.
  simpl. by rewrite length_insert.
Qed.

Lemma steady_status st connection c status :
  connections_ st !! connection = Some c → steady st0 st →
  steady st0 (set_connections
                (<[connection := Connection.set_status status c]>
                   (connections_ st)) st).
Proof.
  intros Hc (? & ? & Hnames & Htypes & ? & ? & ?). repeat split; try done.
  - rewrite <- Hnames. unfold names at 1. simpl. by eapply names_insert_same.
  - rewrite <- Htypes. simpl. rewrite list_fmap_insert. simpl.
    apply list_insert_id. by rewrite list_lookup_fmap, Hc.
Qed.

End Steady.

Section SteadyRouter.
Variable initiated : Connection.t → ConnectionStatus.t.
Variable st0 : t.

Lemma steady_open_connections :
  invariant (steady st0) (open_connections initiated).
Proof.
  apply (invariant_open_connections _ _ (λ e, is_receive e = false));
    eauto using steady_emit, steady_status.
Qed.

Lemma steady_queue_payload stream payload received output :
  invariant (steady st0) (queue_payload initiated stream payload received output).
Proof.
  apply (invariant_queue_payload _ _ (λ e, is_receive e = false));
    eauto using steady_emit, steady_latch, steady_buffer, steady_counter,
      steady_status.
Qed.

Lemma steady_get_connection_buffer name :
  invariant (steady st0) (get_connection_buffer name).
Proof.
  apply (invariant_get_connection_buffer _ (λ e, is_receive e = false));
    eauto using steady_emit, steady_latch.
Qed.

Lemma steady_on_buffer name method :
  invariant (steady st0) (on_buffer name method).
Proof. apply invariant_on_buffer. eauto using steady_buffer. Qed.

(** On a CDI connection the resumption of the read loop does nothing. *)
Lemma steady_resume_cdi connection ec c :
  connections_ st0 !! connection = Some c →
  Connection.get_type c = ConnectionType.Cdi →
  invariant (steady st0)
    (c ← connection_at connection;
     if decide (Connection.get_type c ≠ ConnectionType.Cdi)
     then async_read initiated connection ec else mret ()).
Proof.
  intros Hc Htype st Hst. rewrite bind_run, connection_at_run.
  destruct (connections_ st !! connection) as [c'|] eqn:Hc'; [|exact Hst].
  assert (Connection.get_type c' = ConnectionType.Cdi) as Htype'.
  { destruct Hst as (_ & _ & _ & Htypes & _).
    apply (f_equal (λ l, l !! connection)) in Htypes.
    rewrite !list_lookup_fmap, Hc, Hc' in Htypes. simpl in Htypes.
    congruence. }
  rewrite decide_False by (intros Hne; by destruct Hne).
  exact Hst.
Qed.

Lemma steady_read_complete_cdi connection ec payload c :
  connections_ st0 !! connection = Some c →
  Connection.get_type c = ConnectionType.Cdi →
  invariant (steady st0) (read_complete initiated connection ec payload).
Proof.
  intros Hc Htype.
  apply (invariant_read_complete_resume _ _ (λ e, is_receive e = false));
    eauto using steady_emit, steady_latch, steady_buffer, steady_counter,
      steady_status, steady_resume_cdi.
Qed.

End SteadyRouter.

(** * A completion on a well-formed channel returns *)

Lemma stream_connections_total st sid d entries :
  (∀ n s, (n, s) ∈ entries → is_Some (find_connection n st)) →
  ∃ l, stream_connections st sid d entries = Ok l.
Proof.
  induction entries as [|[n s] entries IHentries]; intros Hknown; simpl;
    [by eauto|].
  destruct (Hknown n s) as [[j c] ->]; [by left|].
  destruct IHentries as [rest ->]; [intros; apply (Hknown n0 s0); by right|].
  case_bool_decide; eauto.
Qed.

Lemma stream_connections_valid st sid d entries l o :
  stream_connections st sid d entries = Ok l → o ∈ l →
  is_Some (connections_ st !! o).
Proof.
  intros [_ Honly]%stream_connections_Ok Ho.
  destruct (Honly o Ho) as (n & s & c & _ & [Hc _]%find_connection_Some & _).
  by exists c.
Qed.

Section Returns.
Variable initiated : Connection.t → ConnectionStatus.t.
Variable st0 : t.
Hypothesis st0_well_formed : well_formed st0.

Lemma steady_connection st output :
  steady st0 st → is_Some (connections_ st0 !! output) →
  ∃ c buffer latched,
    connections_ st !! output = Some c
    ∧ connection_buffers_ st !! Connection.get_name c = Some (buffer, latched).
Proof.
  intros (_ & _ & Hnames & _ & _ & Hdom & _) [c0 Hc0].
  apply (f_equal (λ l, l !! output)) in Hnames. unfold names in Hnames.
  rewrite !list_lookup_fmap, Hc0 in Hnames.
  destruct (connections_ st !! output) as [c|] eqn:Hc; [|done].
  simpl in Hnames. injection Hnames as Hname.
  destruct st0_well_formed as [Hbuffers _].
  assert (Connection.get_name c ∈ dom (connection_buffers_ st)) as Hin.
  { rewrite Hdom, Hname. apply elem_of_dom, Hbuffers.
    by eapply list_elem_of_lookup_2. }
  apply elem_of_dom in Hin as [[buffer latched] Hbuffer].
  by exists c, buffer, latched.
Qed.

Lemma queue_payload_returns st stream payload received output :
  steady st0 st →
  is_Some (connections_ st0 !! output) →
  is_Some (streams_ st0 !! stream) →
  ∃ st', queue_payload initiated stream payload received output st
         = Returns () st'.
Proof.
  intros Hst Houtput Hstream.
  destruct (steady_connection st output Hst Houtput)
    as (c & buffer & latched & Hc & Hbuffer).
  assert (is_Some (streams_ st !! stream)) as [s Hs].
  { destruct Hst as (_ & _ & _ & _ & Hlen & _).
    apply lookup_lt_is_Some. rewrite Hlen. by apply lookup_lt_is_Some. }
  destruct (decide (Connection.get_status c = ConnectionStatus.Open))
    as [Hopen|Hnot].
  - eexists. by eapply queue_payload_open.
  - erewrite queue_payload_not_open by done.
    rewrite open_connections_spec. eauto.
Qed.

Lemma fan_out_returns stream payload received outs : ∀ st,
  steady st0 st →
  (∀ o, o ∈ outs → is_Some (connections_ st0 !! o)) →
  is_Some (streams_ st0 !! stream) →
  ∃ st', for_each outs (queue_payload initiated stream payload received) st
         = Returns () st'
         ∧ steady st0 st'.
Proof.
  induction outs as [|o outs IHouts]; intros st Hst Houts Hstream; simpl.
  - by exists st.
  - destruct (queue_payload_returns st stream payload received o)
      as [st1 Hrun]; [done | apply Houts; by left | done |].
    pose proof (steady_queue_payload initiated st0 stream payload received o
                  st Hst) as Hst1.
    rewrite Hrun in Hst1. simpl in Hst1.
    rewrite bind_run, Hrun.
    apply IHouts; [done | intros; apply Houts; by right | done].
Qed.

End Returns.

Section ReadLoop.
Variable initiated : Connection.t → ConnectionStatus.t.

(** A completion with an error: the two counters, then the resumption of
    the read loop. *)
Lemma read_complete_error connection ec payload st stream s :
  failed ec = true →
  find_stream (stream_identifier payload) st = Some (stream, s) →
  read_complete initiated connection ec payload st
  = (c ← connection_at connection;
     if decide (Connection.get_type c ≠ ConnectionType.Cdi)
     then async_read initiated connection ec else mret ())
      (set_streams
         (<[stream := (Stream.payload_error (Stream.received_payload s).2).2]>
            (streams_ st)) st).
Proof.
  intros Hec Hfind. unfold read_complete.
  rewrite bind_run, get_stream_run, Hfind.
  apply list_find_Some in Hfind as (Hs & _).
  unfold received_payload, payload_error.
  rewrite bind_run, on_stream_run, Hs. rewrite Hec. cbn [negb].
  rewrite bind_run, bind_run, on_stream_run. simpl.
  rewrite list_lookup_insert_eq by (by eapply lookup_lt_Some). simpl.
  by rewrite list_insert_insert_eq.
Qed.

Lemma async_read_receives connection ec st c :
  active_ st = true →
  connections_ st !! connection = Some c →
  ec = 0 ∨ Connection.get_status c = ConnectionStatus.Open →
  ∃ st', async_read initiated connection ec st = Returns () st'
         ∧ receives (trace st') = receives (trace st) ++ [AsyncReceive connection].
Proof.
  intros Hactive Hc Hrearm. unfold async_read.
  rewrite bind_run. unfold is_active at 1. rewrite bind_run. simpl.
  rewrite Hactive. simpl. rewrite bind_run, connection_at_run, Hc.
  assert (failed ec && bool_decide (Connection.get_status c ≠ ConnectionStatus.Open)
          = false) as ->.
  { destruct Hrearm as [-> | ->]; [done|].
    rewrite bool_decide_eq_false_2 by (by intros []). apply andb_false_r. }
  destruct (failed ec); simpl.
  - eexists. split; [reflexivity|]. simpl.
    by rewrite receives_app, receives_quiet.
  - eexists. split; [reflexivity|]. simpl. by rewrite receives_app.
Qed.

(** On a connection that is not CDI, [read_complete] ends in [async_read]
    on a channel that the completion left steady. *)
Lemma read_complete_resumes connection ec payload st c stream s :
  well_formed st →
  connections_ st !! connection = Some c →
  Connection.get_type c ≠ ConnectionType.Cdi →
  find_stream (stream_identifier payload) st = Some (stream, s) →
  ∃ st1 c1,
    read_complete initiated connection ec payload st
    = async_read initiated connection ec st1
    ∧ steady st st1
    ∧ connections_ st1 !! connection = Some c1
    ∧ (failed ec = true → c1 = c).
Proof.
  intros Hwf Hc Htype Hfind.
  pose proof Hfind as (Hs & _)%list_find_Some.
  assert (∀ st1, steady st st1 →
    ∃ c1, connections_ st1 !! connection = Some c1
          ∧ (c ← connection_at connection;
             if decide (Connection.get_type c ≠ ConnectionType.Cdi)
             then async_read initiated connection ec else mret ()) st1
            = async_read initiated connection ec st1) as Hresume.
  { intros st1 Hst1.
    destruct (steady_connection st Hwf st1 connection Hst1)
      as (c1 & _ & _ & Hc1 & _); [by eauto|].
    exists c1. split; [done|]. rewrite bind_run, connection_at_run, Hc1.
    destruct Hst1 as (_ & _ & _ & Htypes & _).
    apply (f_equal (λ l, l !! connection)) in Htypes.
    rewrite !list_lookup_fmap, Hc, Hc1 in Htypes. simpl in Htypes.
    injection Htypes as Htype1. by rewrite decide_True by (by rewrite Htype1). }
  destruct (failed ec) eqn:Hec.
  - rewrite (read_complete_error _ _ _ _ _ _ Hec Hfind).
    set (st1 := set_streams _ st).
    assert (steady st st1) as Hst1
      by (by eapply steady_counter; [done..|apply steady_refl]).
    destruct (Hresume st1 Hst1) as (c1 & Hc1 & ->).
    exists st1, c1. split; [done|]. split; [done|]. split; [done|].
    intros _. simpl in Hc1. congruence.
  - assert (ec = 0) as -> by (unfold failed in Hec; lia).
    destruct Hwf as [Hbuffers Hknown].
    destruct (stream_connections_total st (stream_identifier payload)
                ConnectionDirection.Out
                (right_equal_range (stream_identifier payload) st))
      as [outs Houts].
    { intros n sid [_ Hin]%list_elem_of_filter. by eapply Hknown. }
    rewrite (read_complete_no_error _ _ _ _ _ _ _ Hfind Houts).
    set (st1 := set_streams _ st).
    assert (steady st st1) as Hst1
      by (by eapply steady_counter; [done..|apply steady_refl]).
    destruct (fan_out_returns initiated st (conj Hbuffers Hknown) stream
                payload (Stream.payloads_received s + 1) outs st1)
      as (st2 & Hloop & Hst2); [done| |by eauto|].
    { intros o Ho. by eapply stream_connections_valid. }
    rewrite bind_run, Hloop.
    destruct (Hresume st2 Hst2) as (c1 & Hc1 & ->).
    exists st2, c1. split; [done|]. split; [done|]. split; [done|].
    by intros.
Qed.

End ReadLoop.

Section Arming.
Variable initiated : Connection.t → ConnectionStatus.t.

(** Once a CDI input is open, its receive is armed, once. *)
Lemma connection_handler_cdi connection st c :
  connections_ st !! connection = Some c →
  Connection.get_type c = ConnectionType.Cdi →
  Connection.get_direction c = ConnectionDirection.In →
  active_ st = true →
  receives (trace (state_of (connection_handler initiated connection 0 st)))
  = receives (trace st) ++ [AsyncReceive connection].
Proof.
  intros Hc Htype Hdir Hactive. unfold connection_handler.
  rewrite bind_run, connection_at_run, Hc.
  change (failed 0) with false. cbn [negb].
  rewrite bind_run. unfold log at 1, emit at 1, modify at 1.
  rewrite bind_run. unfold is_active at 1. rewrite bind_run. simpl.
  rewrite Hactive, Hdir. simpl.
  rewrite decide_False by (rewrite Htype; by intros []).
  rewrite bind_run. unfold async_receive at 1, emit at 1, modify at 1.
  set (st2 := set_trace _ (set_trace _ st)).
  assert (invariant (steady st2)
    (streams ← get_connection_streams (Connection.get_name c);
     for_each streams (λ stream,
       s ← stream_at stream;
       outputs ← get_stream_connections (Stream.id s) ConnectionDirection.Out;
       for_each outputs (λ output,
         o ← connection_at output;
         get_connection_buffer (Connection.get_name o) ;;
         on_buffer (Connection.get_name o) PayloadBuffer.clear)))) as Hrest.
  { repeat invariant_step;
      eauto using steady_get_connection_buffer, steady_on_buffer. }
  destruct (Hrest st2 (steady_refl st2)) as [-> _].
  unfold st2. simpl. rewrite receives_app, receives_quiet by done. done.
Qed.

End Arming.

Lemma steady_write_complete initiated st0 connection stream ec :
  invariant (steady st0) (write_complete initiated connection stream ec).
Proof.
  apply (invariant_write_complete _ _ (λ e, is_receive e = false));
    eauto using steady_emit, steady_latch, steady_buffer, steady_counter,
      steady_status.
Qed.

Lemma well_formed_all_open : well_formed Example.all_open.
Proof.
  split.
  - intros c Hc. vm_compute in Hc.
    repeat (apply elem_of_cons in Hc as [->|Hc]; [vm_compute; eauto|]).
    by apply elem_of_nil in Hc.
  - intros n sid Hin. vm_compute in Hin.
    repeat (apply elem_of_cons in Hin as [[= -> ->]|Hin]; [vm_compute; eauto|]).
    by apply elem_of_nil in Hin.
Qed.

(** C5, as the code has it.  For a CDI input connection, the completion of
    its opening arms [async_receive] exactly once, and [read_complete]
    initiates no receive at all, whatever the completion; neither does
    [write_complete] nor [open_connections].  For a connection that is not
    CDI, [read_complete] on a well-formed channel, for a payload of a
    registered stream, ends by calling [async_read], having initiated no
    receive before; on a running channel that call initiates the next
    receive when the completion carries no error or the connection is still
    Open.  For a payload of a stream that is not registered, [read_complete]
    throws with the channel as it was: [async_read] is not called. *)
Theorem cdi_receive_armed_once
    (initiated : Connection.t → ConnectionStatus.t) (st : t)
    (connection : nat) (c : Connection.t) :
  connections_ st !! connection = Some c →
  (Connection.get_type c = ConnectionType.Cdi →
   (Connection.get_direction c = ConnectionDirection.In →
    active_ st = true →
    receives (trace (state_of (connection_handler initiated connection 0 st)))
    = receives (trace st) ++ [AsyncReceive connection])
   ∧ (∀ ec payload,
        receives (trace (state_of
                           (read_complete initiated connection ec payload st)))
        = receives (trace st))
   ∧ (∀ output stream ec,
        receives (trace (state_of
                           (write_complete initiated output stream ec st)))
        = receives (trace st))
   ∧ receives (trace (state_of (open_connections initiated st)))
     = receives (trace st))
  ∧ (Connection.get_type c ≠ ConnectionType.Cdi →
     well_formed st →
     ∀ ec payload stream s,
       find_stream (stream_identifier payload) st = Some (stream, s) →
       ∃ st1,
         read_complete initiated connection ec payload st
         = async_read initiated connection ec st1
         ∧ receives (trace st1) = receives (trace st)
         ∧ active_ st1 = active_ st
         ∧ (active_ st = true →
            ec = 0 ∨ Connection.get_status c = ConnectionStatus.Open →
            ∃ st2,
              read_complete initiated connection ec payload st = Returns () st2
              ∧ receives (trace st2)
                = receives (trace st) ++ [AsyncReceive connection]))
  ∧ (∀ ec payload,
       find_stream (stream_identifier payload) st = None →
       read_complete initiated connection ec payload st
       = Raises (InvalidConfigurationException
                   (UnrecognizedStream (stream_identifier payload))) st).
Proof.
  intros Hc. split; [|split].
  - intros Htype. split; [by apply connection_handler_cdi|].
    split; [|split].
    + intros ec payload.
      by destruct (steady_read_complete_cdi initiated st connection ec payload
                     c Hc Htype st (steady_refl st)) as [-> _].
    + intros output stream ec.
      by destruct (steady_write_complete initiated st output stream ec st
                     (steady_refl st)) as [-> _].
    + by destruct (steady_open_connections initiated st st (steady_refl st))
        as [-> _].
  - intros Htype Hwf ec payload stream s Hfind.
    destruct (read_complete_resumes initiated connection ec payload st c
                stream s Hwf Hc Htype Hfind)
      as (st1 & c1 & Hrun & Hst1 & Hc1 & Hsame).
    exists st1. split; [done|].
    pose proof Hst1 as (Hreceives & Hactive & _).
    split; [done|]. split; [done|].
    intros Hrunning Hrearm.
    destruct (async_read_receives initiated connection ec st1 c1)
      as (st2 & Hread & Hst2); [congruence | done | |].
    { destruct Hrearm as [-> | Hopen]; [by left|].
      destruct (failed ec) eqn:Hec.
      - right. by rewrite Hsame.
      - left. unfold failed in Hec. lia. }
    exists st2. split; [congruence|]. by rewrite Hst2, Hreceives.
  - intros ec payload Hfind. unfold read_complete.
    by rewrite bind_run, get_stream_run, Hfind.
Qed.

Lemma cdi_receive_armed_once_witness :
  (receives (trace (state_of (connection_handler Example.pending 0 0
                                Example.cdi_open)))
   = receives (trace Example.cdi_open) ++ [AsyncReceive 0]
   ∧ receives (trace (state_of (read_complete Example.pending 0 0
                                  (Example.video 1) Example.cdi_open)))
     = receives (trace Example.cdi_open))
  ∧ ∃ st2,
      read_complete Example.pending 0 0 (Example.video 1) Example.all_open
      = Returns () st2
      ∧ receives (trace st2)
        = receives (trace Example.all_open) ++ [AsyncReceive 0].
Proof.
  split.
  - destruct (cdi_receive_armed_once Example.pending Example.cdi_open 0
                (Connection.set_status ConnectionStatus.Open
                   (Connection.set_streams [0%nat]
                      (Connection.make ConnectionType.Cdi "cdi0" "localhost"
                         2000 ConnectionMode.Server ConnectionDirection.In))))
      as [Hcdi _]; [reflexivity|].
    destruct (Hcdi eq_refl) as (Hopen & Hread & _).
    split; [apply Hopen; reflexivity | apply Hread].
  - destruct (cdi_receive_armed_once Example.pending Example.all_open 0
                (Connection.set_status ConnectionStatus.Open
                   (Connection.set_streams [0%nat]
                      (Connection.make ConnectionType.Tcp "in0" "localhost"
                         2000 ConnectionMode.Server ConnectionDirection.In))))
      as (_ & Htcp & _); [reflexivity|].
    destruct (Htcp ltac:(discriminate) well_formed_all_open 0
                (Example.video 1) 0%nat (Stream.make 100 PayloadType.Video)
                eq_refl) as (st1 & _ & _ & _ & Hrearm).
    apply Hrearm; [reflexivity | by left].
Defined.

(** C5, as the claim has it, fails: on the running example channel, the
    completion of a receive on the TCP input for a payload of the stream 9,
    which is not registered, throws and initiates no receive, where
    [async_read] would have initiated one: the read loop of the connection
    is not resumed. *)
Lemma read_complete_unregistered_not_rearmed :
  let payload := {| stream_identifier := 9; sequence := 1; get_size := 1024 |} in
  Connection.get_type <$> connections_ Example.all_open !! 0%nat
  = Some ConnectionType.Tcp
  ∧ Connection.get_direction <$> connections_ Example.all_open !! 0%nat
    = Some ConnectionDirection.In
  ∧ active_ Example.all_open = true
  ∧ read_complete Example.pending 0 0 payload Example.all_open
    = Raises (InvalidConfigurationException (UnrecognizedStream 9))
        Example.all_open
  ∧ receives (trace (state_of (read_complete Example.pending 0 0 payload
                                 Example.all_open))) = []
  ∧ receives (trace (state_of (async_read Example.pending 0 0
                                 Example.all_open))) = [AsyncReceive 0].
Proof. vm_compute. done. Qed.

(** * Registering connections and streams *)

Lemma add_connection_run d type name host port mode size st :
  add_connection d type name host port mode size st =
  match type with
  | ConnectionType.Other =>
      Raises (InvalidConfigurationException UnsupportedConnectionType) st
  | _ =>
      Returns (length (connections_ st))
        (set_connections
           (connections_ st ++ [Connection.make type name host port mode d])
           (set_connection_buffers
              (try_emplace name size (connection_buffers_ st)) st))
  end.
Proof. by destruct type. Qed.

Lemma find_connection_app name st v c :
  find_connection name (set_connections (connections_ st ++ [c]) v) =
  match find_connection name st with
  | Some found => Some found
  | None =>
      if decide (Connection.get_name c = name)
      then Some (length (connections_ st), c) else None
  end.
Proof.
  unfold find_connection. simpl.
  destruct (list_find _ (connections_ st)) as [[i x]|] eqn:Hfind.
  - by apply list_find_app_l.
  - rewrite list_find_app_r by done. simpl.
    case_decide; simpl; [|done]. done.
Qed.

(** X1.  [add_input] and [add_output] (both are [add_connection]) fail
    only for an unsupported connection type, and then change nothing.
    Otherwise the new connection is appended, closed and without streams;
    looking its name up finds it only if no earlier connection has that
    name, and its buffer is created only if the name has no buffer yet: a
    connection added under a name already in use is never found by name and
    shares the buffer of the first one, whatever capacity it asked for. *)
Theorem add_connection_lookup
    (d : ConnectionDirection.t) (type : ConnectionType.t) (name host : string)
    (port : Z) (mode : ConnectionMode.t) (size : nat) (st : t) :
  match add_connection d type name host port mode size st with
  | Raises e st' =>
      type = ConnectionType.Other
      ∧ e = InvalidConfigurationException UnsupportedConnectionType
      ∧ st' = st
  | Returns i st' =>
      type ≠ ConnectionType.Other
      ∧ i = length (connections_ st)
      ∧ connections_ st'
        = connections_ st ++ [Connection.make type name host port mode d]
      ∧ find_connection name st'
        = match find_connection name st with
          | Some found => Some found
          | None => Some (i, Connection.make type name host port mode d)
          end
      ∧ (∀ other, other ≠ name →
           find_connection other st' = find_connection other st)
      ∧ connection_buffers_ st' !! name
        = match connection_buffers_ st !! name with
          | Some entry => Some entry
          | None => Some (PayloadBuffer.make size, false)
          end
      ∧ (∀ other, other ≠ name →
           connection_buffers_ st' !! other = connection_buffers_ st !! other)
      ∧ streams_ st' = streams_ st
      ∧ channel_map_ st' = channel_map_ st
  end.
Proof.
  rewrite add_connection_run.
  assert (∀ c : Connection.t,
    c = Connection.make type name host port mode d →
    let st' := set_connections (connections_ st ++ [c])
                 (set_connection_buffers
                    (try_emplace name size (connection_buffers_ st)) st) in
    find_connection name st'
    = match find_connection name st with
      | Some found => Some found
      | None => Some (length (connections_ st), c)
      end
    ∧ (∀ other, other ≠ name →
         find_connection other st' = find_connection other st)
    ∧ connection_buffers_ st' !! name
      = match connection_buffers_ st !! name with
        | Some entry => Some entry
        | None => Some (PayloadBuffer.make size, false)
        end
    ∧ (∀ other, other ≠ name →
         connection_buffers_ st' !! other = connection_buffers_ st !! other))
    as Hlookup.
  { intros c -> st'. split; [|split; [|split]].
    - unfold st'. rewrite find_connection_app.
      change (find_connection name (set_connection_buffers _ st))
        with (find_connection name st).
      destruct (find_connection name st); [done|]. by rewrite decide_True.
    - intros other Hother. unfold st'. rewrite find_connection_app.
      change (find_connection other (set_connection_buffers _ st))
        with (find_connection other st).
      destruct (find_connection other st); [done|]. by rewrite decide_False.
    - simpl. unfold try_emplace.
      destruct (connection_buffers_ st !! name) eqn:Hname; [done|].
      by rewrite lookup_insert_eq.
    - intros other Hother. simpl. unfold try_emplace.
      destruct (connection_buffers_ st !! name); [done|].
      by rewrite lookup_insert_ne. }
  destruct type; [| |done].
  - destruct (Hlookup _ eq_refl) as (? & ? & ? & ?). by repeat split.
  - destruct (Hlookup _ eq_refl) as (? & ? & ? & ?). by repeat split.
Qed.

Lemma add_connection_lookup_witness :
  fst <$> find_connection "in0"
            (state_of (add_connection ConnectionDirection.Out
                         ConnectionType.Tcp "in0" "elsewhere" 1
                         ConnectionMode.Client 8 Example.configured))
  = Some 0%nat.
Proof.
  pose proof (add_connection_lookup ConnectionDirection.Out
                ConnectionType.Tcp "in0" "elsewhere" 1 ConnectionMode.Client 8
                Example.configured) as Hlookup.
  destruct (add_connection ConnectionDirection.Out ConnectionType.Tcp "in0"
              "elsewhere" 1 ConnectionMode.Client 8 Example.configured)
    as [i st'|e st'].
  - destruct Hlookup as (_ & _ & _ & Hfound & _). simpl.
    rewrite Hfound. reflexivity.
  - destruct Hlookup as (Hother & _). discriminate Hother.
Defined.


Lemma find_stream_app sid st stream :
  find_stream sid (set_streams (streams_ st ++ [stream]) st) =
  match find_stream sid st with
  | Some found => Some found
  | None =>
      if decide (Stream.id stream = sid)
      then Some (length (streams_ st), stream) else None
  end.
Proof.
  unfold find_stream. simpl.
  destruct (list_find _ (streams_ st)) as [[i x]|] eqn:Hfind.
  - by apply list_find_app_l.
  - rewrite list_find_app_r by done. simpl. by case_decide.
Qed.

(** X2.  Each of [add_video_stream], [add_audio_stream] and
    [add_ancillary_stream] always returns, appending one stream.  Afterwards
    [get_stream] of the identifier returns the new stream only if the
    identifier was not registered before; otherwise it keeps returning the
    stream registered first, and the new one cannot be reached through the
    channel.  Lookups of other identifiers are not affected. *)
Theorem add_stream_get_stream
    (sid w h b n d g a bs : Z) (l : string) (st : t)
    (register : action nat) :
  register ∈ [add_video_stream sid w h b n d;
              add_audio_stream sid g a bs l;
              add_ancillary_stream sid] →
  ∃ st' stream,
    register st = Returns (length (streams_ st)) st'
    ∧ streams_ st' = streams_ st ++ [stream]
    ∧ Stream.id stream = sid
    ∧ Channel.get_stream sid st'
      = Returns (match find_stream sid st with
                 | Some (first, _) => first
                 | None => length (streams_ st)
                 end) st'
    ∧ (∀ other, other ≠ sid →
         find_stream other st' = find_stream other st)
    ∧ connections_ st' = connections_ st
    ∧ channel_map_ st' = channel_map_ st
    ∧ connection_buffers_ st' = connection_buffers_ st.
Proof.
  intros Hregister.
  assert (∃ type, register = push_stream (Stream.make sid type)) as [type ->].
  { set_unfold. destruct Hregister as [->|[->|[->|[]]]]; eauto. }
  eexists _, _. split; [reflexivity|]. split; [reflexivity|].
  split; [reflexivity|]. split; [|split].
  - rewrite get_stream_run, find_stream_app.
    destruct (find_stream sid st) as [[first s]|]; [done|].
    by rewrite decide_True.
  - intros other Hother. rewrite find_stream_app.
    destruct (find_stream other st); [done|]. by rewrite decide_False.
  - done.
Qed.

Lemma add_stream_get_stream_witness :
  ∃ st',
    add_audio_stream 100 0 48000 3 "en" Example.configured = Returns 2%nat st'
    ∧ Channel.get_stream 100 st' = Returns 0%nat st'.
Proof.
  destruct (add_stream_get_stream 100 0 0 0 0 0 0 48000 3 "en"
              Example.configured (add_audio_stream 100 0 48000 3 "en"))
    as (st' & stream & Hrun & _ & _ & Hget & _).
  { right. left. }
  exists st'. split; [exact Hrun | exact Hget].
Defined.

(** * Binding streams to a connection *)

(** X3.  [Connection::add_stream] refuses a stream of an unsupported payload
    type and otherwise appends it to the bound streams, leaving the rest of
    the connection alone.  Afterwards [Connection::get_stream] finds the new
    stream under its identifier unless an earlier bound stream has the same
    identifier; lookups that matched before, and the default lookup of a
    connection that already had a stream, return what they returned; on a
    connection that had no stream, every lookup returns the new stream. *)
Theorem connection_add_stream_get_stream
    (heap : list Stream.t) (r : nat) (s : Stream.t) (c : Connection.t) :
  heap !! r = Some s →
  (Stream.payload_type s = PayloadType.Other →
   Connection.add_stream heap r c
   = Fail (InvalidConfigurationException UnsupportedPayloadType))
  ∧ (Stream.payload_type s ≠ PayloadType.Other →
     ∃ c',
       Connection.add_stream heap r c = Ok c'
       ∧ Connection.streams_ c' = Connection.streams_ c ++ [r]
       ∧ Connection.get_name c' = Connection.get_name c
       ∧ Connection.get_status c' = Connection.get_status c
       ∧ Connection.get_direction c' = Connection.get_direction c
       ∧ Connection.get_type c' = Connection.get_type c
       ∧ (∀ sid found,
            sid ≠ 0 → found ∈ Connection.streams_ c →
            Connection.has_id heap sid found →
            Connection.get_stream heap sid c'
            = Connection.get_stream heap sid c)
       ∧ (Connection.streams_ c ≠ [] →
          Connection.get_stream heap 0 c' = Connection.get_stream heap 0 c)
       ∧ (Connection.streams_ c = [] →
          ∀ sid, Connection.get_stream heap sid c' = Ok r)
       ∧ (Stream.id s ≠ 0 →
          (∀ bound, bound ∈ Connection.streams_ c →
                    ¬ Connection.has_id heap (Stream.id s) bound) →
          Connection.get_stream heap (Stream.id s) c' = Ok r)).
Proof.
  intros Hr. split.
  - intros Htype. unfold Connection.add_stream. by rewrite Hr, Htype.
  - intros Htype. eexists. split; [by eapply add_stream_supported|].
    do 5 (split; [done|]).
    assert (Connection.has_id heap (Stream.id s) r) as Hhas
      by (unfold Connection.has_id; by rewrite Hr).
    unfold Connection.get_stream.
    cbn [Connection.streams_ Connection.set_streams].
    split; [|split; [|split]].
    + intros sid found Hsid Hfound Hmatch. rewrite !decide_True by done.
      destruct (list_find _ (Connection.streams_ c)) as [[i x]|] eqn:Hfind.
      * by erewrite list_find_app_l.
      * apply list_find_None in Hfind. rewrite Forall_forall in Hfind.
        by destruct (Hfind found).
    + intros Hne. destruct (decide (0 ≠ 0)); [done|].
      by destruct (Connection.streams_ c).
    + intros -> sid. simpl. case_decide as Hsid; [|done].
      by repeat case_decide.
    + intros Hid Hnone. rewrite decide_True by done.
      rewrite list_find_app_r.
      * simpl. by rewrite decide_True.
      * apply list_find_None, Forall_forall. exact Hnone.
Qed.

Lemma connection_add_stream_get_stream_witness :
  ∃ c',
    Connection.add_stream ExampleConnection.heap 1
      (Connection.make ConnectionType.Tcp "out0" "localhost" 3000
         ConnectionMode.Client ConnectionDirection.Out) = Ok c'
    ∧ Connection.get_stream ExampleConnection.heap 100 c' = Ok 1%nat.
Proof.
  destruct (connection_add_stream_get_stream ExampleConnection.heap 1
              (Stream.make 7 PayloadType.Audio)
              (Connection.make ConnectionType.Tcp "out0" "localhost" 3000
                 ConnectionMode.Client ConnectionDirection.Out) eq_refl)
    as [_ Hadd].
  destruct Hadd as (c' & Hrun & _ & _ & _ & _ & _ & _ & _ & Hany & _);
    [discriminate|].
  exists c'. split; [exact Hrun | by apply Hany].
Defined.

(** * Channels built by the configuration *)

Lemma map_stream_Returns_check st sid name st' i c :
  map_stream sid name st = Returns () st' →
  find_connection name st = Some (i, c) →
  Connection.get_direction c = ConnectionDirection.In →
  stream_connections st sid ConnectionDirection.In (right_equal_range sid st)
  = Ok [].
Proof.
  rewrite map_stream_unfold. intros Hrun Hfind Hdir. rewrite Hfind in Hrun.
  rewrite decide_True in Hrun by done.
  destruct (stream_connections _ _ _ _) as [[|first rest]|e]; [done| |done].
  by destruct (connections_ st !! first).
Qed.

(** The three ways in which the configuration extends a channel. *)
Lemma Configured_cases (P : t → Prop) :
  P make →
  (∀ st d type name host port mode size,
     Configured st → P st →
     d = ConnectionDirection.In ∨ d = ConnectionDirection.Out →
     type ≠ ConnectionType.Other →
     P (set_connections
          (connections_ st ++ [Connection.make type name host port mode d])
          (set_connection_buffers
             (try_emplace name size (connection_buffers_ st)) st))) →
  (∀ st sid type,
     Configured st → P st → type ≠ PayloadType.Other →
     P (set_streams (streams_ st ++ [Stream.make sid type]) st)) →
  (∀ st sid name i c r s,
     Configured st → P st →
     find_connection name st = Some (i, c) →
     find_stream sid st = Some (r, s) →
     (Connection.get_direction c = ConnectionDirection.In →
      stream_connections st sid ConnectionDirection.In
        (right_equal_range sid st) = Ok []) →
     P (set_channel_map (channel_map_ st ++ [(name, sid)])
          (set_connections
             (<[i := Connection.set_streams (Connection.streams_ c ++ [r]) c]>
                (connections_ st)) st))) →
  ∀ st, Configured st → P st.
Proof.
  intros Hmake Hconnection Hstream Hmap st Hst.
  induction Hst as [|type name host port mode size st i st' Hst IHst Hrun
                    |type name host port mode size st i st' Hst IHst Hrun
                    |sid w h b n d st r st' Hst IHst Hrun
                    |sid g a b l st r st' Hst IHst Hrun
                    |sid st r st' Hst IHst Hrun
                    |sid name st st' Hst IHst Hrun].
  - done.
  - unfold add_input in Hrun. rewrite add_connection_run in Hrun.
    destruct type; simplify_eq; apply Hconnection; auto.
  - unfold add_output in Hrun. rewrite add_connection_run in Hrun.
    destruct type; simplify_eq; apply Hconnection; auto.
  - injection Hrun as _ <-. by apply Hstream.
  - injection Hrun as _ <-. by apply Hstream.
  - injection Hrun as _ <-. by apply Hstream.
  - destruct (map_stream_Returns _ _ _ _ Hrun) as (i & c & r & s & Hc & Hs & ->).
    eapply Hmap; eauto using map_stream_Returns_check.
Qed.

Lemma Configured_well_formed st : Configured st → well_formed st.
Proof.
  induction 1; eauto using well_formed_make, well_formed_add_connection,
    well_formed_push_stream, well_formed_map_stream.
Qed.

Lemma Configured_quiet st :
  Configured st →
  trace st = [] ∧ active_ st = false
  ∧ (∀ c, c ∈ connections_ st →
          Connection.get_status c = ConnectionStatus.Closed)
  ∧ (∀ name buffer latched,
       connection_buffers_ st !! name = Some (buffer, latched) →
       PayloadBuffer.buffer_ buffer = [] ∧ latched = false).
Proof.
  intros Hst. induction Hst using Configured_cases.
  - repeat split; try done; [by intros c ?%elem_of_nil|..];
      intros name buffer latched; by rewrite lookup_empty.
  - destruct IHHst as (Htrace & Hactive & Hclosed & Hbuffers).
    split; [done|]. split; [done|]. split.
    + intros c [Hc | ->%list_elem_of_singleton]%elem_of_app; [by apply Hclosed|].
      done.
    + intros n buffer latched. simpl. unfold try_emplace.
      destruct (connection_buffers_ st !! name) eqn:Hname; [by apply Hbuffers|].
      destruct (decide (name = n)) as [->|Hne].
      * rewrite lookup_insert_eq. by intros [= <- <-].
      * rewrite lookup_insert_ne by done. by apply Hbuffers.
  - done.
  - destruct IHHst as (Htrace & Hactive & Hclosed & Hbuffers).
    split; [done|]. split; [done|]. split; [|done].
    intros c' [j Hj]%list_elem_of_lookup. simpl in Hj.
    pose proof (find_connection_Some _ _ _ _ H) as [Hi _].
    destruct (decide (j = i)) as [->|Hne].
    + rewrite list_lookup_insert_eq in Hj by (by eapply lookup_lt_Some).
      injection Hj as <-. simpl. apply Hclosed. by eapply list_elem_of_lookup_2.
    + rewrite list_lookup_insert_ne in Hj by done.
      apply Hclosed. by eapply list_elem_of_lookup_2.
Qed.

Lemma Configured_streams st s :
  Configured st → s ∈ streams_ st →
  Stream.payload_type s ≠ PayloadType.Other.
Proof.
  intros Hst. revert s. induction Hst using Configured_cases; intros s'.
  - by intros ?%elem_of_nil.
  - apply IHHst.
  - simpl. intros [Hs | ->%list_elem_of_singleton]%elem_of_app; [by apply IHHst|].
    done.
  - apply IHHst.
Qed.

Lemma find_stream_app_is_Some sid st stream :
  is_Some (find_stream sid st) →
  find_stream sid (set_streams (streams_ st ++ [stream]) st) = find_stream sid st.
Proof. intros [found Hfound]. by rewrite find_stream_app, Hfound. Qed.

Lemma Configured_map_resolves st n sid :
  Configured st → (n, sid) ∈ channel_map_ st → is_Some (find_stream sid st).
Proof.
  intros Hst. revert n sid. induction Hst using Configured_cases; intros n' sid'.
  - by intros ?%elem_of_nil.
  - apply IHHst.
  - intros Hin. rewrite find_stream_app_is_Some; by eapply IHHst.
  - simpl. intros [Hin | [= -> ->]%list_elem_of_singleton]%elem_of_app.
    + by eapply IHHst.
    + change (is_Some (find_stream sid st)). by rewrite H0.
Qed.

(** ** The lookups depend on little of the channel *)

Lemma stream_connections_ext st st' sid d entries :
  (∀ n s, (n, s) ∈ entries →
     prod_map id Connection.get_direction <$> find_connection n st'
     = prod_map id Connection.get_direction <$> find_connection n st) →
  stream_connections st' sid d entries = stream_connections st sid d entries.
Proof.
  induction entries as [|[n s] entries IHentries]; intros Hext; [done|].
  simpl. assert ((n, s) ∈ (n, s) :: entries) as Hn%Hext by left.
  rewrite IHentries by (intros n0 s0 ?; apply (Hext n0 s0); by right).
  destruct (find_connection n st') as [[j' c']|],
    (find_connection n st) as [[j c]|]; try done.
  simpl in Hn. injection Hn as -> Hdir. by rewrite Hdir.
Qed.

Lemma stream_connections_app st sid d entries1 entries2 :
  stream_connections st sid d (entries1 ++ entries2) =
  match stream_connections st sid d entries1 with
  | Fail e => Fail e
  | Ok l1 =>
      match stream_connections st sid d entries2 with
      | Fail e => Fail e
      | Ok l2 => Ok (l1 ++ l2)
      end
  end.
Proof.
  induction entries1 as [|[n s] entries1 IHentries]; simpl.
  - by destruct (stream_connections st sid d entries2).
  - destruct (find_connection n st) as [[j c]|]; [|done].
    rewrite IHentries.
    destruct (stream_connections st sid d entries1) as [l1|]; [|reflexivity].
    destruct (stream_connections st sid d entries2) as [l2|];
      by case_bool_decide.
Qed.

Lemma connection_streams_ext st st' name entries :
  (∀ n s, (n, s) ∈ entries →
     fst <$> find_stream s st' = fst <$> find_stream s st) →
  connection_streams st' name entries = connection_streams st name entries.
Proof.
  induction entries as [|[n s] entries IHentries]; intros Hext; [done|].
  simpl. assert ((n, s) ∈ (n, s) :: entries) as Hs%Hext by left.
  rewrite IHentries by (intros n0 s0 ?; apply (Hext n0 s0); by right).
  destruct (find_stream s st') as [[j' c']|],
    (find_stream s st) as [[j c]|]; try done.
  simpl in Hs. by injection Hs as ->.
Qed.

Lemma connection_streams_snoc st name entries n s l r x :
  connection_streams st name entries = Ok l →
  find_stream s st = Some (r, x) →
  connection_streams st name (entries ++ [(n, s)]) = Ok (l ++ [r]).
Proof.
  revert l. induction entries as [|[n' s'] entries IHentries]; simpl; intros l.
  - intros [= <-] ->. done.
  - destruct (find_stream s' st) as [[r' x']|]; [|done].
    destruct (connection_streams st name entries) as [rest|]; [|done].
    intros [= <-] Hs. by rewrite (IHentries rest eq_refl Hs).
Qed.

Lemma right_equal_range_snoc sid st v n s :
  right_equal_range sid (set_channel_map (channel_map_ st ++ [(n, s)]) v)
  = right_equal_range sid st ++ (if decide (s = sid) then [(n, s)] else []).
Proof.
  unfold right_equal_range. simpl. rewrite filter_app. by f_equal.
Qed.

Lemma left_equal_range_snoc name st v n s :
  left_equal_range name (set_channel_map (channel_map_ st ++ [(n, s)]) v)
  = left_equal_range name st ++ (if decide (n = name) then [(n, s)] else []).
Proof.
  unfold left_equal_range. simpl. rewrite filter_app. by f_equal.
Qed.

Lemma find_connection_bound n st w i c v :
  connections_ st !! i = Some c →
  find_connection n
    (set_connections (<[i := Connection.set_streams v c]> (connections_ st)) w)
  = (λ found : nat * Connection.t,
       (found.1, if decide (found.1 = i)
                 then Connection.set_streams v c else found.2))
    <$> find_connection n st.
Proof.
  intros Hi.
  set (st' := set_connections _ w).
  assert (names st' = names st) as Hnames by (by eapply names_insert_same).
  destruct (find_connection n st) as [[j x]|] eqn:Hfind.
  - destruct (find_connection_same_names n st st' j x Hnames Hfind) as [x' Hx'].
    rewrite Hx'. simpl. f_equal. f_equal.
    apply find_connection_Some in Hx' as [Hj' _].
    apply find_connection_Some in Hfind as [Hj _].
    unfold st' in Hj'. simpl in Hj'. case_decide as Hji.
    + subst j. rewrite list_lookup_insert_eq in Hj' by (by eapply lookup_lt_Some).
      by injection Hj'.
    + rewrite list_lookup_insert_ne in Hj' by done. congruence.
  - destruct (find_connection n st') as [[j x]|] eqn:Hfind'; [|done].
    symmetry in Hnames.
    destruct (find_connection_same_names n st' st j x Hnames Hfind') as [x' Hx'].
    congruence.
Qed.

Lemma Configured_at_most_one_input st sid :
  Configured st →
  ∃ l, stream_connections st sid ConnectionDirection.In
         (right_equal_range sid st) = Ok l
       ∧ (length l ≤ 1)%nat.
Proof.
  intros Hst. revert sid. induction Hst using Configured_cases; intros sid'.
  - exists []. split; [done|simpl; lia].
  - destruct (IHHst sid') as (l & Hl & Hlen). exists l. split; [|done].
    rewrite <- Hl.
    change (right_equal_range sid' (set_connections _ _))
      with (right_equal_range sid' st).
    apply stream_connections_ext. intros n s [_ Hin]%list_elem_of_filter.
    rewrite find_connection_app.
    change (find_connection n (set_connection_buffers _ st))
      with (find_connection n st).
    apply Configured_well_formed in Hst as [_ Hknown].
    by destruct (Hknown n s Hin) as [found ->].
  - destruct (IHHst sid') as (l & Hl & Hlen). exists l. split; [|done].
    by rewrite stream_connections_set_streams.
  - destruct (IHHst sid') as (l & Hl & Hlen).
    pose proof (find_connection_Some _ _ _ _ H) as [Hi Hname].
    rewrite right_equal_range_snoc.
    set (st1 := set_connections _ st).
    set (st2 := set_channel_map _ st1).
    assert (∀ entries,
      stream_connections st2 sid' ConnectionDirection.In entries
      = stream_connections st sid' ConnectionDirection.In entries) as Hsame.
    { intros entries. apply stream_connections_ext. intros n s0 _.
      change (find_connection n st2) with (find_connection n st1).
      unfold st1. rewrite (find_connection_bound n st st i c) by done.
      destruct (find_connection n st) as [[j x]|] eqn:Hn; [|done].
      simpl. f_equal. f_equal. case_decide as Hji; [|done]. subst j.
      apply find_connection_Some in Hn as [Hj _].
      assert (x = c) as -> by congruence. done. }
    rewrite Hsame, stream_connections_app, Hl.
    case_decide as Hsid; [|exists l; simpl; by rewrite (right_id_L [] (++))].
    subst sid'. simpl. rewrite H.
    case_bool_decide as Hdir.
    + destruct Hdir as [Hboth|Hdir]; [done|].
      rewrite (H1 Hdir) in Hl. injection Hl as <-. exists [i].
      split; [done|simpl; lia].
    + exists l. by rewrite (right_id_L [] (++)).
Qed.

Lemma find_connection_own st j c :
  connections_ st !! j = Some c →
  is_Some (find_connection (Connection.get_name c) st).
Proof.
  intros Hj. apply (list_find_elem_of _ _ c); [|done].
  by eapply list_elem_of_lookup_2.
Qed.

Lemma well_formed_fresh_range st name :
  well_formed st → find_connection name st = None →
  left_equal_range name st = [].
Proof.
  intros [_ Hknown] Hnone. apply left_equal_range_nil. intros sid Hin.
  destruct (Hknown name sid Hin) as [found Hfound]. congruence.
Qed.

Lemma Configured_bound st :
  Configured st →
  (∀ name i c,
     find_connection name st = Some (i, c) →
     connection_streams st name (left_equal_range name st)
     = Ok (Connection.streams_ c))
  ∧ (∀ j c,
       connections_ st !! j = Some c →
       fst <$> find_connection (Connection.get_name c) st ≠ Some j →
       Connection.streams_ c = []).
Proof.
  intros Hst.
  induction Hst as [|st d type name0 host port mode size Hst [IH1 IH2] Hd Htype
                    |st sid0 type Hst [IH1 IH2] Htype
                    |st sid0 name0 i0 c0 r s Hst [IH1 IH2] Hc0 Hs Hcheck]
    using Configured_cases.
  - split; [done|]. intros j c Hj. by destruct j.
  - set (new := Connection.make type name0 host port mode d).
    split.
    + intros name i c. rewrite find_connection_app.
      change (find_connection name (set_connection_buffers _ st))
        with (find_connection name st).
      change (left_equal_range name (set_connections _ _))
        with (left_equal_range name st).
      destruct (find_connection name st) as [found|] eqn:Hfound.
      * intros [= ->]. rewrite <- (IH1 _ _ _ Hfound).
        by apply connection_streams_ext.
      * case_decide as Hname; [|done]. intros [= <- <-].
        rewrite well_formed_fresh_range
          by eauto using Configured_well_formed. done.
    + intros j c Hj Hshadow. simpl in Hj.
      apply lookup_app_Some in Hj as [Hj|[_ Hj]].
      * apply (IH2 j c Hj). rewrite find_connection_app in Hshadow.
        change (find_connection (Connection.get_name c)
                  (set_connection_buffers _ st))
          with (find_connection (Connection.get_name c) st) in Hshadow.
        destruct (find_connection_own st j c Hj) as [found Hf].
        rewrite Hf in Hshadow. by rewrite Hf.
      * apply list_lookup_singleton_Some in Hj as [_ <-]. done.
  - split.
    + intros name i c Hfind.
      change (left_equal_range name (set_streams _ st))
        with (left_equal_range name st).
      rewrite <- (IH1 name i c Hfind). apply connection_streams_ext.
      intros n s' [_ Hin]%list_elem_of_filter.
      rewrite find_stream_app_is_Some; [done|].
      by eapply Configured_map_resolves.
    + exact IH2.
  - pose proof (find_connection_Some _ _ _ _ Hc0) as [Hi0 Hname0].
    set (st1 := set_connections _ st).
    split.
    + intros name i c.
      change (find_connection name (set_channel_map _ st1))
        with (find_connection name st1).
      unfold st1. rewrite (find_connection_bound name st st i0 c0) by done.
      rewrite left_equal_range_snoc.
      destruct (find_connection name st) as [[j x]|] eqn:Hfind; [|done].
      simpl. intros [= <- <-].
      pose proof (find_connection_Some _ _ _ _ Hfind) as [Hj Hname].
      assert (∀ entries,
        connection_streams
          (set_channel_map (channel_map_ st ++ [(name0, sid0)])
             (set_connections
                (<[i0 := Connection.set_streams
                           (Connection.streams_ c0 ++ [r]) c0]>
                   (connections_ st)) st))
          name entries
        = connection_streams st name entries) as ->
        by (intros; by apply connection_streams_ext).
      case_decide as Hnames.
      * rewrite Hnames in Hc0. rewrite Hc0 in Hfind. injection Hfind as <- <-.
        rewrite decide_True by done. simpl.
        eapply connection_streams_snoc; [by eapply IH1 | done].
      * rewrite decide_False.
        { rewrite (right_id_L [] (++)). by eapply IH1. }
        intros ->. rewrite Hi0 in Hj. injection Hj as <-. congruence.
    + intros j c Hj Hshadow. simpl in Hj.
      change (find_connection (Connection.get_name c) (set_channel_map _ st1))
        with (find_connection (Connection.get_name c) st1) in Hshadow.
      unfold st1 in Hshadow.
      rewrite (find_connection_bound _ st st i0 c0) in Hshadow by done.
      destruct (decide (j = i0)) as [->|Hne].
      * rewrite list_lookup_insert_eq in Hj by (by eapply lookup_lt_Some).
        injection Hj as <-. simpl in Hshadow.
        change (Connection.name_ c0) with (Connection.get_name c0) in Hshadow.
        rewrite Hname0, Hc0 in Hshadow. by destruct Hshadow.
      * rewrite list_lookup_insert_ne in Hj by done.
        apply (IH2 j c Hj).
        by destruct (find_connection (Connection.get_name c) st) as [[]|].
Qed.

(** Whether a call of the configuration returns or throws, the channel it
    leaves is one that the configuration builds. *)
Lemma Configured_add_connection_state d type name host port mode size st :
  d = ConnectionDirection.In ∨ d = ConnectionDirection.Out →
  Configured st →
  Configured (state_of (add_connection d type name host port mode size st)).
Proof.
  intros Hd Hst.
  destruct (add_connection d type name host port mode size st) as [i st'|e st']
    eqn:Hrun.
  - destruct Hd as [-> | ->]; [by eapply Configured_add_input
                              |by eapply Configured_add_output].
  - rewrite add_connection_run in Hrun. by destruct type; simplify_eq.
Qed.

Lemma Configured_map_stream_state sid name st :
  Configured st → Configured (state_of (map_stream sid name st)).
Proof.
  intros Hst. destruct (map_stream sid name st) as [[] st'|e st'] eqn:Hrun.
  - by eapply Configured_map_stream.
  - by apply map_stream_Raises in Hrun as ->.
Qed.

Lemma Configured_add_stream_state sid type st :
  type ≠ PayloadType.Other →
  Configured st →
  Configured (state_of (push_stream (Stream.make sid type) st)).
Proof.
  intros Htype Hst. destruct type; [..|done].
  - by eapply (Configured_add_video_stream sid 0 0 0 0 0).
  - by eapply (Configured_add_audio_stream sid 0 0 0 "").
  - by eapply (Configured_add_ancillary_stream sid).
Qed.

Lemma Configured_example : Configured Example.configured.
Proof.
  pose proof Configured_make as H0.
  apply (Configured_add_connection_state ConnectionDirection.In
           ConnectionType.Tcp "in0" "localhost" 2000 ConnectionMode.Server 4)
    in H0; [|by left].
  apply (Configured_add_connection_state ConnectionDirection.Out
           ConnectionType.Tcp "out0" "localhost" 3000 ConnectionMode.Client 4)
    in H0; [|by right].
  apply (Configured_add_connection_state ConnectionDirection.Out
           ConnectionType.Tcp "out1" "localhost" 3001 ConnectionMode.Server 10)
    in H0; [|by right].
  apply (Configured_add_stream_state 100 PayloadType.Video) in H0; [|done].
  apply (Configured_add_stream_state 7 PayloadType.Audio) in H0; [|done].
  apply (Configured_map_stream_state 100 "in0") in H0.
  apply (Configured_map_stream_state 100 "out0") in H0.
  apply (Configured_map_stream_state 100 "out1") in H0.
  exact H0.
Qed.

Lemma connection_streams_Ok st name entries l :
  connection_streams st name entries = Ok l →
  length l = length entries
  ∧ ∀ r, r ∈ l → ∃ n s, (n, Stream.id s) ∈ entries ∧ streams_ st !! r = Some s.
Proof.
  revert l. induction entries as [|[n sid] entries IHentries]; simpl; intros l.
  - intros [= <-]. split; [done|]. by intros r ?%elem_of_nil.
  - destruct (find_stream sid st) as [[r s]|] eqn:Hfind; [|done].
    destruct (connection_streams st name entries) as [rest|]; [|done].
    intros [= <-]. destruct (IHentries rest eq_refl) as [Hlen Hin].
    split; [simpl; by rewrite Hlen|].
    intros r' [->|Hr']%elem_of_cons.
    + apply list_find_Some in Hfind as (Hr & <- & _).
      exists n, s. split; [by left | done].
    + destruct (Hin r' Hr') as (n' & s' & ? & ?).
      exists n', s'. split; [by right | done].
Qed.

Lemma connection_streams_total st name entries :
  (∀ n s, (n, s) ∈ entries → is_Some (find_stream s st)) →
  ∃ l, connection_streams st name entries = Ok l.
Proof.
  induction entries as [|[n s] entries IHentries]; intros Hknown; simpl;
    [by eauto|].
  destruct (Hknown n s) as [[r x] ->]; [by left|].
  destruct IHentries as [rest ->];
    [intros n0 s0 ?; apply (Hknown n0 s0); by right|].
  eauto.
Qed.

(** X4.  In a channel built by the configuration every mapping resolves:
    [get_stream_connections] and [get_connection_streams] return for every
    stream identifier, direction and connection name, leave the channel
    unchanged, and return only references to existing connections and
    streams. *)
Theorem configured_lookups_return (st : t) :
  Configured st →
  (∀ sid d,
     ∃ l, get_stream_connections sid d st = Returns l st
          ∧ ∀ o, o ∈ l →
              ∃ c, connections_ st !! o = Some c
                   ∧ (Connection.get_name c, sid) ∈ channel_map_ st)
  ∧ (∀ name,
       ∃ l, get_connection_streams name st = Returns l st
            ∧ ∀ r, r ∈ l →
                ∃ s, streams_ st !! r = Some s
                     ∧ (name, Stream.id s) ∈ channel_map_ st).
Proof.
  intros Hst. pose proof (Configured_well_formed st Hst) as [_ Hknown]. split.
  - intros sid d.
    destruct (stream_connections_total st sid d (right_equal_range sid st))
      as [l Hl].
    { intros n s [_ Hin]%list_elem_of_filter. by eapply Hknown. }
    exists l. rewrite get_stream_connections_run, Hl. split; [done|].
    intros o Ho. apply stream_connections_Ok in Hl as [_ Honly].
    destruct (Honly o Ho)
      as (n & s & c & [Hs Hin]%list_elem_of_filter & [Hc Hn]%find_connection_Some & _).
    simpl in Hs. subst. by exists c.
  - intros name.
    destruct (connection_streams_total st name (left_equal_range name st))
      as [l Hl].
    { intros n s [_ Hin]%list_elem_of_filter. by eapply Configured_map_resolves. }
    exists l. rewrite get_connection_streams_run, Hl. split; [done|].
    intros r Hr. apply connection_streams_Ok in Hl as [_ Hin].
    destruct (Hin r Hr) as (n & s & [Hn Hmap]%list_elem_of_filter & Hs).
    simpl in Hn. subst. by exists s.
Qed.

Lemma configured_lookups_return_witness :
  ∃ l, get_stream_connections 100 ConnectionDirection.Out Example.configured
       = Returns l Example.configured.
Proof.
  destruct (configured_lookups_return Example.configured Configured_example)
    as [Hconnections _].
  destruct (Hconnections 100 ConnectionDirection.Out) as (l & Hl & _).
  by exists l.
Defined.

(** X5.  A channel built by the configuration never has two inputs for a
    stream: [get_stream_connections] in direction In returns at most one
    connection for every stream identifier. *)
Theorem configured_single_input (st : t) (sid : Z) :
  Configured st →
  ∃ l, get_stream_connections sid ConnectionDirection.In st = Returns l st
       ∧ (length l ≤ 1)%nat.
Proof.
  intros Hst. destruct (Configured_at_most_one_input st sid Hst) as (l & Hl & Hlen).
  exists l. by rewrite get_stream_connections_run, Hl.
Qed.

Lemma configured_single_input_witness :
  ∃ l, get_stream_connections 100 ConnectionDirection.In Example.configured
       = Returns l Example.configured
       ∧ (length l ≤ 1)%nat.
Proof. exact (configured_single_input Example.configured 100 Configured_example). Defined.

(** X6.  In a channel built by the configuration, the streams bound to the
    connection that a name designates are exactly the streams that
    [get_connection_streams] resolves for that name, in the same order, and
    each of them exists with a supported payload type.  A connection that
    shares its name with an earlier connection has no stream bound. *)
Theorem configured_bound_streams (st : t) :
  Configured st →
  (∀ name i c,
     find_connection name st = Some (i, c) →
     get_connection_streams name st = Returns (Connection.streams_ c) st
     ∧ ∀ r, r ∈ Connection.streams_ c →
         ∃ s, streams_ st !! r = Some s
              ∧ Stream.payload_type s ≠ PayloadType.Other
              ∧ (name, Stream.id s) ∈ channel_map_ st)
  ∧ (∀ i c j shadowed,
       find_connection (Connection.get_name shadowed) st = Some (i, c) →
       connections_ st !! j = Some shadowed → j ≠ i →
       Connection.streams_ shadowed = []).
Proof.
  intros Hst. destruct (Configured_bound st Hst) as [Hbound Hshadow]. split.
  - intros name i c Hfind. pose proof (Hbound name i c Hfind) as Hstreams.
    rewrite get_connection_streams_run, Hstreams. split; [done|].
    intros r Hr. apply connection_streams_Ok in Hstreams as [_ Hin].
    destruct (Hin r Hr) as (n & s & [Hn Hmap]%list_elem_of_filter & Hs).
    simpl in Hn. subst n. exists s. split; [done|]. split; [|done].
    eapply Configured_streams; [done|]. by eapply list_elem_of_lookup_2.
  - intros i c j shadowed Hfind Hj Hne. apply (Hshadow j shadowed Hj).
    rewrite Hfind. simpl. congruence.
Qed.

Lemma configured_bound_streams_witness :
  get_connection_streams "out1" Example.configured
  = Returns [0%nat] Example.configured.
Proof.
  destruct (configured_bound_streams Example.configured Configured_example)
    as [Hbound _].
  destruct (Hbound "out1" 2%nat
              (Connection.set_streams [0%nat]
                 (Connection.make ConnectionType.Tcp "out1" "localhost" 3001
                    ConnectionMode.Server ConnectionDirection.Out)))
    as [Hrun _]; [vm_compute; reflexivity|].
  exact Hrun.
Defined.

(** X7.  The configuration does nothing observable: in a channel it has
    built no event has been emitted, the channel is not active, every
    connection is closed, and every buffer is empty with its overflow latch
    clear. *)
Theorem configured_quiescent (st : t) :
  Configured st →
  trace st = [] ∧ active_ st = false
  ∧ (∀ c, c ∈ connections_ st →
          Connection.get_status c = ConnectionStatus.Closed)
  ∧ (∀ name buffer latched,
       connection_buffers_ st !! name = Some (buffer, latched) →
       PayloadBuffer.is_empty buffer = true ∧ latched = false).
Proof.
  intros Hst. destruct (Configured_quiet st Hst) as (? & ? & ? & Hbuffers).
  do 3 (split; [done|]). intros name buffer latched Hname.
  destruct (Hbuffers name buffer latched Hname) as [Hempty ->].
  split; [|done]. unfold PayloadBuffer.is_empty, PayloadBuffer.size.
  by rewrite Hempty.
Qed.

Lemma configured_quiescent_witness :
  trace Example.configured = [] ∧ active_ Example.configured = false.
Proof.
  destruct (configured_quiescent Example.configured Configured_example)
    as (Htrace & Hactive & _).
  by split.
Defined.

Lemma openings_closed cs : ∀ k,
  (∀ c, c ∈ cs → Connection.get_status c = ConnectionStatus.Closed) →
  openings k cs
  = mjoin (imap (λ i c,
                   [Log Debug (OpeningConnection (Connection.get_name c));
                    if decide (Connection.get_mode c = ConnectionMode.Client)
                    then AsyncConnect (k + i) else AsyncAccept (k + i)]) cs).
Proof.
  induction cs as [|c cs IHcs]; intros k Hclosed; [done|].
  cbn [openings]. rewrite imap_cons. cbn [mjoin list_join].
  rewrite IHcs by (intros; apply Hclosed; by right).
  unfold opening. rewrite decide_True by (apply Hclosed; by left).
  rewrite Nat.add_0_r. f_equal. f_equal. apply imap_ext.
  intros i x _. simpl. by rewrite Nat.add_succ_r.
Qed.

(** X8.  On a channel built by the configuration, [open_connections] opens
    every connection, once: what it emits is, for each connection in the
    order of their addition, one log line followed by the initiation of a
    connect if the connection is a Client and of an accept if it is not,
    and nothing else; every connection is left in the status that the
    transport gives it, and the rest of the channel is as it was. *)
Theorem configured_opens_every_connection
    (initiated : Connection.t → ConnectionStatus.t) (st : t) :
  Configured st →
  ∃ st',
    open_connections initiated st = Returns () st'
    ∧ trace st'
      = mjoin (imap (λ i c,
                       [Log Debug (OpeningConnection (Connection.get_name c));
                        if decide (Connection.get_mode c = ConnectionMode.Client)
                        then AsyncConnect i else AsyncAccept i])
                 (connections_ st))
    ∧ connections_ st'
      = (λ c, Connection.set_status (initiated c) c) <$> connections_ st
    ∧ streams_ st' = streams_ st
    ∧ channel_map_ st' = channel_map_ st
    ∧ connection_buffers_ st' = connection_buffers_ st
    ∧ active_ st' = active_ st.
Proof.
  intros Hst. destruct (Configured_quiet st Hst) as (Htrace & _ & Hclosed & _).
  eexists. split; [apply open_connections_spec|]. simpl. rewrite Htrace. simpl.
  split; [by apply (openings_closed (connections_ st) 0%nat)|].
  split; [|done].
  apply list_fmap_ext. intros i c Hi. unfold opened.
  rewrite decide_True; [done|]. apply Hclosed. by eapply list_elem_of_lookup_2.
Qed.

Lemma configured_opens_every_connection_witness :
  ∃ st',
    open_connections Example.pending Example.configured = Returns () st'
    ∧ trace st'
      = [Log Debug (OpeningConnection "in0"); AsyncAccept 0;
         Log Debug (OpeningConnection "out0"); AsyncConnect 1;
         Log Debug (OpeningConnection "out1"); AsyncAccept 2].
Proof.
  destruct (configured_opens_every_connection Example.pending
              Example.configured Configured_example)
    as (st' & Hrun & Htrace & _).
  exists st'. split; [exact Hrun | exact Htrace].
Defined.

(** X9.  On a channel built by the configuration, [map_stream] raises for
    exactly three reasons, and changes nothing then: the name designates no
    connection; the connection is an input and the stream already has its
    input; the stream identifier is not registered.  In every other case it
    returns.  It never fails for an unsupported payload type, for a mapping
    to an unknown connection or by undefined behaviour. *)
Theorem configured_map_stream (st : t) (sid : Z) (name : string) :
  Configured st →
  match map_stream sid name st with
  | Returns _ st' =>
      Configured st'
      ∧ ∃ i c r s,
          find_connection name st = Some (i, c)
          ∧ find_stream sid st = Some (r, s)
          ∧ (Connection.get_direction c = ConnectionDirection.In →
             get_stream_connections sid ConnectionDirection.In st
             = Returns [] st)
  | Raises e st' =>
      st' = st
      ∧ ((find_connection name st = None
          ∧ e = InvalidConfigurationException (UnknownConnection name))
         ∨ (∃ i c first assigned,
              find_connection name st = Some (i, c)
              ∧ Connection.get_direction c = ConnectionDirection.In
              ∧ get_stream_connections sid ConnectionDirection.In st
                = Returns [first] st
              ∧ connections_ st !! first = Some assigned
              ∧ e = InvalidConfigurationException
                      (AlreadyAssigned sid (Connection.get_name assigned) name))
         ∨ (is_Some (find_connection name st)
            ∧ find_stream sid st = None
            ∧ e = InvalidConfigurationException (UnrecognizedStream sid)))
  end.
Proof.
  intros Hst.
  destruct (map_stream sid name st) as [[] st'|e st'] eqn:Hrun.
  - split; [by eapply Configured_map_stream|].
    destruct (map_stream_Returns _ _ _ _ Hrun) as (i & c & r & s & Hc & Hs & _).
    exists i, c, r, s. split; [done|]. split; [done|].
    intros Hdir. rewrite get_stream_connections_run.
    by erewrite map_stream_Returns_check.
  - split; [by eapply map_stream_Raises|].
    rewrite map_stream_unfold in Hrun.
    destruct (find_connection name st) as [[i c]|] eqn:Hc;
      [|left; by simplify_eq].
    right.
    assert (find_stream sid st = None →
            Raises (A := ()) (InvalidConfigurationException
                                (UnrecognizedStream sid)) st = Raises e st' →
            is_Some (Some (i, c))
            ∧ find_stream sid st = None
            ∧ e = InvalidConfigurationException (UnrecognizedStream sid))
      as Hunknown by (intros ? [= <- _]; eauto).
    assert (∀ r s, find_stream sid st = Some (r, s) →
            Connection.add_stream (streams_ st) r c
            = Ok (Connection.set_streams (Connection.streams_ c ++ [r]) c))
      as Hadd.
    { intros r s (Hr & _)%list_find_Some.
      eapply add_stream_supported; [done|].
      eapply Configured_streams; [done|]. by eapply list_elem_of_lookup_2. }
    case_decide as Hdir.
    + destruct (Configured_at_most_one_input st sid Hst) as (l & Hl & Hlen).
      rewrite Hl in Hrun. destruct l as [|first [|? ?]]; [| |simpl in Hlen; lia].
      * right. destruct (find_stream sid st) as [[r s]|] eqn:Hs; [|by apply Hunknown].
        by rewrite (Hadd r s) in Hrun.
      * left.
        destruct (stream_connections_valid _ _ _ _ _ first Hl) as [a Ha];
          [by left|].
        rewrite Ha in Hrun. injection Hrun as <- _.
        exists i, c, first, a. rewrite get_stream_connections_run, Hl. done.
    + right. destruct (find_stream sid st) as [[r s]|] eqn:Hs; [|by apply Hunknown].
      by rewrite (Hadd r s) in Hrun.
Qed.

Lemma configured_map_stream_witness :
  ∃ st', map_stream 7 "out1" Example.configured = Returns () st'
         ∧ Configured st'.
Proof.
  pose proof (configured_map_stream Example.configured 7 "out1"
                Configured_example) as Hmap.
  destruct (map_stream 7 "out1" Example.configured) as [[] st'|e st'] eqn:Hrun.
  - exists st'. split; [reflexivity | exact (proj1 Hmap)].
  - exfalso. vm_compute in Hrun. discriminate Hrun.
Defined.

Lemma connection_get_stream_defined heap c sid :
  Connection.streams_ c ≠ [] →
  ∃ stream, Connection.get_stream heap sid c = Ok stream.
Proof.
  intros Hne. unfold Connection.get_stream.
  destruct (Connection.streams_ c) as [|first rest] eqn:Hstreams; [done|].
  case_decide; [|by eauto].
  destruct (list_find _ _) as [[i stream]|]; eauto.
Qed.

(** X10.  Once [validate_configuration] has returned on a channel built by
    the configuration, every connection that its name designates has at
    least one stream bound, so that [Connection::get_stream] is defined on
    it; when the names of the connections are distinct this holds for every
    connection of the channel. *)
Theorem configured_validated_bound (st : t) :
  Configured st →
  validate_configuration st = Returns () st →
  (∀ name i c,
     find_connection name st = Some (i, c) →
     Connection.streams_ c ≠ []
     ∧ ∀ sid, ∃ stream,
         Connection.get_stream (streams_ st) sid c = Ok stream)
  ∧ (NoDup (names st) →
     ∀ c, c ∈ connections_ st → Connection.streams_ c ≠ []).
Proof.
  intros Hst Hvalid.
  destruct (Configured_bound st Hst) as [Hbound _].
  assert (∀ c, c ∈ connections_ st →
               ∃ sid, (Connection.get_name c, sid) ∈ channel_map_ st) as Hall.
  { destruct (validate_configuration_cases st) as [[_ Hall]|(c & _ & _ & Hrun)];
      [done | congruence]. }
  clear Hvalid. rename Hall into Hvalid.
  assert (∀ name i c, find_connection name st = Some (i, c) →
                      Connection.streams_ c ≠ []) as Hnonempty.
  { intros name i c Hfind Hempty.
    pose proof (Hbound name i c Hfind) as Hstreams.
    apply connection_streams_Ok in Hstreams as [Hlen _].
    pose proof (find_connection_Some _ _ _ _ Hfind) as [Hi Hname].
    destruct (Hvalid c) as [sid Hsid]; [by eapply list_elem_of_lookup_2|].
    rewrite Hname in Hsid.
    assert ((name, sid) ∈ left_equal_range name st) as Hin
      by (by apply list_elem_of_filter).
    rewrite Hempty in Hlen. simpl in Hlen.
    destruct (left_equal_range name st); [by apply elem_of_nil in Hin | done]. }
  split.
  - intros name i c Hfind. split; [by eapply Hnonempty|].
    intros sid. apply connection_get_stream_defined. by eapply Hnonempty.
  - intros Hnodup c [j Hj]%list_elem_of_lookup.
    destruct (find_connection_own st j c Hj) as [[i c'] Hfind].
    pose proof (find_connection_Some _ _ _ _ Hfind) as [Hi Hname].
    assert (i = j) as ->.
    { apply (NoDup_lookup (names st) i j (Connection.get_name c)); [done|..];
        unfold names; rewrite list_lookup_fmap.
      - rewrite Hi. simpl. by rewrite Hname.
      - by rewrite Hj. }
    assert (c' = c) as -> by congruence. by eapply Hnonempty.
Qed.

Lemma configured_validated_bound_witness :
  ∃ stream,
    Connection.get_stream (streams_ Example.configured) 42
      (Connection.set_streams [0%nat]
         (Connection.make ConnectionType.Tcp "out1" "localhost" 3001
            ConnectionMode.Server ConnectionDirection.Out)) = Ok stream.
Proof.
  destruct (configured_validated_bound Example.configured Configured_example)
    as [Hbound _]; [vm_compute; reflexivity|].
  destruct (Hbound "out1" 2%nat
              (Connection.set_streams [0%nat]
                 (Connection.make ConnectionType.Tcp "out1" "localhost" 3001
                    ConnectionMode.Server ConnectionDirection.Out)))
    as [_ Hget]; [vm_compute; reflexivity|].
  exact (Hget 42).
Defined.

(** * The read and write loops *)

Section KeepsData.
Variable initiated : Connection.t → ConnectionStatus.t.
Variable st0 : t.

Lemma keeps_data_refl : keeps_data st0 st0.
Proof. by repeat split. Qed.

Lemma keeps_data_emit st e :
  keeps_data st0 st → keeps_data st0 (set_trace (trace st ++ [e]) st).
Proof. by intros (? & ? & ? & ? & ?). Qed.

Lemma keeps_data_latch st name buffer latched latched' :
  connection_buffers_ st !! name = Some (buffer, latched) → keeps_data st0 st →
  keeps_data st0 (set_connection_buffers
                    (<[name := (buffer, latched')]> (connection_buffers_ st)) st).
Proof.
  intros Hname (Hqueues & ? & ? & ? & ?). repeat split; try done.
  intros n. simpl. rewrite <- Hqueues.
  destruct (decide (name = n)) as [->|Hne].
  - by rewrite lookup_insert_eq, Hname.
  - by rewrite lookup_insert_ne.
Qed.

Lemma keeps_data_status st connection c status :
  connections_ st !! connection = Some c → keeps_data st0 st →
  keeps_data st0 (set_connections
                    (<[connection := Connection.set_status status c]>
                       (connections_ st)) st).
Proof.
  intros Hc (? & ? & ? & ? & Hconnections). repeat split; try done.
  rewrite <- Hconnections. simpl. rewrite list_fmap_insert.
  apply list_insert_id. by rewrite list_lookup_fmap, Hc.
Qed.

Lemma keeps_data_get_connection_buffer name :
  invariant (keeps_data st0) (get_connection_buffer name).
Proof.
  apply (invariant_get_connection_buffer _ (λ _, True));
    eauto using keeps_data_emit, keeps_data_latch.
Qed.

Lemma keeps_data_open_connections :
  invariant (keeps_data st0) (open_connections initiated).
Proof.
  apply (invariant_open_connections _ _ (λ _, True));
    eauto using keeps_data_emit, keeps_data_status.
Qed.

Lemma keeps_data_async_read connection ec :
  invariant (keeps_data st0) (async_read initiated connection ec).
Proof.
  apply (invariant_async_read _ _ (λ _, True));
    eauto using keeps_data_emit, keeps_data_status.
Qed.

Lemma keeps_data_async_write connection ec :
  invariant (keeps_data st0) (async_write initiated connection ec).
Proof.
  apply (invariant_async_write _ _ (λ _, True));
    eauto using keeps_data_emit, keeps_data_latch, keeps_data_status.
Qed.

End KeepsData.

(** X11.  [async_read], [async_write], [open_connections] and
    [get_connection_buffer] neither queue nor dequeue a payload, touch no
    counter and change nothing of the configuration, whether they return
    or fail: only the trace, the overflow latches and the statuses of the
    connections can differ afterwards. *)
Theorem loops_keep_data
    (initiated : Connection.t → ConnectionStatus.t) (st : t)
    (connection : nat) (ec : error_code) (name : string) :
  keeps_data st (state_of (async_read initiated connection ec st))
  ∧ keeps_data st (state_of (async_write initiated connection ec st))
  ∧ keeps_data st (state_of (open_connections initiated st))
  ∧ keeps_data st (state_of (get_connection_buffer name st)).
Proof.
  split; [|split; [|split]].
  - apply keeps_data_async_read, keeps_data_refl.
  - apply keeps_data_async_write, keeps_data_refl.
  - apply keeps_data_open_connections, keeps_data_refl.
  - apply keeps_data_get_connection_buffer, keeps_data_refl.
Qed.

Section Loops.
Variable initiated : Connection.t → ConnectionStatus.t.

Lemma async_read_run connection ec st c :
  connections_ st !! connection = Some c →
  async_read initiated connection ec st =
  if negb (active_ st) then Returns () st
  else if failed ec
          && bool_decide (Connection.get_status c ≠ ConnectionStatus.Open)
  then
    Returns ()
      (set_trace
         ((trace st
           ++ [Log Warning (ConnectionNotReady (Connection.get_name c))])
          ++ openings 0 (connections_ st))
         (set_connections (opened initiated <$> connections_ st) st))
  else
    Returns ()
      (set_trace
         ((trace st
           ++ (if failed ec then [Log Warning (ErrorReceiving ec)] else []))
          ++ [AsyncReceive connection]) st).
Proof.
  intros Hc. unfold async_read. rewrite bind_run. unfold is_active at 1.
  rewrite bind_run. simpl. destruct (active_ st); simpl; [|done].
  rewrite bind_run, connection_at_run, Hc.
  destruct (failed ec && _) eqn:Hlost.
  - rewrite bind_run. unfold log at 1, emit at 1, modify at 1.
    by rewrite open_connections_spec.
  - destruct (failed ec); simpl; [done|].
    by rewrite (right_id_L [] (++)).
Qed.

Lemma async_write_run connection ec st c buffer latched :
  connections_ st !! connection = Some c →
  connection_buffers_ st !! Connection.get_name c = Some (buffer, latched) →
  async_write initiated connection ec st =
  if negb (active_ st) then Returns () st
  else if failed ec
          && bool_decide (Connection.get_status c ≠ ConnectionStatus.Open)
  then
    Returns ()
      (set_trace
         ((trace st
           ++ [Log Warning (ConnectionNotReady (Connection.get_name c))])
          ++ openings 0 (connections_ st))
         (set_connections (opened initiated <$> connections_ st) st))
  else
    let st1 :=
      set_connection_buffers
        (<[Connection.get_name c := (buffer, latched_after buffer latched)]>
           (connection_buffers_ st))
        (set_trace
           ((trace st
             ++ (if failed ec then [Log Warning (ErrorTransmitting ec)] else []))
            ++ overflow_warning (Connection.get_name c) buffer latched) st) in
    match PayloadBuffer.buffer_ buffer with
    | [] => Returns () (set_trace (trace st1 ++ [PostAsyncWrite connection ec]) st1)
    | payload :: _ =>
        match find_stream (stream_identifier payload) st with
        | None =>
            Raises (InvalidConfigurationException
                      (UnrecognizedStream (stream_identifier payload))) st1
        | Some (stream, s) =>
            Returns ()
              (set_trace
                 (trace st1
                  ++ [Log Trace
                        (TransmittingPayload (stream_identifier payload)
                           (Stream.payloads_transmitted s + 1)
                           (PayloadBuffer.size buffer)
                           (PayloadBuffer.capacity buffer));
                      AsyncTransmit connection payload stream]) st1)
        end
    end.
Proof.
  intros Hc Hbuffer. unfold async_write. rewrite bind_run. unfold is_active at 1.
  rewrite bind_run. simpl. destruct (active_ st); simpl; [|done].
  rewrite bind_run, connection_at_run, Hc.
  destruct (failed ec && _) eqn:Hlost.
  - rewrite bind_run. unfold log at 1, emit at 1, modify at 1.
    by rewrite open_connections_spec.
  - rewrite bind_run.
    set (st0 := set_trace
                  (trace st ++ (if failed ec
                                then [Log Warning (ErrorTransmitting ec)]
                                else [])) st).
    assert ((if failed ec then log Warning (ErrorTransmitting ec) else mret ()) st
            = Returns () st0) as ->.
    { unfold st0. destruct (failed ec); [done|]. by rewrite set_trace_nil. }
    rewrite bind_run, get_connection_buffer_run.
    change (connection_buffers_ st0) with (connection_buffers_ st).
    rewrite Hbuffer. rewrite bind_run, buffer_of_run. simpl.
    rewrite lookup_insert_eq.
    destruct buffer as [capacity [|payload rest]]; simpl; [done|].
    rewrite bind_run, get_stream_run.
    change (find_stream (stream_identifier payload) (set_connection_buffers _ _))
      with (find_stream (stream_identifier payload) st).
    destruct (find_stream (stream_identifier payload) st) as [[stream s]|] eqn:Hs;
      [|done].
    rewrite bind_run, stream_at_run. simpl.
    apply list_find_Some in Hs as (-> & _). simpl.
    unfold log, async_transmit, emit, modify. rewrite bind_run. simpl.
    by rewrite <- (assoc_L (++)).
Qed.

End Loops.

(** ** Counting the events of a kind *)

Lemma filter_openings (P : Event → bool) cs : ∀ k,
  (∀ level message, P (Log level message) = false) →
  (∀ i, P (AsyncConnect i) = false) →
  (∀ i, P (AsyncAccept i) = false) →
  filter (λ e, P e) (openings k cs) = [].
Proof.
  induction cs as [|c cs IHcs]; intros k Hlog Hconnect Haccept; [done|].
  cbn [openings]. rewrite filter_app, IHcs by done.
  unfold opening. case_decide; [|done].
  rewrite filter_cons_False by (rewrite Hlog; by intros []).
  case_decide.
  - by rewrite filter_cons_False by (rewrite Hconnect; by intros []).
  - by rewrite filter_cons_False by (rewrite Haccept; by intros []).
Qed.

Lemma filter_overflow_warning (P : Event → bool) name buffer latched :
  (∀ level message, P (Log level message) = false) →
  filter (λ e, P e) (overflow_warning name buffer latched) = [].
Proof.
  intros Hlog. unfold overflow_warning. destruct (_ && _); [|done].
  by rewrite filter_cons_False by (rewrite Hlog; by intros []).
Qed.

Lemma filter_logs (P : Event → bool) (b : bool) level message :
  (∀ level message, P (Log level message) = false) →
  filter (λ e, P e) (if b then [Log level message] else []) = [].
Proof.
  intros Hlog. destruct b; [|done].
  by rewrite filter_cons_False by (rewrite Hlog; by intros []).
Qed.

Lemma filter_cons_bool (P : Event → bool) e l :
  filter (λ e, P e) (e :: l)
  = if P e then e :: filter (λ e, P e) l else filter (λ e, P e) l.
Proof.
  destruct (P e) eqn:He.
  - by rewrite filter_cons_True by (by rewrite He).
  - by rewrite filter_cons_False by (rewrite He; by intros []).
Qed.

(** Splits a trace into its parts and drops the parts that hold no event
    of the kind counted. *)
Ltac count_events :=
  unfold receives, transmits, posts; simpl;
  repeat first
    [ rewrite filter_app
    | rewrite filter_openings by done
    | rewrite filter_overflow_warning by done
    | rewrite filter_logs by done
    | rewrite filter_cons_bool; simpl
    | rewrite filter_nil
    | rewrite (right_id_L [] (++))
    | match goal with
      | |- context [filter _ (if ?b then _ else _)] => destruct b
      end ];
  try done.

Section LoopSteps.
Variable initiated : Connection.t → ConnectionStatus.t.

(** X12.  [async_read] always returns on an existing connection.  It arms
    exactly one receive on the connection when the channel is active and
    the completion carries no error or the connection is still Open, and
    none otherwise: on an inactive channel it does nothing at all, and after
    an error on a connection that is not Open it logs a warning and runs
    [open_connections] instead. *)
Theorem async_read_arms
    (st : t) (connection : nat) (ec : error_code) (c : Connection.t) :
  connections_ st !! connection = Some c →
  ∃ st',
    async_read initiated connection ec st = Returns () st'
    ∧ receives (trace st')
      = receives (trace st)
        ++ (if active_ st
               && (negb (failed ec)
                   || bool_decide (Connection.get_status c
                                   = ConnectionStatus.Open))
            then [AsyncReceive connection] else [])
    ∧ (active_ st = false → st' = st)
    ∧ (active_ st = true → failed ec = true →
       Connection.get_status c ≠ ConnectionStatus.Open →
       open_connections initiated
         (set_trace
            (trace st
             ++ [Log Warning (ConnectionNotReady (Connection.get_name c))]) st)
       = Returns () st').
Proof.
  intros Hc. rewrite (async_read_run initiated connection ec st c Hc).
  destruct (active_ st) eqn:Hactive; simpl.
  - destruct (failed ec) eqn:Hec; simpl.
    + destruct (decide (Connection.get_status c = ConnectionStatus.Open))
        as [Hopen|Hnot].
      * rewrite bool_decide_eq_false_2 by (intros Hne; by apply Hne).
        rewrite bool_decide_eq_true_2 by done.
        eexists. split; [done|]. split; [by count_events|]. split; [done|].
        by intros _ _ Hne.
      * rewrite bool_decide_eq_true_2 by done.
        rewrite bool_decide_eq_false_2 by done.
        eexists. split; [done|]. split; [by count_events|]. split; [done|].
        intros _ _ _. by rewrite open_connections_spec.
    + eexists. split; [done|]. split; [by count_events|]. done.
  - exists st. split; [done|]. split; [by rewrite (right_id_L [] (++))|]. done.
Qed.

(** X13.  One turn of the write loop.  [async_write] does nothing on an
    inactive channel and, after an error on a connection that is not Open,
    initiates no transmission and posts no task.  Otherwise it posts itself
    again when the buffer of the connection is empty, and when it is not it
    initiates the transmission of the head of the buffer, and of nothing
    else, leaving the head in the buffer; if the stream of the head is not
    registered it throws instead. *)
Theorem async_write_step
    (st : t) (connection : nat) (ec : error_code) (c : Connection.t)
    (buffer : PayloadBuffer.t) (latched : bool) :
  connections_ st !! connection = Some c →
  connection_buffers_ st !! Connection.get_name c = Some (buffer, latched) →
  let proceeds :=
    active_ st
    && (negb (failed ec)
        || bool_decide (Connection.get_status c = ConnectionStatus.Open)) in
  let st' := state_of (async_write initiated connection ec st) in
  queued st' (Connection.get_name c) = Some (PayloadBuffer.buffer_ buffer)
  ∧ (active_ st = false → async_write initiated connection ec st = Returns () st)
  ∧ (proceeds = false →
     transmits (trace st') = transmits (trace st)
     ∧ posts (trace st') = posts (trace st))
  ∧ (proceeds = true →
     match PayloadBuffer.buffer_ buffer with
     | [] =>
         async_write initiated connection ec st = Returns () st'
         ∧ transmits (trace st') = transmits (trace st)
         ∧ posts (trace st')
           = posts (trace st) ++ [PostAsyncWrite connection ec]
     | payload :: _ =>
         posts (trace st') = posts (trace st)
         ∧ match find_stream (stream_identifier payload) st with
           | Some (stream, _) =>
               async_write initiated connection ec st = Returns () st'
               ∧ transmits (trace st')
                 = transmits (trace st)
                   ++ [AsyncTransmit connection payload stream]
           | None =>
               async_write initiated connection ec st
               = Raises (InvalidConfigurationException
                           (UnrecognizedStream (stream_identifier payload))) st'
               ∧ transmits (trace st') = transmits (trace st)
           end
     end).
Proof.
  intros Hc Hbuffer proceeds st'. split.
  - pose proof (keeps_data_async_write initiated st connection ec st
                  (keeps_data_refl st)) as (Hqueues & _).
    unfold queued. fold st' in Hqueues.
    specialize (Hqueues (Connection.get_name c)). rewrite Hbuffer in Hqueues.
    destruct (connection_buffers_ st' !! Connection.get_name c) as [[b l]|];
      simplify_eq/=; done.
  - unfold st', proceeds.
    rewrite (async_write_run initiated connection ec st c buffer latched Hc Hbuffer).
    destruct (active_ st); simpl; [|by repeat split].
    split; [done|].
    destruct (failed ec) eqn:Hec; simpl.
    + destruct (decide (Connection.get_status c = ConnectionStatus.Open))
        as [Hopen|Hnot].
      * rewrite (bool_decide_eq_false_2
                   (Connection.get_status c ≠ ConnectionStatus.Open))
          by (intros Hne; by apply Hne).
        rewrite (bool_decide_eq_true_2
                   (Connection.get_status c = ConnectionStatus.Open)) by done.
        split; [done|]. intros _.
        destruct (PayloadBuffer.buffer_ buffer) as [|payload rest].
        { simpl. split; [done|]. split; by count_events. }
        destruct (find_stream (stream_identifier payload) st) as [[stream s]|];
          simpl; (split; [by count_events|]); split; try done; by count_events.
      * rewrite (bool_decide_eq_true_2
                   (Connection.get_status c ≠ ConnectionStatus.Open)) by done.
        rewrite (bool_decide_eq_false_2
                   (Connection.get_status c = ConnectionStatus.Open)) by done.
        simpl. split; [|done]. intros _. split; by count_events.
    + split; [done|]. intros _.
      destruct (PayloadBuffer.buffer_ buffer) as [|payload rest].
      { simpl. split; [done|]. split; by count_events. }
      destruct (find_stream (stream_identifier payload) st) as [[stream s]|];
        simpl; (split; [by count_events|]); split; try done; by count_events.
Qed.

End LoopSteps.

Lemma async_read_arms_witness :
  ∃ st',
    async_read Example.pending 0 5 Example.all_open = Returns () st'
    ∧ receives (trace st') = [AsyncReceive 0].
Proof.
  destruct (async_read_arms Example.pending Example.all_open 0 5
              (Connection.set_status ConnectionStatus.Open
                 (Connection.set_streams [0%nat]
                    (Connection.make ConnectionType.Tcp "in0" "localhost"
                       2000 ConnectionMode.Server ConnectionDirection.In))))
    as (st' & Hrun & Hreceives & _); [reflexivity|].
  exists st'. split; [exact Hrun | exact Hreceives].
Defined.


Lemma async_write_step_witness :
  transmits
    (trace (state_of (async_write Example.pending 1 0 Example.transmitting)))
  = [AsyncTransmit 1 (Example.video 1) 0].
Proof.
  destruct (async_write_step Example.pending Example.transmitting 1 0
              (Connection.set_status ConnectionStatus.Open
                 (Connection.set_streams [0%nat]
                    (Connection.make ConnectionType.Tcp "out0" "localhost"
                       3000 ConnectionMode.Client ConnectionDirection.Out)))
              {| PayloadBuffer.capacity := 4;
                 PayloadBuffer.buffer_ := [Example.video 1] |} false)
    as (_ & _ & _ & Hstep); [reflexivity | vm_compute; reflexivity |].
  destruct (Hstep eq_refl) as (_ & _ & Htransmits). exact Htransmits.
Defined.

(** * The completion of a transmission *)

Lemma find_stream_by_ids sid st :
  fst <$> find_stream sid st
  = fst <$> list_find (λ i, i = sid) (Stream.id <$> streams_ st).
Proof.
  unfold find_stream. rewrite list_find_fmap.
  by destruct (list_find _ _) as [[]|].
Qed.

Lemma find_stream_counted sid st stream s s' v :
  streams_ st !! stream = Some s → Stream.id s' = Stream.id s →
  streams_ v = <[stream := s']> (streams_ st) →
  fst <$> find_stream sid v = fst <$> find_stream sid st.
Proof.
  intros Hs Hid Hv. rewrite !find_stream_by_ids, Hv, list_fmap_insert, Hid.
  rewrite list_insert_id; [done|]. by rewrite list_lookup_fmap, Hs.
Qed.

Section Transmitted.
Variable initiated : Connection.t → ConnectionStatus.t.

(** [write_complete] up to its last call: the counters, the latch, the head
    of the buffer removed, the line logged on success. *)
Lemma write_complete_run connection stream ec st c buffer latched s :
  connections_ st !! connection = Some c →
  connection_buffers_ st !! Connection.get_name c = Some (buffer, latched) →
  streams_ st !! stream = Some s →
  write_complete initiated connection stream ec st
  = async_write initiated connection ec
      (set_trace
         ((trace st ++ overflow_warning (Connection.get_name c) buffer latched)
          ++ (if failed ec then []
              else [Log Debug
                      (TransmittedPayload (Stream.id s)
                         (Stream.payloads_transmitted s + 1)
                         (PayloadBuffer.size (PayloadBuffer.pop_front buffer))
                         (PayloadBuffer.capacity buffer))]))
         (set_connection_buffers
            (<[Connection.get_name c :=
                 (PayloadBuffer.pop_front buffer, latched_after buffer latched)]>
               (connection_buffers_ st))
            (set_streams
               (<[stream := if failed ec
                            then (Stream.payload_error
                                    (Stream.transmitted_payload s).2).2
                            else (Stream.transmitted_payload s).2]>
                  (streams_ st)) st))).
Proof.
  intros Hc Hbuffer Hs. unfold write_complete, transmitted_payload.
  rewrite bind_run, on_stream_run, Hs.
  assert (stream < length (streams_ st))%nat as Hlt by (by eapply lookup_lt_Some).
  rewrite bind_run.
  set (counted := if failed ec
                  then (Stream.payload_error (Stream.transmitted_payload s).2).2
                  else (Stream.transmitted_payload s).2).
  set (st1 := set_streams (<[stream := counted]> (streams_ st)) st).
  assert ((if failed ec then payload_error stream ;; mret () else mret ())
            (set_streams
               (<[stream := (Stream.transmitted_payload s).2]> (streams_ st)) st)
          = Returns () st1) as ->.
  { unfold st1, counted. destruct (failed ec); [|done].
    unfold payload_error. rewrite bind_run, on_stream_run. simpl.
    rewrite list_lookup_insert_eq by done. simpl.
    by rewrite list_insert_insert_eq. }
  rewrite bind_run, connection_at_run.
  change (connections_ st1) with (connections_ st). rewrite Hc.
  rewrite bind_run, get_connection_buffer_run.
  change (connection_buffers_ st1) with (connection_buffers_ st).
  rewrite Hbuffer. rewrite bind_run. unfold on_buffer at 1, modify at 1.
  cbn [connection_buffers_ set_connection_buffers set_trace].
  rewrite alter_insert_eq. cbn [fst snd].
  rewrite bind_run. f_equal.
  destruct (failed ec) eqn:Hec; cbn [negb].
  - cbn [mret action_ret]. unfold st1, counted.
    destruct st. unfold set_trace, set_connection_buffers, set_streams. simpl.
    by rewrite !(right_id_L [] (++)).
  - rewrite bind_run, stream_at_run. simpl.
    rewrite list_lookup_insert_eq by done.
    rewrite bind_run, buffer_of_run. simpl. rewrite lookup_insert_eq.
    unfold st1, counted.
    destruct st. unfold set_trace, set_connection_buffers, set_streams. simpl.
    done.
Qed.

(** X14.  [write_complete] removes the head of the buffer of the connection
    whether or not the transmission failed, and hands the loop the rest: on
    an active channel, unless the completion carries an error and the
    connection is no longer Open, the next transmission initiated is that of
    the payload that followed the head, so payloads leave in the order in
    which they were queued; when nothing is left the write task is posted
    again.  On an inactive channel, or after an error on a connection that
    is not Open, the head is still removed and the loop stops: nothing is
    transmitted and nothing is posted. *)
Theorem write_complete_next
    (st : t) (connection stream : nat) (ec : error_code) (c : Connection.t)
    (buffer : PayloadBuffer.t) (latched : bool) (s : Stream.t) :
  connections_ st !! connection = Some c →
  connection_buffers_ st !! Connection.get_name c = Some (buffer, latched) →
  streams_ st !! stream = Some s →
  let proceeds :=
    active_ st
    && (negb (failed ec)
        || bool_decide (Connection.get_status c = ConnectionStatus.Open)) in
  let st' := state_of (write_complete initiated connection stream ec st) in
  queued st' (Connection.get_name c)
  = Some (tail (PayloadBuffer.buffer_ buffer))
  ∧ (proceeds = false →
     write_complete initiated connection stream ec st = Returns () st'
     ∧ transmits (trace st') = transmits (trace st)
     ∧ posts (trace st') = posts (trace st))
  ∧ (proceeds = true →
     match tail (PayloadBuffer.buffer_ buffer) with
     | [] =>
         write_complete initiated connection stream ec st = Returns () st'
         ∧ transmits (trace st') = transmits (trace st)
         ∧ posts (trace st')
           = posts (trace st) ++ [PostAsyncWrite connection ec]
     | next :: _ =>
         posts (trace st') = posts (trace st)
         ∧ match fst <$> find_stream (stream_identifier next) st with
           | Some next_stream =>
               write_complete initiated connection stream ec st
               = Returns () st'
               ∧ transmits (trace st')
                 = transmits (trace st)
                   ++ [AsyncTransmit connection next next_stream]
           | None =>
               write_complete initiated connection stream ec st
               = Raises (InvalidConfigurationException
                           (UnrecognizedStream (stream_identifier next))) st'
               ∧ transmits (trace st') = transmits (trace st)
           end
     end).
Proof.
  intros Hc Hbuffer Hs proceeds st'. unfold st', proceeds.
  rewrite (write_complete_run connection stream ec st c buffer latched s)
    by done.
  set (st3 := set_trace _ _).
  assert (connection_buffers_ st3 !! Connection.get_name c
          = Some (PayloadBuffer.pop_front buffer, latched_after buffer latched))
    as Hbuffer3 by (unfold st3; simpl; by rewrite lookup_insert_eq).
  assert (∀ sid, fst <$> find_stream sid st3 = fst <$> find_stream sid st)
    as Hfind.
  { intros sid. eapply (find_stream_counted sid st stream s); [done| |done].
    by destruct (failed ec). }
  split.
  - pose proof (keeps_data_async_write initiated st3 connection ec st3
                  (keeps_data_refl st3)) as (Hqueues & _).
    unfold queued. specialize (Hqueues (Connection.get_name c)).
    rewrite Hbuffer3 in Hqueues.
    destruct (connection_buffers_
                (state_of (async_write initiated connection ec st3))
                !! Connection.get_name c) as [[b l]|];
      simplify_eq/=; done.
  - rewrite (async_write_run initiated connection ec st3 c
               (PayloadBuffer.pop_front buffer) (latched_after buffer latched))
      by done.
    change (active_ st3) with (active_ st).
    change (PayloadBuffer.buffer_ (PayloadBuffer.pop_front buffer))
      with (tail (PayloadBuffer.buffer_ buffer)).
    assert (transmits (trace st3) = transmits (trace st)) as Htransmits
      by (unfold st3; destruct (failed ec); by count_events).
    assert (posts (trace st3) = posts (trace st)) as Hposts
      by (unfold st3; destruct (failed ec); by count_events).
    destruct (active_ st); simpl; [|by repeat split].
    assert (∀ warned : bool,
      let st4 :=
        set_connection_buffers
          (<[Connection.get_name c :=
               (PayloadBuffer.pop_front buffer,
                latched_after (PayloadBuffer.pop_front buffer)
                  (latched_after buffer latched))]> (connection_buffers_ st3))
          (set_trace
             ((trace st3
               ++ (if warned then [Log Warning (ErrorTransmitting ec)] else []))
              ++ overflow_warning (Connection.get_name c)
                   (PayloadBuffer.pop_front buffer)
                   (latched_after buffer latched)) st3) in
      match tail (PayloadBuffer.buffer_ buffer) with
      | [] =>
          transmits (trace (set_trace
                              (trace st4 ++ [PostAsyncWrite connection ec]) st4))
          = transmits (trace st)
          ∧ posts (trace (set_trace
                            (trace st4 ++ [PostAsyncWrite connection ec]) st4))
            = posts (trace st) ++ [PostAsyncWrite connection ec]
      | next :: _ =>
          posts (trace st4) = posts (trace st)
          ∧ transmits (trace st4) = transmits (trace st)
      end) as Hcount.
    { intros warned st4. destruct (tail _); unfold st4; simpl;
        split; count_events; by rewrite ?Htransmits, ?Hposts. }
    destruct (failed ec) eqn:Hec; simpl.
    + destruct (decide (Connection.get_status c = ConnectionStatus.Open))
        as [Hopen|Hnot].
      * rewrite (bool_decide_eq_false_2
                   (Connection.get_status c ≠ ConnectionStatus.Open))
          by (intros Hne; by apply Hne).
        rewrite (bool_decide_eq_true_2
                   (Connection.get_status c = ConnectionStatus.Open)) by done.
        split; [done|]. intros _. specialize (Hcount true). simpl in Hcount.
        destruct (tail (PayloadBuffer.buffer_ buffer)) as [|next rest].
        { simpl. split; [done|]. exact Hcount. }
        destruct Hcount as [Hposts4 Htransmits4].
        specialize (Hfind (stream_identifier next)).
        destruct (find_stream (stream_identifier next) st3) as [[r x]|],
          (find_stream (stream_identifier next) st) as [[r' x']|];
          simplify_eq/=.
        -- split; [by count_events|]. split; [done|].
           count_events; by rewrite ?Htransmits4.
        -- split; [done|]. split; [done|]. done.
      * rewrite (bool_decide_eq_true_2
                   (Connection.get_status c ≠ ConnectionStatus.Open)) by done.
        rewrite (bool_decide_eq_false_2
                   (Connection.get_status c = ConnectionStatus.Open)) by done.
        simpl. split; [|done]. intros _. split; [done|].
        split; count_events; by rewrite ?Htransmits, ?Hposts.
    + split; [done|]. intros _. specialize (Hcount false). simpl in Hcount.
      destruct (tail (PayloadBuffer.buffer_ buffer)) as [|next rest].
      { simpl. split; [done|]. exact Hcount. }
      destruct Hcount as [Hposts4 Htransmits4].
      specialize (Hfind (stream_identifier next)).
      destruct (find_stream (stream_identifier next) st3) as [[r x]|],
        (find_stream (stream_identifier next) st) as [[r' x']|];
        simplify_eq/=.
      * split; [by count_events|]. split; [done|].
        count_events; by rewrite ?Htransmits4.
      * split; [done|]. split; [done|]. done.
Qed.

End Transmitted.

Lemma write_complete_next_witness :
  queued
    (state_of (write_complete Example.pending 2 0 0 Example.draining)) "out1"
  = Some (Example.video <$> [4; 5; 6; 7; 8; 9; 10])
  ∧ transmits
      (trace (state_of (write_complete Example.pending 2 0 0 Example.draining)))
    = [AsyncTransmit 2 (Example.video 4) 0].
Proof.
  destruct (write_complete_next Example.pending Example.draining 2 0 0
              (Connection.set_status ConnectionStatus.Open
                 (Connection.set_streams [0%nat]
                    (Connection.make ConnectionType.Tcp "out1" "localhost"
                       3001 ConnectionMode.Server ConnectionDirection.Out)))
              {| PayloadBuffer.capacity := 10;
                 PayloadBuffer.buffer_ :=
                   Example.video <$> [3; 4; 5; 6; 7; 8; 9; 10] |} true
              (Stream.make 100 PayloadType.Video))
    as (Hqueued & _ & Hstep);
    [reflexivity | vm_compute; reflexivity | reflexivity |].
  split; [exact Hqueued|].
  destruct (Hstep eq_refl) as (_ & _ & Htransmits). exact Htransmits.
Defined.

(** * Shutdown *)

Section ShutdownLoop.
Variable disconnect_error : Connection.t → error_code.

Lemma disconnect_loop post : ∀ pre st,
  connections_ st = pre ++ post →
  disconnect_all disconnect_error (seq (length pre) (length post)) st
  = Returns (closing disconnect_error <$> post)
      (set_connections (pre ++ (Connection.disconnect <$> post)) st).
Proof.
  induction post as [|c post IHpost]; intros pre st Hcs; simpl.
  - destruct st; unfold set_connections; simpl in *.
    by rewrite (right_id_L [] (++)), Hcs, (right_id_L [] (++)).
  - rewrite bind_run, connection_at_run, Hcs, list_lookup_middle by done.
    rewrite bind_run. unfold disconnect at 1.
    rewrite bind_run, connection_at_run, Hcs, list_lookup_middle by done.
    rewrite bind_run. unfold modify at 1. simpl.
    rewrite bind_run, Hcs, list_insert_middle.
    specialize (IHpost (pre ++ [Connection.disconnect c])).
    rewrite length_app in IHpost. simpl in IHpost.
    rewrite Nat.add_1_r in IHpost. rewrite IHpost.
    + destruct st; unfold set_connections; simpl.
      by rewrite <- !(assoc_L (++)).
    + simpl. by rewrite <- (assoc_L (++)).
Qed.

End ShutdownLoop.

(** X15.  [shutdown] on a running channel returns, having made the channel
    inactive and closed every connection, whatever the disconnections
    report; it logs that it shuts down, then one line for each connection
    in the order of their addition, and stops the executor last.  The
    buffers, the streams and the channel map are as they were.  After it
    [shutdown] does nothing at all, and neither do [async_read] and
    [async_write]: the loops end at their next turn. *)
Theorem shutdown_closes
    (disconnect_error : Connection.t → error_code) (st : t) :
  active_ st = true →
  let st' :=
    set_connections (Connection.disconnect <$> connections_ st)
      (set_active false st) in
  shutdown disconnect_error st
  = Returns (ShuttingDown
               :: (closing disconnect_error <$> connections_ st) ++ [IoStop])
      st'
  ∧ (∀ c, c ∈ connections_ st' →
          Connection.get_status c = ConnectionStatus.Closed)
  ∧ shutdown disconnect_error st' = Returns [] st'
  ∧ (∀ initiated connection ec,
       async_read initiated connection ec st' = Returns () st'
       ∧ async_write initiated connection ec st' = Returns () st').
Proof.
  intros Hactive st'. split; [|split; [|split]].
  - unfold shutdown. rewrite (bind_Returns get _ st st st eq_refl).
    rewrite Hactive. cbn [negb]. rewrite bind_run. unfold modify at 1.
    erewrite bind_Returns
      by exact (disconnect_loop disconnect_error (connections_ st) []
                  (set_active false st) eq_refl).
    done.
  - intros c (c0 & -> & _)%list_elem_of_fmap. done.
  - unfold shutdown. by rewrite (bind_Returns get _ st' st' st' eq_refl).
  - intros initiated connection ec. split.
    + unfold async_read. rewrite bind_run. unfold is_active at 1.
      by rewrite (bind_Returns get _ st' st' st' eq_refl).
    + unfold async_write. rewrite bind_run. unfold is_active at 1.
      by rewrite (bind_Returns get _ st' st' st' eq_refl).
Qed.

Lemma shutdown_closes_witness :
  active_ (state_of (shutdown (λ _, 0) Example.all_open)) = false
  ∧ shutdown (λ _, 0) (state_of (shutdown (λ _, 0) Example.all_open))
    = Returns [] (state_of (shutdown (λ _, 0) Example.all_open)).
Proof.
  destruct (shutdown_closes (λ _, 0) Example.all_open eq_refl)
    as (Hrun & _ & Hagain & _).
  rewrite Hrun. split; [reflexivity | exact Hagain].
Defined.

(** * The invocations of the channel handler *)

Section SameHandled.
Variable initiated : Connection.t → ConnectionStatus.t.
Variable st0 : t.

Lemma same_handled_emit st e :
  is_handler e = false → same_handled st0 st →
  same_handled st0 (set_trace (trace st ++ [e]) st).
Proof.
  unfold same_handled, handled. intros He <-. simpl.
  rewrite filter_app, filter_cons_bool, He, filter_nil.
  by rewrite (right_id_L [] (++)).
Qed.

Lemma same_handled_log level message :
  invariant (same_handled st0) (log level message).
Proof.
  apply (invariant_log _ (λ e, is_handler e = false));
    eauto using same_handled_emit.
Qed.

Lemma same_handled_async_receive connection :
  invariant (same_handled st0) (async_receive connection).
Proof.
  apply (invariant_emit _ (λ e, is_handler e = false));
    eauto using same_handled_emit.
Qed.

Lemma same_handled_get_connection_buffer name :
  invariant (same_handled st0) (get_connection_buffer name).
Proof.
  apply (invariant_get_connection_buffer _ (λ e, is_handler e = false));
    eauto using same_handled_emit.
Qed.

Lemma same_handled_on_buffer name method :
  invariant (same_handled st0) (on_buffer name method).
Proof. by apply invariant_on_buffer. Qed.

Lemma same_handled_open_connections :
  invariant (same_handled st0) (open_connections initiated).
Proof.
  apply (invariant_open_connections _ _ (λ e, is_handler e = false));
    eauto using same_handled_emit.
Qed.

Lemma same_handled_async_read connection ec :
  invariant (same_handled st0) (async_read initiated connection ec).
Proof.
  apply (invariant_async_read _ _ (λ e, is_handler e = false));
    eauto using same_handled_emit.
Qed.

Lemma same_handled_async_write connection ec :
  invariant (same_handled st0) (async_write initiated connection ec).
Proof.
  apply (invariant_async_write _ _ (λ e, is_handler e = false));
    eauto using same_handled_emit.
Qed.

Lemma same_handled_write_complete connection stream ec :
  invariant (same_handled st0) (write_complete initiated connection stream ec).
Proof.
  apply (invariant_write_complete _ _ (λ e, is_handler e = false));
    eauto using same_handled_emit.
Qed.

Lemma same_handled_read_complete connection ec payload :
  invariant (same_handled st0) (read_complete initiated connection ec payload).
Proof.
  apply (invariant_read_complete _ _ (λ e, is_handler e = false));
    eauto using same_handled_emit.
Qed.

(** The completion of an opening that succeeded. *)
Lemma same_handled_established connection c :
  invariant (same_handled st0)
    (log Info (ConnectionEstablished (Connection.get_name c)) ;;
     active ← is_active;
     if active && bool_decide (ConnectionDirection.In = Connection.get_direction c)
     then
       (if decide (Connection.get_type c ≠ ConnectionType.Cdi) then
          async_read initiated connection 0
        else
          async_receive connection) ;;
       streams ← get_connection_streams (Connection.get_name c);
       for_each streams (λ stream,
         s ← stream_at stream;
         outputs ← get_stream_connections (Stream.id s) ConnectionDirection.Out;
         for_each outputs (λ output,
           o ← connection_at output;
           get_connection_buffer (Connection.get_name o) ;;
           on_buffer (Connection.get_name o) PayloadBuffer.clear))
     else
       async_write initiated connection 0).
Proof.
  repeat invariant_step;
    eauto using same_handled_log, same_handled_async_receive,
      same_handled_async_read, same_handled_async_write,
      same_handled_get_connection_buffer, same_handled_on_buffer.
Qed.

End SameHandled.

(** X16.  The channel handler is invoked by the completion of an opening
    that failed, once and with the error of the completion, and by nothing
    else: not by the completion of an opening that succeeded, and not by
    [read_complete], [write_complete], [async_read], [async_write] or
    [open_connections], which are all handed the handler and never call it,
    whatever error they are given and whether they return or throw. *)
Theorem handler_only_on_connection_failure
    (initiated : Connection.t → ConnectionStatus.t) (st : t)
    (connection : nat) (c : Connection.t) :
  connections_ st !! connection = Some c →
  (∀ ec,
     handled (trace (state_of (connection_handler initiated connection ec st)))
     = handled (trace st) ++ (if failed ec then [Handler ec] else []))
  ∧ (∀ input ec payload,
       handled (trace (state_of (read_complete initiated input ec payload st)))
       = handled (trace st))
  ∧ (∀ output stream ec,
       handled (trace (state_of
                         (write_complete initiated output stream ec st)))
       = handled (trace st))
  ∧ (∀ input ec,
       handled (trace (state_of (async_read initiated input ec st)))
       = handled (trace st))
  ∧ (∀ output ec,
       handled (trace (state_of (async_write initiated output ec st)))
       = handled (trace st))
  ∧ handled (trace (state_of (open_connections initiated st)))
    = handled (trace st).
Proof.
  intros Hc. split; [|split; [|split; [|split; [|split]]]].
  - intros ec. unfold connection_handler.
    rewrite bind_run, connection_at_run, Hc.
    destruct (failed ec); cbn [negb].
    + unfold handled. simpl.
      rewrite !filter_app, !filter_cons_bool, filter_nil. simpl.
      by rewrite (right_id_L [] (++)).
    + rewrite (right_id_L [] (++)).
      apply (same_handled_established initiated st connection c st).
      done.
  - intros input ec payload.
    by apply (same_handled_read_complete initiated st input ec payload st).
  - intros output stream ec.
    by apply (same_handled_write_complete initiated st output stream ec st).
  - intros input ec.
    by apply (same_handled_async_read initiated st input ec st).
  - intros output ec.
    by apply (same_handled_async_write initiated st output ec st).
  - by apply (same_handled_open_connections initiated st st).
Qed.

Lemma handler_only_on_connection_failure_witness :
  handled (trace (state_of (connection_handler Example.pending 1 5
                              Example.all_open)))
  = [Handler 5]
  ∧ handled (trace (state_of (connection_handler Example.pending 1 0
                                Example.all_open)))
    = [].
Proof.
  destruct (handler_only_on_connection_failure Example.pending
              Example.all_open 1
              (Connection.set_status ConnectionStatus.Open
                 (Connection.set_streams [0%nat]
                    (Connection.make ConnectionType.Tcp "out0" "localhost"
                       3000 ConnectionMode.Client ConnectionDirection.Out)))
              eq_refl) as (Hhandler & _).
  split; [exact (Hhandler 5) | exact (Hhandler 0)].
Defined.

(** * Repeated calls of [open_connections] *)

(** X17.  [open_connections] may be called again and again while the
    connections are being opened, as [read_complete] does for every payload
    of a stream with an output that is not Open: provided that the transport
    takes a connection out of [Closed] when a dial or an accept is initiated
    on it, the first call leaves no connection [Closed], and a call that
    follows it initiates nothing, logs nothing and changes nothing. *)
Theorem open_connections_idempotent
    (initiated : Connection.t → ConnectionStatus.t) (st : t) :
  (∀ c, c ∈ connections_ st →
        Connection.get_status c = ConnectionStatus.Closed →
        initiated c ≠ ConnectionStatus.Closed) →
  let st' := state_of (open_connections initiated st) in
  (∀ c, c ∈ connections_ st' →
        Connection.get_status c ≠ ConnectionStatus.Closed)
  ∧ open_connections initiated st' = Returns () st'.
Proof.
  intros Hleft st'. unfold st'. rewrite open_connections_spec. simpl.
  assert (∀ c, c ∈ opened initiated <$> connections_ st →
               Connection.get_status c ≠ ConnectionStatus.Closed) as Hopened.
  { intros c (c0 & -> & Hc0)%list_elem_of_fmap. unfold opened.
    case_decide as Hclosed; [|done]. simpl. by apply Hleft. }
  split; [done|].
  rewrite open_connections_spec. simpl.
  destruct (openings_none initiated _ 0%nat Hopened) as [-> ->].
  f_equal. destruct st. unfold set_trace, set_connections. simpl.
  by rewrite (right_id_L [] (++)).
Qed.

Lemma open_connections_idempotent_witness :
  open_connections Example.pending
    (state_of (open_connections Example.pending Example.configured))
  = Returns () (state_of (open_connections Example.pending Example.configured)).
Proof.
  apply (open_connections_idempotent Example.pending Example.configured).
  intros c _ _. discriminate.
Defined.

(** * Completions of a receive that forward nothing *)

Lemma keeps_data_resume initiated st0 connection ec :
  invariant (keeps_data st0)
    (c ← connection_at connection;
     if decide (Connection.get_type c ≠ ConnectionType.Cdi)
     then async_read initiated connection ec else mret ()).
Proof. repeat invariant_step; eauto using keeps_data_async_read. Qed.

(** X18.  [read_complete] looks the stream of the payload up first: for a
    payload of a stream that is not registered it throws at once, with the
    channel as it was, so that nothing is counted or queued and the read
    loop is not resumed.  When the completion carries an error, the payload
    is counted as received and as an error on its stream and is queued
    nowhere: every buffer holds what it held, whether or not the resumption
    of the read loop then succeeds. *)
Theorem read_complete_discards
    (initiated : Connection.t → ConnectionStatus.t) (st : t)
    (connection : nat) (ec : error_code) (payload : Payload) :
  let st' := state_of (read_complete initiated connection ec payload st) in
  (find_stream (stream_identifier payload) st = None →
   read_complete initiated connection ec payload st
   = Raises (InvalidConfigurationException
               (UnrecognizedStream (stream_identifier payload))) st)
  ∧ (∀ stream s,
       find_stream (stream_identifier payload) st = Some (stream, s) →
       failed ec = true →
       (∃ s', streams_ st' = <[stream := s']> (streams_ st)
              ∧ Stream.id s' = Stream.id s
              ∧ Stream.payloads_received s' = Stream.payloads_received s + 1
              ∧ Stream.payload_errors s' = Stream.payload_errors s + 1
              ∧ Stream.payloads_transmitted s' = Stream.payloads_transmitted s)
       ∧ (∀ name, queued st' name = queued st name)
       ∧ channel_map_ st' = channel_map_ st).
Proof.
  intros st'. split.
  - intros Hfind. unfold read_complete.
    by rewrite bind_run, get_stream_run, Hfind.
  - intros stream s Hfind Hec. unfold st'.
    rewrite (read_complete_error initiated connection ec payload st stream s)
      by done.
    set (st1 := set_streams _ st).
    destruct (keeps_data_resume initiated st1 connection ec st1
                (keeps_data_refl st1)) as (Hqueues & -> & -> & _).
    split; [|split; [|done]].
    + eexists. split; [done|]. done.
    + intros name. unfold queued.
      specialize (Hqueues name). simpl in Hqueues.
      change (connection_buffers_ st1) with (connection_buffers_ st) in *.
      destruct (connection_buffers_ _ !! name) as [[b l]|],
        (connection_buffers_ st !! name) as [[b0 l0]|]; simplify_eq/=; done.
Qed.

Lemma read_complete_discards_witness :
  read_complete Example.pending 0 0
    {| stream_identifier := 9; sequence := 1; get_size := 1024 |}
    Example.all_open
  = Raises (InvalidConfigurationException (UnrecognizedStream 9))
      Example.all_open
  ∧ queued (state_of (read_complete Example.pending 0 5 (Example.video 1)
                        Example.all_open)) "out0"
    = queued Example.all_open "out0".
Proof.
  split.
  - apply (read_complete_discards Example.pending Example.all_open 0 0
             {| stream_identifier := 9; sequence := 1; get_size := 1024 |}).
    reflexivity.
  - destruct (read_complete_discards Example.pending Example.all_open 0 5
                (Example.video 1)) as (_ & Hfailed).
    destruct (Hfailed 0%nat (Stream.make 100 PayloadType.Video)
                eq_refl eq_refl) as (_ & Hqueued & _).
    exact (Hqueued "out0").
Defined.

(** * The completion of the opening of an input *)

Lemma receives_overflow_warning l name buffer latched :
  receives (l ++ overflow_warning name buffer latched) = receives l.
Proof.
  unfold overflow_warning. destruct (_ && _).
  - by apply receives_quiet.
  - by rewrite (right_id_L [] (++)).
Qed.

Lemma stream_connections_same st st' sid d :
  connections_ st' = connections_ st → channel_map_ st' = channel_map_ st →
  stream_connections st' sid d (right_equal_range sid st')
  = stream_connections st sid d (right_equal_range sid st).
Proof.
  intros Hcs Hmap. unfold right_equal_range. rewrite Hmap.
  apply stream_connections_ext. intros n s _.
  unfold find_connection. by rewrite Hcs.
Qed.

Lemma connection_streams_covers st name entries l n sid :
  connection_streams st name entries = Ok l → (n, sid) ∈ entries →
  ∃ r s, find_stream sid st = Some (r, s) ∧ r ∈ l.
Proof.
  revert l. induction entries as [|[n0 sid0] entries IHentries]; simpl;
    intros l Hl Hin; [by apply elem_of_nil in Hin|].
  destruct (find_stream sid0 st) as [[r0 s0]|] eqn:Hfind; [|done].
  destruct (connection_streams st name entries) as [rest|]; [|done].
  injection Hl as <-.
  apply elem_of_cons in Hin as [[= -> ->]|Hin].
  - exists r0, s0. split; [done | by left].
  - destruct (IHentries rest eq_refl Hin) as (r & s & ? & ?).
    exists r, s. split; [done | by right].
Qed.

Section Clearing.
Variable st0 : t.

Local Abbreviation clear_output :=
  (λ output : nat,
     o ← connection_at output;
     get_connection_buffer (Connection.get_name o) ;;
     on_buffer (Connection.get_name o) PayloadBuffer.clear).

Local Abbreviation clear_outputs :=
  (λ stream : nat,
     s ← stream_at stream;
     outputs ← get_stream_connections (Stream.id s) ConnectionDirection.Out;
     for_each outputs clear_output).

Lemma clears_refl : clears st0 [] st0.
Proof.
  by repeat split.
Qed.

Lemma clears_output cleared st output o :
  clears st0 cleared st →
  connections_ st0 !! output = Some o →
  is_Some (queued st0 (Connection.get_name o)) →
  ∃ st', clear_output output st = Returns () st'
         ∧ clears st0 (Connection.get_name o :: cleared) st'.
Proof.
  intros (Hcs & Hss & Hmap & Hactive & Hreceives & Hqueued) Ho [held Hheld].
  rewrite bind_run, connection_at_run, Hcs, Ho.
  assert (is_Some (connection_buffers_ st !! Connection.get_name o))
    as [[buffer latched] Hbuffer].
  { specialize (Hqueued (Connection.get_name o)). rewrite Hheld in Hqueued.
    unfold queued in Hqueued.
    destruct (connection_buffers_ st !! Connection.get_name o); [by eauto|].
    by case_bool_decide. }
  rewrite bind_run, get_connection_buffer_run, Hbuffer.
  unfold on_buffer, modify.
  cbn [connection_buffers_ set_connection_buffers set_trace].
  rewrite alter_insert_eq. cbn [fst snd].
  eexists. split; [reflexivity|].
  split; [done|]. split; [done|]. split; [done|]. split; [done|].
  split; [simpl; by rewrite receives_overflow_warning|].
  intros name. unfold queued at 1. simpl.
  destruct (decide (name = Connection.get_name o)) as [->|Hne].
  - rewrite lookup_insert_eq, bool_decide_eq_true_2 by left.
    by rewrite Hheld.
  - rewrite lookup_insert_ne by done. fold (queued st name).
    rewrite Hqueued. apply (f_equal (λ b : bool, if b then _ else _)).
    apply bool_decide_ext. rewrite elem_of_cons.
    split; [by right | by intros [?|?]].
Qed.

Lemma clears_outputs_loop outputs : ∀ cleared st,
  clears st0 cleared st →
  (∀ output, output ∈ outputs →
     ∃ o, connections_ st0 !! output = Some o
          ∧ is_Some (queued st0 (Connection.get_name o))) →
  ∃ st' cleared',
    for_each outputs clear_output st = Returns () st'
    ∧ clears st0 cleared' st'
    ∧ ∀ n, n ∈ cleared' ↔
           n ∈ cleared
           ∨ ∃ output o, output ∈ outputs
                         ∧ connections_ st0 !! output = Some o
                         ∧ Connection.get_name o = n.
Proof.
  induction outputs as [|output outputs IHoutputs]; intros cleared st Hst Hall.
  - exists st, cleared. split; [done|]. split; [done|].
    intros n. split; [by left|]. intros [?|(? & ? & ?%elem_of_nil & _)]; done.
  - destruct (Hall output) as (o & Ho & Hheld); [by left|].
    destruct (clears_output cleared st output o Hst Ho Hheld)
      as (st1 & Hrun & Hst1).
    destruct (IHoutputs (Connection.get_name o :: cleared) st1 Hst1)
      as (st' & cleared' & Hloop & Hst' & Hcleared').
    { intros output' Hin. apply Hall. by right. }
    exists st', cleared'. split; [|split; [done|]].
    + cbn [for_each]. by rewrite bind_run, Hrun.
    + intros n. rewrite Hcleared', elem_of_cons. split.
      * intros [[->|?]|(output' & o' & ? & ? & ?)]; [|by left|].
        -- right. exists output, o. split; [by left | done].
        -- right. exists output', o'. split; [by right | done].
      * intros [?|(output' & o' & [->|?]%elem_of_cons & Ho' & Hn)];
          [by left; right| |].
        -- left; left. congruence.
        -- right. by exists output', o'.
Qed.

Lemma clears_streams_loop streams : ∀ cleared st,
  clears st0 cleared st →
  (∀ r, r ∈ streams →
     ∃ s outputs,
       streams_ st0 !! r = Some s
       ∧ stream_connections st0 (Stream.id s) ConnectionDirection.Out
           (right_equal_range (Stream.id s) st0) = Ok outputs
       ∧ ∀ output, output ∈ outputs →
           ∃ o, connections_ st0 !! output = Some o
                ∧ is_Some (queued st0 (Connection.get_name o))) →
  ∃ st' cleared',
    for_each streams clear_outputs st = Returns () st'
    ∧ clears st0 cleared' st'
    ∧ ∀ n, n ∈ cleared' ↔
           n ∈ cleared
           ∨ ∃ r s outputs output o,
               r ∈ streams
               ∧ streams_ st0 !! r = Some s
               ∧ stream_connections st0 (Stream.id s) ConnectionDirection.Out
                   (right_equal_range (Stream.id s) st0) = Ok outputs
               ∧ output ∈ outputs
               ∧ connections_ st0 !! output = Some o
               ∧ Connection.get_name o = n.
Proof.
  induction streams as [|r streams IHstreams]; intros cleared st Hst Hall.
  - exists st, cleared. split; [done|]. split; [done|].
    intros n. split; [by left|].
    intros [?|(? & ? & ? & ? & ? & ?%elem_of_nil & _)]; done.
  - destruct (Hall r) as (s & outputs & Hs & Houtputs & Hheld); [by left|].
    pose proof Hst as (Hcs & Hss & Hmap & _).
    destruct (clears_outputs_loop outputs cleared st Hst Hheld)
      as (st1 & cleared1 & Hrun & Hst1 & Hcleared1).
    destruct (IHstreams cleared1 st1 Hst1)
      as (st' & cleared' & Hloop & Hst' & Hcleared').
    { intros r' Hin. apply Hall. by right. }
    exists st', cleared'. split; [|split; [done|]].
    + cbn [for_each]. rewrite bind_run, bind_run, stream_at_run, Hss, Hs.
      rewrite bind_run, get_stream_connections_run.
      rewrite (stream_connections_same st0 st) by done.
      by rewrite Houtputs, Hrun.
    + intros n. rewrite Hcleared', Hcleared1. split.
      * intros [[?|(output & o & ? & ? & ?)]
               |(r' & s' & outputs' & output & o & ? & ?)]; [by left| |].
        -- right. exists r, s, outputs, output, o. split; [by left | done].
        -- right. exists r', s', outputs', output, o. split; [by right | done].
      * intros [?|(r' & s' & outputs' & output & o
                   & [->|?]%elem_of_cons & Hs' & Houtputs' & Hin & Ho & Hn)];
          [by left; left| |].
        -- left; right. exists output, o. split; [|done]. congruence.
        -- right. by exists r', s', outputs', output, o.
Qed.

End Clearing.

(** X19.  Once an input of a running channel is open, its completion arms
    one receive on it (by way of [async_read] unless the connection is CDI)
    and then empties the buffer of every output that shares a stream with
    the input, so that payloads queued before the input was opened are never
    transmitted; the buffers of the other connections hold what they held,
    and no connection or stream is changed.  On a channel in which every
    connection has its buffer, the names of the channel map designate
    connections and the streams mapped to the input are registered, the
    completion returns. *)
Theorem connection_handler_clears_outputs
    (initiated : Connection.t → ConnectionStatus.t) (st : t)
    (connection : nat) (c : Connection.t) :
  well_formed st →
  (∀ sid, (Connection.get_name c, sid) ∈ channel_map_ st →
          is_Some (find_stream sid st)) →
  connections_ st !! connection = Some c →
  Connection.get_direction c = ConnectionDirection.In →
  active_ st = true →
  ∃ st',
    connection_handler initiated connection 0 st = Returns () st'
    ∧ receives (trace st') = receives (trace st) ++ [AsyncReceive connection]
    ∧ (∀ name, cleared_by st c name → queued st' name = Some [])
    ∧ (∀ name, ¬ cleared_by st c name → queued st' name = queued st name)
    ∧ connections_ st' = connections_ st
    ∧ streams_ st' = streams_ st.
Proof.
  intros [Hbuffers Hknown] Hregistered Hc Hdirection Hactive.
  unfold connection_handler. rewrite bind_run, connection_at_run, Hc.
  change (failed 0) with false. cbn [negb].
  rewrite bind_run. unfold log at 1, emit at 1, modify at 1.
  rewrite bind_run. unfold is_active at 1. rewrite bind_run. simpl.
  rewrite Hactive, Hdirection. simpl.
  set (st1 := set_trace _ st).
  set (st2 := set_trace (trace st1 ++ [AsyncReceive connection]) st1).
  assert ((if decide (Connection.get_type c ≠ ConnectionType.Cdi)
           then async_read initiated connection 0
           else async_receive connection) st1 = Returns () st2) as Harm.
  { case_decide; [|done].
    rewrite (async_read_run initiated connection 0 st1 c Hc).
    change (active_ st1) with (active_ st). rewrite Hactive.
    change (failed 0) with false. cbn [negb andb].
    by rewrite (right_id_L [] (++)). }
  rewrite bind_run, Harm.
  pose proof (clears_refl st2) as Hst2.
  destruct (connection_streams_total st (Connection.get_name c)
              (left_equal_range (Connection.get_name c) st))
    as [streams Hstreams].
  { intros n sid [Hn Hin]%list_elem_of_filter. simpl in Hn. subst n.
    by apply Hregistered. }
  rewrite bind_run, get_connection_streams_run.
  rewrite (connection_streams_ext st st2) by done.
  change (left_equal_range (Connection.get_name c) st2)
    with (left_equal_range (Connection.get_name c) st).
  rewrite Hstreams.
  pose proof (connection_streams_Ok _ _ _ _ Hstreams) as [_ Hbound].
  assert (∀ s, ∃ outputs,
            stream_connections st (Stream.id s) ConnectionDirection.Out
              (right_equal_range (Stream.id s) st) = Ok outputs) as Htotal.
  { intros s. apply stream_connections_total.
    intros n sid [_ Hin]%list_elem_of_filter. by eapply Hknown. }
  assert (∀ sid,
            stream_connections st2 sid ConnectionDirection.Out
              (right_equal_range sid st2)
            = stream_connections st sid ConnectionDirection.Out
                (right_equal_range sid st)) as Hsame
    by (intros sid; by apply stream_connections_same).
  destruct (clears_streams_loop st2 streams [] st2 Hst2)
    as (st' & cleared & Hloop & Hst' & Hcleared).
  { intros r Hr. destruct (Hbound r Hr) as (n & s & _ & Hs).
    destruct (Htotal s) as [outputs Houtputs].
    exists s, outputs. split; [done|]. split; [by rewrite Hsame|].
    intros output Hin.
    apply stream_connections_Ok in Houtputs as [_ Honly].
    destruct (Honly output Hin) as (n' & sid & o & _ & Hfound & _).
    apply find_connection_Some in Hfound as [Ho _].
    exists o. split; [done|]. unfold queued. apply fmap_is_Some.
    apply Hbuffers. by eapply list_elem_of_lookup_2. }
  exists st'. split; [done|].
  destruct Hst' as (Hcs & Hss & _ & _ & Hreceives & Hqueued).
  assert (∀ name, name ∈ cleared ↔ cleared_by st c name) as Hiff.
  { intros name. rewrite Hcleared. split.
    - intros [?%elem_of_nil|(r & s & outputs & output & o & Hr & Hs
                             & Houtputs & Hin & Ho & Hname)]; [done|].
      destruct (Hbound r Hr) as (n & s' & [Hn Hentry]%list_elem_of_filter & Hs').
      simpl in Hn. subst n.
      change (streams_ st2) with (streams_ st) in Hs.
      change (connections_ st2) with (connections_ st) in Ho.
      assert (s' = s) as -> by congruence.
      rewrite Hsame in Houtputs.
      apply stream_connections_Ok in Houtputs as [_ Honly].
      destruct (Honly output Hin)
        as (n' & sid & o' & [Hsid Hmapped]%list_elem_of_filter & Hfound & Hd).
      simpl in Hsid. subst sid.
      pose proof Hfound as [Ho' Hname']%find_connection_Some.
      assert (o' = o) as -> by congruence.
      assert (n' = name) as -> by congruence.
      exists (Stream.id s), output, o. split; [done|]. split; [done|].
      split; [done|]. by destruct Hd.
    - intros (sid & j & o & Hmine & Hmapped & Hfound & Hout). right.
      destruct (connection_streams_covers st (Connection.get_name c)
                  (left_equal_range (Connection.get_name c) st) streams
                  (Connection.get_name c) sid Hstreams)
        as (r & s & Hfind & Hr); [by apply list_elem_of_filter|].
      apply list_find_Some in Hfind as (Hs & Hsid & _).
      destruct (Htotal s) as [outputs Houtputs].
      pose proof Houtputs as [Hall _]%stream_connections_Ok.
      destruct (Hall name sid) as (j' & o' & Hfound' & Hin);
        [apply list_elem_of_filter; by rewrite Hsid|].
      assert (j' = j ∧ o' = o) as [-> ->] by (split; congruence).
      pose proof Hfound as [Ho Hname]%find_connection_Some.
      exists r, s, outputs, j, o. rewrite Hsame. repeat split; try done.
      apply Hin. by right. }
  split.
  { rewrite Hreceives. unfold st2, st1. simpl.
    by rewrite receives_app, receives_quiet. }
  split; [|split; [|done]].
  - intros name Hname. rewrite Hqueued.
    rewrite bool_decide_eq_true_2 by (by apply Hiff).
    destruct Hname as (_ & j & o & _ & _ & Hfound & _).
    apply find_connection_Some in Hfound as [Ho <-].
    destruct (Hbuffers o) as [entry Hentry]; [by eapply list_elem_of_lookup_2|].
    unfold queued. change (connection_buffers_ st2) with (connection_buffers_ st).
    by rewrite Hentry.
  - intros name Hname. rewrite Hqueued.
    by rewrite bool_decide_eq_false_2 by (by rewrite Hiff).
Qed.

Lemma well_formed_draining : well_formed Example.draining.
Proof.
  split.
  - intros c Hc. vm_compute in Hc.
    repeat (apply elem_of_cons in Hc as [->|Hc]; [vm_compute; eauto|]).
    by apply elem_of_nil in Hc.
  - intros n sid Hin. vm_compute in Hin.
    repeat (apply elem_of_cons in Hin as [[= -> ->]|Hin]; [vm_compute; eauto|]).
    by apply elem_of_nil in Hin.
Qed.

Lemma registered_draining n sid :
  (n, sid) ∈ channel_map_ Example.draining →
  is_Some (find_stream sid Example.draining).
Proof.
  intros Hin. vm_compute in Hin.
  repeat (apply elem_of_cons in Hin as [[= -> ->]|Hin]; [vm_compute; eauto|]).
  by apply elem_of_nil in Hin.
Qed.

Lemma cleared_by_draining :
  cleared_by Example.draining
    (Connection.set_status ConnectionStatus.Open
       (Connection.set_streams [0%nat]
          (Connection.make ConnectionType.Tcp "in0" "localhost" 2000
             ConnectionMode.Server ConnectionDirection.In)))
    "out1".
Proof.
  exists 100, 2%nat,
    (Connection.set_status ConnectionStatus.Open
       (Connection.set_streams [0%nat]
          (Connection.make ConnectionType.Tcp "out1" "localhost" 3001
             ConnectionMode.Server ConnectionDirection.Out))).
  split; [|split; [|split]]; [| |reflexivity|reflexivity].
  - change (("in0", 100) ∈ [("in0", 100); ("out0", 100); ("out1", 100)]).
    by left.
  - change (("out1", 100) ∈ [("in0", 100); ("out0", 100); ("out1", 100)]).
    by right; right; left.
Qed.

Lemma connection_handler_clears_outputs_witness :
  ∃ st',
    connection_handler Example.pending 0 0 Example.draining = Returns () st'
    ∧ queued Example.draining "out1"
      = Some (Example.video <$> [3; 4; 5; 6; 7; 8; 9; 10])
    ∧ queued st' "out1" = Some [].
Proof.
  destruct (connection_handler_clears_outputs Example.pending
              Example.draining 0
              (Connection.set_status ConnectionStatus.Open
                 (Connection.set_streams [0%nat]
                    (Connection.make ConnectionType.Tcp "in0" "localhost"
                       2000 ConnectionMode.Server ConnectionDirection.In)))
              well_formed_draining (λ sid, registered_draining "in0" sid)
              eq_refl eq_refl eq_refl)
    as (st' & Hrun & _ & Hcleared & _).
  exists st'. split; [exact Hrun|]. split; [reflexivity|].
  exact (Hcleared "out1" cleared_by_draining).
Defined.

(** * The completion of the opening of an output *)

Lemma steady_async_write initiated st0 connection ec :
  invariant (steady st0) (async_write initiated connection ec).
Proof.
  apply (invariant_async_write _ _ (λ e, is_receive e = false));
    eauto using steady_emit, steady_latch, steady_status.
Qed.

(** X20.  The completion of an opening that succeeded goes to the write
    loop unless the channel is active and the connection is an input: after
    its log line it is [async_write] on the connection, without an error.
    It then arms no receive and clears no buffer: every buffer holds what it
    held.  On an inactive channel it does nothing but log, whatever the
    direction of the connection. *)
Theorem connection_handler_starts_write_loop
    (initiated : Connection.t → ConnectionStatus.t) (st : t)
    (connection : nat) (ec : error_code) (c : Connection.t) :
  connections_ st !! connection = Some c →
  failed ec = false →
  active_ st = false
  ∨ Connection.get_direction c ≠ ConnectionDirection.In →
  let st1 :=
    set_trace
      (trace st ++ [Log Info (ConnectionEstablished (Connection.get_name c))])
      st in
  let st' := state_of (connection_handler initiated connection ec st) in
  connection_handler initiated connection ec st
  = async_write initiated connection 0 st1
  ∧ (active_ st = false →
     connection_handler initiated connection ec st = Returns () st1)
  ∧ keeps_data st st'
  ∧ receives (trace st') = receives (trace st).
Proof.
  intros Hc Hec Hwrite st1 st'.
  assert (connection_handler initiated connection ec st
          = async_write initiated connection 0 st1) as Hrun.
  { unfold connection_handler. rewrite bind_run, connection_at_run, Hc, Hec.
    cbn [negb]. rewrite bind_run. unfold log at 1, emit at 1, modify at 1.
    rewrite bind_run. unfold is_active at 1. rewrite bind_run. simpl.
    destruct Hwrite as [-> | Hdirection]; [done|].
    rewrite bool_decide_eq_false_2 by done. by rewrite andb_false_r. }
  split; [done|]. unfold st'. rewrite Hrun. split; [|split].
  - intros Hactive. unfold async_write. rewrite bind_run.
    unfold is_active at 1. rewrite bind_run. simpl. by rewrite Hactive.
  - apply keeps_data_async_write. by apply keeps_data_emit, keeps_data_refl.
  - apply (steady_async_write initiated st connection 0 st1).
    apply steady_emit; [done | apply steady_refl].
Qed.

Lemma connection_handler_starts_write_loop_witness :
  connection_handler Example.pending 1 0 Example.transmitting
  = async_write Example.pending 1 0
      (set_trace
         (trace Example.transmitting
          ++ [Log Info (ConnectionEstablished "out0")])
         Example.transmitting).
Proof.
  apply (connection_handler_starts_write_loop Example.pending
           Example.transmitting 1 0
           (Connection.set_status ConnectionStatus.Open
              (Connection.set_streams [0%nat]
                 (Connection.make ConnectionType.Tcp "out0" "localhost"
                    3000 ConnectionMode.Client ConnectionDirection.Out))));
    [reflexivity | reflexivity | right; discriminate].
Defined.

(** * [read_complete]: what the fan-out leaves *)

Lemma with_errors_0 s : with_errors 0 s = s.
Proof. destruct s. unfold with_errors. simpl. f_equal. lia. Qed.

Lemma with_errors_with_errors a b s :
  with_errors a (with_errors b s) = with_errors (b + a) s.
Proof. unfold with_errors. simpl. f_equal. lia. Qed.

Lemma delivered_cons n names name :
  delivered (n :: names) name
  = if decide (n = name) then S (delivered names name)
    else delivered names name.
Proof. unfold delivered. rewrite filter_cons. by case_decide. Qed.

Lemma delivered_not_in names name : name ∉ names → delivered names name = 0%nat.
Proof.
  induction names as [|n names IHnames]; intros Hin; [done|].
  rewrite delivered_cons, decide_False.
  - apply IHnames. intros ?. apply Hin. by right.
  - intros ->. apply Hin. by left.
Qed.

Lemma sum_list_with_ext_in (f g : string → nat) l :
  (∀ x, x ∈ l → f x = g x) → sum_list_with f l = sum_list_with g l.
Proof.
  induction l as [|x l IHl]; intros Hext; [done|]. simpl.
  rewrite (Hext x) by left. rewrite IHl; [done|].
  intros y Hy. apply Hext. by right.
Qed.

Lemma sum_list_with_single (f g : string → nat) extra n l :
  NoDup l → n ∈ l → (∀ x, x ≠ n → f x = g x) → f n = (extra + g n)%nat →
  sum_list_with f l = (extra + sum_list_with g l)%nat.
Proof.
  intros Hnodup Hin Hother Hn. induction l as [|x l IHl];
    [by apply elem_of_nil in Hin|].
  apply NoDup_cons in Hnodup as [Hx Hnodup]. simpl.
  destruct (decide (x = n)) as [->|Hne].
  - rewrite Hn. rewrite (sum_list_with_ext_in f g l); [lia|].
    intros y Hy. apply Hother. by intros ->.
  - apply elem_of_cons in Hin as [->|Hin]; [done|].
    rewrite (Hother x Hne), IHl by done. lia.
Qed.

Lemma dropped_cons st st1 payload n names buffer latched latched' :
  connection_buffers_ st !! n = Some (buffer, latched) →
  connection_buffers_ st1
  = <[n := ((PayloadBuffer.enqueue payload buffer).2, latched')]>
      (connection_buffers_ st) →
  dropped st payload (n :: names)
  = ((if PayloadBuffer.is_full buffer then 1 else 0)
     + dropped st1 payload names)%nat.
Proof.
  intros Hbuffer Hst1. unfold dropped.
  set (f := λ name, match connection_buffers_ st !! name with
                    | Some (b, _) => drops payload (delivered (n :: names) name) b
                    | None => 0%nat
                    end).
  set (g := λ name, match connection_buffers_ st1 !! name with
                    | Some (b, _) => drops payload (delivered names name) b
                    | None => 0%nat
                    end).
  assert (∀ x, x ≠ n → f x = g x) as Hother.
  { intros x Hx. unfold f, g. rewrite Hst1, lookup_insert_ne by done.
    by rewrite delivered_cons, decide_False. }
  assert (f n = ((if PayloadBuffer.is_full buffer then 1 else 0) + g n)%nat)
    as Hn.
  { unfold f, g. rewrite Hst1, lookup_insert_eq, Hbuffer.
    by rewrite delivered_cons, decide_True. }
  cbn [remove_dups]. destruct (decide_rel elem_of n names) as [Hin|Hin].
  - apply sum_list_with_single with (n := n); try done.
    + apply NoDup_remove_dups.
    + by apply elem_of_remove_dups.
  - simpl. rewrite Hn.
    rewrite (sum_list_with_ext_in f g).
    + unfold g at 1. rewrite Hst1, lookup_insert_eq.
      rewrite delivered_not_in by done. simpl. lia.
    + intros x Hx. rewrite elem_of_remove_dups in Hx. apply Hother.
      intros Heq. apply Hin. by rewrite <- Heq.
Qed.

Lemma deliveries_of_cons st n x entries :
  deliveries_of st ((n, x) :: entries)
  = if is_open_output st n then n :: deliveries_of st entries
    else deliveries_of st entries.
Proof.
  unfold deliveries_of. rewrite fmap_cons, filter_cons. simpl.
  destruct (is_open_output st n); by case_decide.
Qed.

Lemma list_find_opened initiated name cs :
  list_find (λ c, Connection.get_name c = name) (opened initiated <$> cs)
  = prod_map id (opened initiated)
      <$> list_find (λ c, Connection.get_name c = name) cs.
Proof.
  rewrite list_find_fmap. f_equal. apply list_find_ext.
  intros c. unfold opened. simpl. by case_decide.
Qed.

Lemma opened_name initiated c :
  Connection.get_name (opened initiated c) = Connection.get_name c.
Proof. unfold opened. by case_decide. Qed.

Lemma opened_direction initiated c :
  Connection.get_direction (opened initiated c) = Connection.get_direction c.
Proof. unfold opened. by case_decide. Qed.

Lemma opened_open initiated c :
  (∀ c, initiated c ≠ ConnectionStatus.Open) →
  Connection.get_status (opened initiated c) = ConnectionStatus.Open
  ↔ Connection.get_status c = ConnectionStatus.Open.
Proof.
  intros Hasync. unfold opened. case_decide as Hclosed; [|done]. simpl.
  split; [by intros ?%Hasync | by rewrite Hclosed].
Qed.

Lemma is_open_output_opened initiated st st1 name :
  (∀ c, initiated c ≠ ConnectionStatus.Open) →
  connections_ st1 = opened initiated <$> connections_ st →
  is_open_output st1 name = is_open_output st name.
Proof.
  intros Hasync Hst1. unfold is_open_output, find_connection.
  rewrite Hst1, list_find_opened.
  destruct (list_find _ (connections_ st)) as [[j c]|]; [|done]. simpl.
  apply bool_decide_ext.
  by rewrite opened_direction, opened_open.
Qed.

Lemma deliveries_of_opened initiated st st1 entries :
  (∀ c, initiated c ≠ ConnectionStatus.Open) →
  connections_ st1 = opened initiated <$> connections_ st →
  deliveries_of st1 entries = deliveries_of st entries.
Proof.
  intros Hasync Hst1.
  induction entries as [|[n x] entries IHentries]; [done|].
  rewrite !deliveries_of_cons, IHentries.
  by rewrite (is_open_output_opened initiated st st1).
Qed.

Lemma deliveries_of_same st st1 entries :
  connections_ st1 = connections_ st →
  deliveries_of st1 entries = deliveries_of st entries.
Proof.
  intros Hst1. induction entries as [|[n x] entries IHentries]; [done|].
  rewrite !deliveries_of_cons, IHentries.
  unfold is_open_output, find_connection. by rewrite Hst1.
Qed.

Lemma stream_connections_opened initiated st st1 sid d entries :
  connections_ st1 = opened initiated <$> connections_ st →
  stream_connections st1 sid d entries = stream_connections st sid d entries.
Proof.
  intros Hst1. apply stream_connections_ext. intros n s _.
  unfold find_connection. rewrite Hst1, list_find_opened.
  destruct (list_find _ (connections_ st)) as [[j c]|]; [|done]. simpl.
  by rewrite opened_direction.
Qed.

Lemma dropped_same st st1 payload names :
  connection_buffers_ st1 = connection_buffers_ st →
  dropped st1 payload names = dropped st payload names.
Proof. intros Hst1. unfold dropped. by rewrite Hst1. Qed.

Section FanOutLoop.
Variable initiated : Connection.t → ConnectionStatus.t.
Hypothesis asynchronous : ∀ c, initiated c ≠ ConnectionStatus.Open.
Variables (stream : nat) (payload : Payload) (received sid : Z).

Lemma fan_out_loop entries : ∀ st outs sk,
  (∀ c, c ∈ connections_ st →
        is_Some (connection_buffers_ st !! Connection.get_name c)) →
  stream_connections st sid ConnectionDirection.Out entries = Ok outs →
  streams_ st !! stream = Some sk →
  ∃ st',
    for_each outs (queue_payload initiated stream payload received) st
    = Returns () st'
    ∧ (∀ name,
         fst <$> connection_buffers_ st' !! name
         = enqueues payload (delivered (deliveries_of st entries) name)
             <$> (fst <$> connection_buffers_ st !! name))
    ∧ streams_ st'
      = <[stream := with_errors
                      (Z.of_nat (dropped st payload (deliveries_of st entries)))
                      sk]> (streams_ st)
    ∧ length (connections_ st') = length (connections_ st)
    ∧ active_ st' = active_ st
    ∧ trace st `prefix_of` trace st'
    ∧ ((∃ n j o,
          n ∈ (fst <$> entries)
          ∧ find_connection n st = Some (j, o)
          ∧ Connection.get_direction o = ConnectionDirection.Out
          ∧ Connection.get_status o ≠ ConnectionStatus.Open) →
       ∀ i c,
         connections_ st !! i = Some c →
         Connection.get_status c = ConnectionStatus.Closed →
         (if decide (Connection.get_mode c = ConnectionMode.Client)
          then AsyncConnect i else AsyncAccept i) ∈ trace st').
Proof.
  induction entries as [|[n x] entries IHentries]; intros st outs sk Hbuf Houts Hs.
  - injection Houts as <-. exists st. split; [done|].
    split.
    { intros name. by destruct (connection_buffers_ st !! name) as [[b l]|]. }
    split; [by rewrite with_errors_0, list_insert_id|].
    split; [done|]. split; [done|]. split; [done|].
    by intros (n & j & o & ?%elem_of_nil & _).
  - simpl in Houts.
    destruct (find_connection n st) as [[j c]|] eqn:Hfound; [|done].
    destruct (stream_connections st sid ConnectionDirection.Out entries)
      as [rest|] eqn:Hrest; [|done].
    pose proof Hfound as [Hj Hname]%find_connection_Some.
    rewrite deliveries_of_cons.
    assert (is_open_output st n
            = bool_decide (Connection.get_direction c = ConnectionDirection.Out
                           ∧ Connection.get_status c = ConnectionStatus.Open))
      as -> by (unfold is_open_output; by rewrite Hfound).
    case_bool_decide as Hdir; injection Houts as <-.
    + assert (Connection.get_direction c = ConnectionDirection.Out) as Hout
        by (by destruct Hdir).
      destruct (decide (Connection.get_status c = ConnectionStatus.Open))
        as [Hopen|Hnot].
      * (* an Open output: the payload is enqueued *)
        rewrite bool_decide_eq_true_2 by done.
        destruct (Hbuf c) as [[b l] Hb]; [by eapply list_elem_of_lookup_2|].
        pose proof (queue_payload_open initiated stream payload received j st
                      c b l sk Hj Hopen Hb Hs) as Hvisit.
        match type of Hvisit with
        | _ = Returns () ?s => set (st1 := s) in Hvisit
        end.
        set (sk1 := with_errors (if PayloadBuffer.is_full b then 1 else 0) sk).
        assert (streams_ st1 = <[stream := sk1]> (streams_ st)) as Hstreams1.
        { unfold st1, sk1. simpl. destruct (PayloadBuffer.is_full b); [done|].
          by rewrite with_errors_0, list_insert_id. }
        destruct (IHentries st1 rest sk1)
          as (st' & Hloop & Hbufs & Hstreams & Hlen & Hactive & Hpre & Htrig).
        { intros c' Hc'. unfold st1. simpl. rewrite Hname.
          destruct (decide (Connection.get_name c' = n)) as [->|Hne].
          - rewrite lookup_insert_eq. by eauto.
          - rewrite lookup_insert_ne by done. by apply Hbuf. }
        { rewrite <- Hrest. by apply stream_connections_ext. }
        { rewrite Hstreams1. apply list_lookup_insert_eq.
          by eapply lookup_lt_Some. }
        rewrite (deliveries_of_same st st1) in Hbufs, Hstreams by done.
        exists st'. split; [cbn [for_each]; by rewrite bind_run, Hvisit|].
        split; [|split; [|split; [done|split; [done|split]]]].
        -- intros name. rewrite Hbufs, delivered_cons. unfold st1. simpl.
           rewrite Hname. destruct (decide (n = name)) as [->|Hne].
           ++ rewrite lookup_insert_eq. rewrite <- Hname, Hb. done.
           ++ by rewrite lookup_insert_ne.
        -- rewrite Hstreams, Hstreams1, list_insert_insert_eq. f_equal.
           unfold sk1. rewrite with_errors_with_errors. f_equal.
           rewrite (dropped_cons st st1 payload n _ b l
                      (latched_after b l)).
           ++ destruct (PayloadBuffer.is_full b); lia.
           ++ by rewrite <- Hname.
           ++ unfold st1. simpl. by rewrite Hname.
        -- etrans; [|exact Hpre]. unfold st1. simpl. by apply prefix_app_r.
        -- intros (n' & j' & o & Hin & Hfound' & Hout' & Hnot') i c' Hi Hclosed.
           apply (Htrig) with (c := c'); [|done..].
           apply elem_of_cons in Hin as [Heq|Hin].
           ++ simpl in Heq. subst n'. rewrite Hfound in Hfound'.
              by simplify_eq.
           ++ by exists n', j', o.
      * (* an output that is not Open: [open_connections] instead *)
        rewrite bool_decide_eq_false_2 by (by intros [_ ?]).
        pose proof (queue_payload_not_open initiated stream payload received
                      j st c Hj Hnot) as Hvisit.
        rewrite open_connections_spec in Hvisit.
        match type of Hvisit with
        | _ = Returns () ?s => set (st1 := s) in Hvisit
        end.
        destruct (IHentries st1 rest sk)
          as (st' & Hloop & Hbufs & Hstreams & Hlen & Hactive & Hpre & Htrig).
        { intros c' (c0 & -> & Hc0)%list_elem_of_fmap.
          rewrite opened_name. by apply Hbuf. }
        { rewrite <- Hrest. by apply (stream_connections_opened initiated). }
        { done. }
        rewrite (deliveries_of_opened initiated st st1) in Hbufs, Hstreams
          by done.
        exists st'. split; [cbn [for_each]; by rewrite bind_run, Hvisit|].
        split; [done|]. split; [done|].
        split; [by rewrite Hlen; unfold st1; simpl; rewrite length_fmap|].
        split; [done|].
        assert (trace st1 = trace st ++ openings 0 (connections_ st)) as Htrace1
          by done.
        split; [etrans; [|exact Hpre]; rewrite Htrace1; by apply prefix_app_r|].
        intros _ i c' Hi Hclosed.
        eapply elem_of_prefix; [|exact Hpre]. rewrite Htrace1.
        apply elem_of_app. right. case_decide as Hmode.
        -- apply openings_connect. exists c'. rewrite Nat.sub_0_r.
           split; [lia|]. done.
        -- apply openings_accept. exists c'. rewrite Nat.sub_0_r.
           split; [lia|]. done.
    + (* a connection that is no output *)
      rewrite bool_decide_eq_false_2
        by (intros [Hout _]; apply Hdir; by right).
      destruct (IHentries st rest sk Hbuf Hrest Hs)
        as (st' & Hloop & Hbufs & Hstreams & Hlen & Hactive & Hpre & Htrig).
      exists st'. repeat (split; [done|]).
      intros (n' & j' & o & Hin & Hfound' & Hout' & Hnot') i c' Hi Hclosed.
      apply Htrig with (c := c'); [|done..].
      apply elem_of_cons in Hin as [Heq|Hin].
      * simpl in Heq. subst n'. rewrite Hfound in Hfound'. simplify_eq.
        destruct Hdir. by right.
      * by exists n', j', o.
Qed.

End FanOutLoop.

Lemma delivered_deliveries_of st entries name :
  delivered (deliveries_of st entries) name
  = if is_open_output st name
    then length (filter (λ e, e.1 = name) entries) else 0%nat.
Proof.
  induction entries as [|[n x] entries IHentries].
  - by destruct (is_open_output st name).
  - rewrite deliveries_of_cons, filter_cons. simpl.
    destruct (decide (n = name)) as [->|Hne].
    + destruct (is_open_output st name); [|done].
      rewrite delivered_cons, decide_True by done. simpl. by rewrite IHentries.
    + destruct (is_open_output st n); [|done].
      by rewrite delivered_cons, decide_False.
Qed.

(** The resumption of the read loop after a completion without error: it
    only adds to the trace, and returns if the connection exists. *)
Lemma resume_read_loop initiated connection st :
  ∃ events,
    state_of ((c ← connection_at connection;
               if decide (Connection.get_type c ≠ ConnectionType.Cdi)
               then async_read initiated connection 0 else mret ()) st)
    = set_trace (trace st ++ events) st
    ∧ (is_Some (connections_ st !! connection) →
       (c ← connection_at connection;
        if decide (Connection.get_type c ≠ ConnectionType.Cdi)
        then async_read initiated connection 0 else mret ()) st
       = Returns () (set_trace (trace st ++ events) st)).
Proof.
  rewrite bind_run, connection_at_run.
  destruct (connections_ st !! connection) as [c|] eqn:Hc.
  - case_decide.
    + rewrite (async_read_run initiated connection 0 st c Hc).
      change (failed 0) with false. cbn [andb].
      destruct (active_ st); cbn [negb].
      * exists [AsyncReceive connection].
        by rewrite (right_id_L [] (++)).
      * exists []. by rewrite set_trace_nil.
    + exists []. by rewrite set_trace_nil.
  - exists []. rewrite set_trace_nil. split; [done|]. by intros [? ?].
Qed.

(** C4.  A completion without error for a payload of a registered stream,
    on a channel in which every connection has its buffer and the names of
    the channel map designate connections, with a transport that does not
    open a connection before the call that initiates it returns.  The
    outputs of the stream are the connections of direction Out that the
    names related to the stream designate.  An output whose status is not
    Open is skipped: its buffer is as it was, and [open_connections] has
    run for it, so that a connect or an accept has been initiated on every
    connection that was Closed.  An output whose status is Open has the
    payload enqueued into the buffer under its own name, once for each entry
    that relates the stream to the name.  No other buffer changes.  The
    stream counts the payload as received, and one error for each enqueue
    that found its buffer full. *)
Theorem read_complete_fan_out
    (initiated : Connection.t → ConnectionStatus.t) (st : t)
    (connection : nat) (payload : Payload) (stream : nat) (s : Stream.t) :
  well_formed st →
  (∀ c, initiated c ≠ ConnectionStatus.Open) →
  find_stream (stream_identifier payload) st = Some (stream, s) →
  let names := deliveries st (stream_identifier payload) in
  let st' := state_of (read_complete initiated connection 0 payload st) in
  (is_Some (connections_ st !! connection) →
   read_complete initiated connection 0 payload st = Returns () st')
  ∧ (∀ name,
       fst <$> connection_buffers_ st' !! name
       = enqueues payload (delivered names name)
           <$> (fst <$> connection_buffers_ st !! name))
  ∧ streams_ st'
    = <[stream := with_errors (Z.of_nat (dropped st payload names))
                    (Stream.received_payload s).2]> (streams_ st)
  ∧ (∀ name j o,
       (name, stream_identifier payload) ∈ channel_map_ st →
       find_connection name st = Some (j, o) →
       Connection.get_direction o = ConnectionDirection.Out →
       (Connection.get_status o ≠ ConnectionStatus.Open →
        fst <$> connection_buffers_ st' !! name
        = fst <$> connection_buffers_ st !! name
        ∧ ∀ i c,
            connections_ st !! i = Some c →
            Connection.get_status c = ConnectionStatus.Closed →
            (if decide (Connection.get_mode c = ConnectionMode.Client)
             then AsyncConnect i else AsyncAccept i) ∈ trace st')
       ∧ (Connection.get_status o = ConnectionStatus.Open →
          ∃ buffer more,
            fst <$> connection_buffers_ st !! name = Some buffer
            ∧ length (filter (λ e, e.1 = name)
                        (right_equal_range (stream_identifier payload) st))
              = S more
            ∧ fst <$> connection_buffers_ st' !! name
              = Some (enqueues payload more
                        (PayloadBuffer.enqueue payload buffer).2)))
  ∧ (∀ name,
       name ∉ names →
       fst <$> connection_buffers_ st' !! name
       = fst <$> connection_buffers_ st !! name).
Proof.
  intros [Hbuffers Hknown] Hasync Hfind names st'.
  destruct (stream_connections_total st (stream_identifier payload)
              ConnectionDirection.Out
              (right_equal_range (stream_identifier payload) st))
    as [outs Houts].
  { intros n sid [_ Hin]%list_elem_of_filter. by eapply Hknown. }
  pose proof Hfind as (Hs & _)%list_find_Some.
  unfold st'.
  rewrite (read_complete_no_error initiated connection payload st stream s outs)
    by done.
  set (st1 := set_streams _ st).
  destruct (fan_out_loop initiated Hasync stream payload
              (Stream.payloads_received s + 1) (stream_identifier payload)
              (right_equal_range (stream_identifier payload) st)
              st1 outs (Stream.received_payload s).2)
    as (st2 & Hloop & Hbufs & Hstreams & Hlen & Hactive & Hpre & Htrig).
  { done. }
  { unfold st1. by rewrite stream_connections_set_streams. }
  { apply list_lookup_insert_eq. by eapply lookup_lt_Some. }
  rewrite (deliveries_of_same st st1) in Hbufs, Hstreams by done.
  rewrite (dropped_same st st1) in Hstreams by done.
  fold (deliveries st (stream_identifier payload)) in Hbufs, Hstreams.
  fold names in Hbufs, Hstreams.
  rewrite bind_run, Hloop.
  destruct (resume_read_loop initiated connection st2)
    as (events & -> & Hreturns).
  assert (∀ name,
            fst <$> connection_buffers_
                      (set_trace (trace st2 ++ events) st2) !! name
            = enqueues payload (delivered names name)
                <$> (fst <$> connection_buffers_ st !! name)) as Hall
    by exact Hbufs.
  assert (∀ name, delivered names name = 0%nat →
            fst <$> connection_buffers_
                      (set_trace (trace st2 ++ events) st2) !! name
            = fst <$> connection_buffers_ st !! name) as Hnone.
  { intros name Hzero. rewrite Hall, Hzero.
    by destruct (connection_buffers_ st !! name) as [[b l]|]. }
  split; [|split; [done|split; [|split]]].
  - intros Hconnection. apply Hreturns.
    apply lookup_lt_is_Some. rewrite Hlen. by apply lookup_lt_is_Some.
  - change (streams_ st2
            = <[stream := with_errors (Z.of_nat (dropped st payload names))
                            (Stream.received_payload s).2]> (streams_ st)).
    rewrite Hstreams. unfold st1. simpl. by rewrite list_insert_insert_eq.
  - intros name j o Hmapped Hfound Hout.
    assert (is_open_output st name
            = bool_decide (Connection.get_direction o = ConnectionDirection.Out
                           ∧ Connection.get_status o = ConnectionStatus.Open))
      as Hdesignates by (unfold is_open_output; by rewrite Hfound).
    assert ((name, stream_identifier payload)
              ∈ right_equal_range (stream_identifier payload) st) as Hrange
      by (by apply list_elem_of_filter).
    pose proof (delivered_deliveries_of st
                  (right_equal_range (stream_identifier payload) st) name)
      as Hcount.
    fold (deliveries st (stream_identifier payload)) in Hcount.
    fold names in Hcount. rewrite Hdesignates in Hcount.
    split.
    + intros Hnot. rewrite bool_decide_eq_false_2 in Hcount by (by intros [_ ?]).
      split; [by apply Hnone|].
      intros i c Hi Hclosed. simpl.
      apply elem_of_app. left.
      apply (Htrig) with (c := c); [|done..].
      exists name, j, o. split; [|done].
      apply list_elem_of_fmap. by exists (name, stream_identifier payload).
    + intros Hopen. rewrite bool_decide_eq_true_2 in Hcount by done.
      pose proof Hfound as [Hj Hname]%find_connection_Some.
      destruct (Hbuffers o) as [[buffer latched] Hbuffer];
        [by eapply list_elem_of_lookup_2|].
      rewrite Hname in Hbuffer.
      assert (∃ more,
                length (filter (λ e, e.1 = name)
                          (right_equal_range (stream_identifier payload) st))
                = S more) as [more Hmore].
      { destruct (filter (λ e, e.1 = name)
                    (right_equal_range (stream_identifier payload) st))
          as [|e l] eqn:Hfilter; [|by eauto].
        assert ((name, stream_identifier payload) ∈ @nil (string * Z)) as Hin
          by (rewrite <- Hfilter; by apply list_elem_of_filter).
        by apply elem_of_nil in Hin. }
      exists buffer, more. split; [by rewrite Hbuffer|]. split; [done|].
      by rewrite Hall, Hcount, Hmore, Hbuffer.
  - intros name Hname. apply Hnone. by apply delivered_not_in.
Qed.

Lemma well_formed_second_output_closed :
  well_formed Example.second_output_closed.
Proof.
  split.
  - intros c Hc. vm_compute in Hc.
    repeat (apply elem_of_cons in Hc as [->|Hc]; [vm_compute; eauto|]).
    by apply elem_of_nil in Hc.
  - intros n sid Hin. vm_compute in Hin.
    repeat (apply elem_of_cons in Hin as [[= -> ->]|Hin]; [vm_compute; eauto|]).
    by apply elem_of_nil in Hin.
Qed.

Lemma read_complete_fan_out_witness :
  fst <$> connection_buffers_
            (state_of (read_complete Example.pending 0 0 (Example.video 1)
                         Example.second_output_closed)) !! "out0"
  = Some {| PayloadBuffer.capacity := 4;
            PayloadBuffer.buffer_ := [Example.video 1] |}
  ∧ fst <$> connection_buffers_
              (state_of (read_complete Example.pending 0 0 (Example.video 1)
                           Example.second_output_closed)) !! "out1"
    = fst <$> connection_buffers_ Example.second_output_closed !! "out1"
  ∧ AsyncAccept 2
    ∈ trace (state_of (read_complete Example.pending 0 0 (Example.video 1)
                         Example.second_output_closed))
  ∧ Stream.payloads_received
      <$> streams_ (state_of (read_complete Example.pending 0 0
                                (Example.video 1)
                                Example.second_output_closed)) !! 0%nat
    = Some 1
  ∧ Stream.payload_errors
      <$> streams_ (state_of (read_complete Example.pending 0 0
                                (Example.video 1)
                                Example.second_output_closed)) !! 0%nat
    = Some 0.
Proof.
  destruct (read_complete_fan_out Example.pending
              Example.second_output_closed 0 (Example.video 1) 0
              (Stream.make 100 PayloadType.Video)
              well_formed_second_output_closed)
    as (_ & Hbuffers & Hstreams & Houtputs & _);
    [discriminate | reflexivity |].
  split; [rewrite (Hbuffers "out0"); vm_compute; reflexivity|].
  destruct (Houtputs "out1" 2%nat
              (Connection.set_status ConnectionStatus.Closed
                 (Connection.set_streams [0%nat]
                    (Connection.make ConnectionType.Tcp "out1" "localhost"
                       3001 ConnectionMode.Server ConnectionDirection.Out))))
    as [Hskipped _].
  { change (("out1", 100) ∈ [("in0", 100); ("out0", 100); ("out1", 100)]).
    right; right; left. }
  { reflexivity. }
  { reflexivity. }
  destruct (Hskipped ltac:(discriminate)) as [Hkept Hopened].
  split; [exact Hkept|].
  split; [exact (Hopened 2%nat _ eq_refl eq_refl)|].
  rewrite Hstreams. vm_compute. split; reflexivity.
Defined.
